(** * Turn-based battle engine (main.py): a shallow embedding and its properties

    Python objects are mutable and shared: the same [Ability] object can sit in
    the ability lists of several characters, and the [StatusEffect] attached
    to an ability is handed, as the very same object, to every target it is
    applied to.  The embedding therefore keeps the objects in stores indexed
    by references, and every operation of the source becomes a function on
    the store.

    Two things the engine uses live outside the repository:
    - the [random] module (one shared generator), taken as a parameter
      [RandomSource];
    - [uuid.uuid4], which draws from operating-system entropy and is not
      touched by [random.seed]; the identifiers it returns are taken as a
      parameter [uuid4], indexed by the number of earlier calls. *)

From Stdlib Require Import ZArith String Ascii List Bool Lia DecimalString.
From Stdlib Require Import Sorting.Sorted.
Import ListNotations.

Local Open Scope string_scope.
Local Open Scope list_scope.
Local Open Scope Z_scope.

(** ** Objects *)

Definition ref := nat.

(** Update of one object of a store. *)
Definition upd {A : Type} (h : ref -> A) (r : ref) (v : A) : ref -> A :=
  fun r' => if Nat.eqb r' r then v else h r'.

Record StatusEffect := mkStatusEffect {
  se_name : string;
  duration : Z;
  effect_value : Z;
  effect_type : string
}.

Record Ability := mkAbility {
  ab_name : string;
  power : Z;
  cooldown : Z;
  current_cooldown : Z;
  effect : option ref            (* Optional[StatusEffect] *)
}.

Record Item := mkItem {
  it_name : string;
  it_effect : string;
  it_effect_value : Z;
  quantity : Z
}.

Record Character := mkCharacter {
  name : string;
  max_hp : Z;
  current_hp : Z;
  attack : Z;
  defense : Z;
  speed : Z;
  ch_team_id : string;
  position : Z;
  alive : bool;
  abilities : list ref;          (* List[Ability] *)
  inventory : list Item;
  status_effects : list ref      (* List[StatusEffect] *)
}.

Record Team := mkTeam {
  team_id : string;
  characters : list ref;         (* List[Character] *)
  formation : list Z
}.

(** The three event classes the engine instantiates.  [event_id] and
    [description] are the fields of the base class [Event]. *)
Inductive Event :=
| CriticalHitEvent (event_id description : string) (attacker target : ref) (extra_damage : Z)
| MissEvent (event_id description : string) (attacker target : ref)
| AbilityUsedEvent (event_id description : string) (user ability : ref) (target : option ref).

(** Entries of the confrontation log (Python dictionaries). *)
Record ActionDetail := mkActionDetail {
  actor : string;
  action : option string;
  ad_target : option string;
  damage : Z;
  extra : list string
}.

Record TurnDetails := mkTurnDetails {
  turn_number : Z;
  actions : list ActionDetail;
  td_status_effects : option (list string);   (* key "status_effects", may be absent *)
  td_events : option (list string)            (* key "events", may be absent *)
}.

Inductive LogEntry :=
| TurnRecord (td : TurnDetails)
| ResultRecord (battle_result : string) (final_turn : Z) (rr_events : option (list string)).

Record GameEngine := mkGameEngine {
  team_a : Team;
  team_b : Team;
  turn_log : list LogEntry;
  event_log : list Event;
  battle_over : bool;
  turn_count : Z
}.

(** Exceptions and results.  Two statements of the engine can raise:
    [self.turn_log[-1]] in [_process_events] (IndexError on an empty log) and
    [fighter.attack * 0.5] in [_perform_action] (OverflowError when the
    attack is too large to be converted to a float).  An exception is not
    caught anywhere: it ends [run_battle], and the result [Raise] does not
    say in which state the objects are left. *)
Inductive exn := IndexError | OverflowError | OutOfFuel.

Inductive result (A : Type) :=
| Ok (a : A)
| Raise (e : exn).
Arguments Ok {A} a.
Arguments Raise {A} e.

Definition bind {A B : Type} (m : result A) (k : A -> result B) : result B :=
  match m with
  | Ok a => k a
  | Raise e => Raise e
  end.

Notation "'do' x <- m ; k" := (bind m (fun x => k))
  (at level 10, x pattern, m at level 100, k at level 200).

(** ** The random module *)

(** [random] returns the numerator [k] of the float [k / 2^53] that
    [random.random()] returns; [randbelow n] is the index [random.choice]
    draws for a sequence of length [n]. *)
Record RandomSource := mkRandomSource {
  rng : Type;
  seed : Z -> rng;
  random : rng -> Z * rng;
  randbelow : nat -> rng -> nat * rng;
  randbelow_lt : forall n r, (0 < n)%nat -> (fst (randbelow n r) < n)%nat
}.

(** [k / 2^53 < num / 10].  For every multiple of [2^-53] the comparison
    with the double nearest to 0.1, 0.2 or 0.3 has the same outcome as the
    comparison with the exact decimal. *)
Definition below_tenths (num k : Z) : bool := 10 * k <? num * 2 ^ 53.

(** ** Floats

    [fighter.attack * 0.5] converts the integer to a double first.  The
    conversion rounds to 53 significant bits, ties to even, and raises
    OverflowError when the rounded value does not fit a double, that is from
    [2^1024] on.  The double it returns is an integer, given here by its
    value.  The product with 0.5 is exact, and [int] of it truncates towards
    zero. *)

(** The nearest number with 53 significant bits, for [0 <= n]. *)
Definition round_half_even (n : Z) : Z :=
  let s := Z.log2 n + 1 - 53 in
  if s <=? 0 then n
  else
    let q := Z.shiftr n s in
    let r := n - Z.shiftl q s in
    let half := Z.shiftl 1 (s - 1) in
    let q' := if (half <? r) || ((r =? half) && Z.odd q) then q + 1 else q in
    Z.shiftl q' s.

Definition double_limit : Z := 2 ^ 1024.

(** [float(n)]; [None] stands for the OverflowError. *)
Definition float_of_int (n : Z) : option Z :=
  let m := round_half_even (Z.abs n) in
  if m <? double_limit then Some (Z.sgn n * m) else None.

(** [int(n * 0.5)] *)
Definition int_times_half (n : Z) : result Z :=
  match float_of_int n with
  | Some m => Ok (Z.quot m 2)
  | None => Raise OverflowError
  end.

(** Python's [str] of an [int]. *)
Definition str_int (z : Z) : string := NilZero.string_of_int (Z.to_int z).

(** ** Field updates *)

Definition set_duration (d : Z) (e : StatusEffect) : StatusEffect :=
  mkStatusEffect (se_name e) d (effect_value e) (effect_type e).

Definition set_current_cooldown (c : Z) (a : Ability) : Ability :=
  mkAbility (ab_name a) (power a) (cooldown a) c (effect a).

Definition set_current_hp (hp : Z) (c : Character) : Character :=
  mkCharacter (name c) (max_hp c) hp (attack c) (defense c) (speed c) (ch_team_id c)
    (position c) (alive c) (abilities c) (inventory c) (status_effects c).

Definition set_alive (b : bool) (c : Character) : Character :=
  mkCharacter (name c) (max_hp c) (current_hp c) (attack c) (defense c) (speed c)
    (ch_team_id c) (position c) b (abilities c) (inventory c) (status_effects c).

Definition set_attack (a : Z) (c : Character) : Character :=
  mkCharacter (name c) (max_hp c) (current_hp c) a (defense c) (speed c) (ch_team_id c)
    (position c) (alive c) (abilities c) (inventory c) (status_effects c).

Definition set_defense (d : Z) (c : Character) : Character :=
  mkCharacter (name c) (max_hp c) (current_hp c) (attack c) d (speed c) (ch_team_id c)
    (position c) (alive c) (abilities c) (inventory c) (status_effects c).

Definition set_position (p : Z) (c : Character) : Character :=
  mkCharacter (name c) (max_hp c) (current_hp c) (attack c) (defense c) (speed c)
    (ch_team_id c) p (alive c) (abilities c) (inventory c) (status_effects c).

Definition set_status_effects (l : list ref) (c : Character) : Character :=
  mkCharacter (name c) (max_hp c) (current_hp c) (attack c) (defense c) (speed c)
    (ch_team_id c) (position c) (alive c) (abilities c) (inventory c) l.

Definition set_formation (f : list Z) (t : Team) : Team :=
  mkTeam (team_id t) (characters t) f.

Definition set_turn_log (l : list LogEntry) (g : GameEngine) : GameEngine :=
  mkGameEngine (team_a g) (team_b g) l (event_log g) (battle_over g) (turn_count g).

Definition set_event_log (l : list Event) (g : GameEngine) : GameEngine :=
  mkGameEngine (team_a g) (team_b g) (turn_log g) l (battle_over g) (turn_count g).

Definition set_battle_over (b : bool) (g : GameEngine) : GameEngine :=
  mkGameEngine (team_a g) (team_b g) (turn_log g) (event_log g) b (turn_count g).

Definition set_turn_count (n : Z) (g : GameEngine) : GameEngine :=
  mkGameEngine (team_a g) (team_b g) (turn_log g) (event_log g) (battle_over g) n.

(** ** Constructors of the source *)

(** [Ability.__init__]: a new ability is off cooldown. *)
Definition Ability_init (n : string) (pw cd : Z) (eff : option ref) : Ability :=
  mkAbility n pw cd 0 eff.

(** [Character.__init__]. *)
Definition Character_init (n : string) (hp atk def spd : Z) (team : string) (pos : Z)
    (abs : list ref) (inv : list Item) : Character :=
  mkCharacter n hp hp atk def spd team pos true abs inv [].

Section Engine.

Variable R : RandomSource.

(** [uuid4 n] is the hexadecimal form of the identifier returned by the call
    of [uuid.uuid4()] that comes after [n] earlier ones. *)
Variable uuid4 : nat -> string.

(** The mutable state outside the engine object: the three object stores,
    the state of the shared generator of [random], and the number of
    identifiers drawn so far. *)
Record World := mkWorld {
  effects : ref -> StatusEffect;
  ability_objs : ref -> Ability;
  chars : ref -> Character;
  random_state : rng R;
  uuid_calls : nat
}.

Definition set_effect (e : ref) (v : StatusEffect) (w : World) : World :=
  mkWorld (upd (effects w) e v) (ability_objs w) (chars w) (random_state w) (uuid_calls w).

Definition set_ability (a : ref) (v : Ability) (w : World) : World :=
  mkWorld (effects w) (upd (ability_objs w) a v) (chars w) (random_state w) (uuid_calls w).

Definition set_char (c : ref) (v : Character) (w : World) : World :=
  mkWorld (effects w) (ability_objs w) (upd (chars w) c v) (random_state w) (uuid_calls w).

Definition set_random_state (r : rng R) (w : World) : World :=
  mkWorld (effects w) (ability_objs w) (chars w) r (uuid_calls w).

Definition set_uuid_calls (n : nat) (w : World) : World :=
  mkWorld (effects w) (ability_objs w) (chars w) (random_state w) n.

(** [random.random()] and [random.choice(seq)] on the shared generator.
    [choice] is only called on non-empty sequences; [d] is an element of the
    sequence that the bound on [randbelow] makes irrelevant. *)
Definition random_random (w : World) : Z * World :=
  let (k, r) := random R (random_state w) in (k, set_random_state r w).

Definition choice {A : Type} (d : A) (l : list A) (w : World) : A * World :=
  let (i, r) := randbelow R (length l) (random_state w) in
  (nth i l d, set_random_state r w).

(** ** StatusEffect *)

Definition tick (e : ref) (w : World) : World :=
  let eff := effects w e in
  set_effect e (set_duration (duration eff - 1) eff) w.

Definition is_expired (e : StatusEffect) : bool := duration e <=? 0.

(** ** Ability *)

Definition is_available (a : Ability) : bool := current_cooldown a =? 0.

Definition use (a : ref) (w : World) : World :=
  let ab := ability_objs w a in
  set_ability a (set_current_cooldown (cooldown ab) ab) w.

Definition tick_cooldown (a : ref) (w : World) : World :=
  let ab := ability_objs w a in
  if 0 <? current_cooldown ab
  then set_ability a (set_current_cooldown (current_cooldown ab - 1) ab) w
  else w.

(** ** Character *)

Definition take_damage (c : ref) (amount : Z) (w : World) : World :=
  let ch := chars w c in
  let hp := current_hp ch - amount in
  if hp <=? 0
  then set_char c (set_alive false (set_current_hp 0 ch)) w
  else set_char c (set_current_hp hp ch) w.

Definition heal (c : ref) (amount : Z) (w : World) : World :=
  let ch := chars w c in
  let hp := Z.min (current_hp ch + amount) (max_hp ch) in
  if 0 <? hp
  then set_char c (set_alive true (set_current_hp hp ch)) w
  else set_char c (set_current_hp hp ch) w.

Definition add_status_effect (c : ref) (e : ref) (w : World) : World :=
  let ch := chars w c in
  set_char c (set_status_effects (status_effects ch ++ [e]) ch) w.

(** [StatusEffect.apply_effect]; an unknown kind does nothing. *)
Definition apply_effect (e : ref) (c : ref) (w : World) : World :=
  let eff := effects w e in
  if (effect_type eff =? "poison")%string then take_damage c (effect_value eff) w
  else if (effect_type eff =? "heal")%string then heal c (effect_value eff) w
  else if (effect_type eff =? "buff")%string then
    let ch := chars w c in set_char c (set_attack (attack ch + effect_value eff) ch) w
  else if (effect_type eff =? "debuff")%string then
    let ch := chars w c in
    set_char c (set_defense (Z.max 0 (defense ch - effect_value eff)) ch) w
  else w.

(** The loop of [process_status_effects] over the held effects. *)
Fixpoint apply_status_effects (c : ref) (held : list ref) (w : World) : list string * World :=
  match held with
  | [] => ([], w)
  | e :: rest =>
      let w1 := apply_effect e c w in
      let line := (name (chars w1 c) ++ " is affected by " ++ se_name (effects w1 e)
                   ++ " (" ++ str_int (effect_value (effects w1 e)) ++ ")")%string in
      let w2 := tick e w1 in
      let (logs, w3) := apply_status_effects c rest w2 in
      (line :: logs, w3)
  end.

Definition process_status_effects (c : ref) (w : World) : list string * World :=
  let (logs, w1) := apply_status_effects c (status_effects (chars w c)) w in
  let ch := chars w1 c in
  let kept := filter (fun e => negb (is_expired (effects w1 e))) (status_effects ch) in
  (logs, set_char c (set_status_effects kept ch) w1).

Definition tick_abilities (c : ref) (w : World) : World :=
  fold_left (fun w' a => tick_cooldown a w') (abilities (chars w c)) w.

(** ** Team *)

Definition get_alive_characters (t : Team) (w : World) : list ref :=
  filter (fun c => alive (chars w c)) (characters t).

Definition is_defeated (t : Team) (w : World) : bool :=
  forallb (fun c => negb (alive (chars w c))) (characters t).

Definition rearrange_formation (t : Team) (new_order : list Z) (w : World) : Team * World :=
  if negb (Nat.eqb (length new_order) (length (characters t))) then (t, w)
  else
    let w' := fold_left
                (fun w' (p : ref * Z) =>
                   set_char (fst p) (set_position (snd p) (chars w' (fst p))) w')
                (combine (characters t) new_order) w in
    (set_formation new_order t, w').

(** ** Events *)

Definition Event_event_id (ev : Event) : string :=
  match ev with
  | CriticalHitEvent i _ _ _ _ => i
  | MissEvent i _ _ _ => i
  | AbilityUsedEvent i _ _ _ _ => i
  end.

Definition Event_description (ev : Event) : string :=
  match ev with
  | CriticalHitEvent _ d _ _ _ => d
  | MissEvent _ d _ _ => d
  | AbilityUsedEvent _ d _ _ _ => d
  end.

(** [Event.__init__] draws the identifier. *)
Definition new_event_id (w : World) : string * World :=
  (uuid4 (uuid_calls w), set_uuid_calls (S (uuid_calls w)) w).

Definition CriticalHitEvent_init (attacker target : ref) (extra_damage : Z) (w : World)
    : Event * World :=
  let (i, w') := new_event_id w in
  (CriticalHitEvent i
     ("Critical hit by " ++ name (chars w attacker) ++ " on " ++ name (chars w target)
      ++ " for extra " ++ str_int extra_damage)%string
     attacker target extra_damage, w').

Definition MissEvent_init (attacker target : ref) (w : World) : Event * World :=
  let (i, w') := new_event_id w in
  (MissEvent i
     (name (chars w attacker) ++ "'s attack missed " ++ name (chars w target))%string
     attacker target, w').

Definition AbilityUsedEvent_init (user ability : ref) (target : option ref) (w : World)
    : Event * World :=
  let (i, w') := new_event_id w in
  (AbilityUsedEvent i
     (name (chars w user) ++ " used ability " ++ ab_name (ability_objs w ability) ++ " on "
      ++ match target with Some t => name (chars w t) | None => "None" end)%string
     user ability target, w').

(** [str(event)]: the classes define [__repr__] only, which [str] falls back to. *)
Definition Event_str (ev : Event) : string :=
  ("<Event " ++ Event_event_id ev ++ ": " ++ Event_description ev ++ ">")%string.

Definition process (ev : Event) (w : World) : World :=
  match ev with
  | CriticalHitEvent _ _ _ target extra_damage => take_damage target extra_damage w
  | MissEvent _ _ _ _ => w
  | AbilityUsedEvent _ _ _ ability target =>
      match effect (ability_objs w ability), target with
      | Some e, Some t => add_status_effect t e w
      | _, _ => w
      end
  end.

(** ** GameEngine *)

Definition max_turns : Z := 100.

Definition GameEngine_init (ta tb : Team) (random_seed : option Z) (w : World)
    : GameEngine * World :=
  (mkGameEngine ta tb [] [] false 0,
   match random_seed with
   | Some s => set_random_state (seed R s) w
   | None => w
   end).

Definition _get_all_alive_characters (g : GameEngine) (w : World) : list ref :=
  get_alive_characters (team_a g) w ++ get_alive_characters (team_b g) w.

(** The loop of [_process_status_effects] over the list computed before it. *)
Fixpoint status_loop (cs : list ref) (w : World) : list string * World :=
  match cs with
  | [] => ([], w)
  | c :: rest =>
      let (l1, w1) := process_status_effects c w in
      let (l2, w2) := status_loop rest w1 in
      (l1 ++ l2, w2)
  end.

Definition _process_status_effects (g : GameEngine) (w : World) : list string * World :=
  status_loop (_get_all_alive_characters g w) w.

Definition _choose_target (fighter : ref) (g : GameEngine) (w : World) : option ref * World :=
  let target_team :=
    if (ch_team_id (chars w fighter) =? team_id (team_a g))%string
    then team_b g else team_a g in
  match get_alive_characters target_team w with
  | [] => (None, w)
  | c :: cs => let (t, w') := choice c (c :: cs) w in (Some t, w')
  end.

Definition idle_detail (n : string) : ActionDetail :=
  mkActionDetail n (Some "idle") None 0 [].

Definition log_event (ev : Event) (g : GameEngine) : GameEngine :=
  set_event_log (event_log g ++ [ev]) g.

(** The branch of [_perform_action] that uses an ability ([available] is
    not empty). *)
Definition ability_action (fighter : ref) (a0 : ref) (available : list ref)
    (g : GameEngine) (w : World) : ActionDetail * GameEngine * World :=
  let (ability, w1) := choice a0 available w in
  let (target, w2) := _choose_target fighter g w1 in
  match target with
  | Some t =>
      let w3 := use ability w2 in
      let (ev, w4) := AbilityUsedEvent_init fighter ability (Some t) w3 in
      let g1 := log_event ev g in
      let dmg := Z.max 1 (attack (chars w4 fighter) + power (ability_objs w4 ability)
                          - defense (chars w4 t)) in
      let w5 := take_damage t dmg w4 in
      (mkActionDetail (name (chars w fighter))
         (Some ("use ability " ++ ab_name (ability_objs w5 ability))%string)
         (Some (name (chars w5 t))) dmg ["ability event logged"], g1, w5)
  | None => (idle_detail (name (chars w fighter)), g, w2)
  end.

(** The branch of [_perform_action] that makes a basic attack.  On a
    critical hit [int(fighter.attack * 0.5)] can raise, before anything is
    queued or written. *)
Definition basic_attack (fighter : ref) (g : GameEngine) (w : World)
    : result (ActionDetail * GameEngine * World) :=
  let (target, w1) := _choose_target fighter g w in
  match target with
  | Some t =>
      let (k, w2) := random_random w1 in
      if below_tenths 1 k then
        let (ev, w3) := MissEvent_init fighter t w2 in
        Ok (mkActionDetail (name (chars w fighter)) (Some "attack (missed)")
              (Some (name (chars w3 t))) 0 [], log_event ev g, w3)
      else
        let (k', w3) := random_random w2 in
        do (extra_damage, g1, w4) <-
          (if below_tenths 2 k' then
             do x <- int_times_half (attack (chars w3 fighter)) ;
             let (ev, w4) := CriticalHitEvent_init fighter t x w3 in
             Ok (x, log_event ev g, w4)
           else Ok (0, g, w3)) ;
        let base_damage := Z.max 1 (attack (chars w4 fighter) - defense (chars w4 t)) in
        let total_damage := base_damage + extra_damage in
        let w5 := take_damage t total_damage w4 in
        Ok (mkActionDetail (name (chars w fighter)) (Some "attack")
              (Some (name (chars w5 t))) total_damage [], g1, w5)
  | None => Ok (idle_detail (name (chars w fighter)), g, w1)
  end.

(** [_perform_action].  [available_abilities and random.random() < 0.3]
    draws a number only when the list is not empty. *)
Definition _perform_action (fighter : ref) (g : GameEngine) (w : World)
    : result (ActionDetail * GameEngine * World) :=
  let available :=
    filter (fun a => is_available (ability_objs w a)) (abilities (chars w fighter)) in
  match available with
  | [] => basic_attack fighter g w
  | a0 :: _ =>
      let (k, w1) := random_random w in
      if below_tenths 3 k then Ok (ability_action fighter a0 available g w1)
      else basic_attack fighter g w1
  end.

(** The key of [all_fighters.sort(key=lambda c: (-c.speed, c.position))] and
    the order of Python tuples on it. *)
Definition sort_key (w : World) (c : ref) : Z * Z :=
  (- speed (chars w c), position (chars w c)).

Definition key_leb (k1 k2 : Z * Z) : bool :=
  (fst k1 <? fst k2) || ((fst k1 =? fst k2) && (snd k1 <=? snd k2)).

(** [list.sort] is stable; so is this insertion sort, which puts an element
    before the elements to its right that have an equal key. *)
Fixpoint insert_fighter (w : World) (c : ref) (l : list ref) : list ref :=
  match l with
  | [] => [c]
  | d :: l' =>
      if key_leb (sort_key w c) (sort_key w d) then c :: d :: l'
      else d :: insert_fighter w c l'
  end.

Definition sort_fighters (w : World) (l : list ref) : list ref :=
  fold_right (insert_fighter w) [] l.

(** The [for fighter in all_fighters] loop of [run_battle].  It returns the
    action records in the order in which they are appended to
    [turn_details["actions"]]; each record is paired with the fighter that
    produced it (the log keeps the record only). *)
Fixpoint action_loop (fighters : list ref) (g : GameEngine) (w : World)
    : result (list (ref * ActionDetail) * GameEngine * World) :=
  match fighters with
  | [] => Ok ([], g, w)
  | f :: rest =>
      if negb (alive (chars w f)) then action_loop rest g w
      else
        let w1 := tick_abilities f w in
        do (d, g1, w2) <- _perform_action f g w1 ;
        if is_defeated (team_a g1) w2 || is_defeated (team_b g1) w2
        then Ok ([(f, d)], set_battle_over true g1, w2)
        else
          do (acts, g2, w3) <- action_loop rest g1 w2 ;
          Ok ((f, d) :: acts, g2, w3)
  end.

(** [d.setdefault("events", []).append(s)] *)
Definition setdefault_append (s : string) (o : option (list string)) : option (list string) :=
  match o with
  | None => Some [s]
  | Some l => Some (l ++ [s])
  end.

Definition record_event (s : string) (e : LogEntry) : LogEntry :=
  match e with
  | TurnRecord td =>
      TurnRecord (mkTurnDetails (turn_number td) (actions td) (td_status_effects td)
                    (setdefault_append s (td_events td)))
  | ResultRecord r n evs => ResultRecord r n (setdefault_append s evs)
  end.

(** Update of [log[-1]]; [None] stands for the IndexError of an empty list. *)
Fixpoint update_last (f : LogEntry -> LogEntry) (log : list LogEntry) : option (list LogEntry) :=
  match log with
  | [] => None
  | e :: rest =>
      match rest with
      | [] => Some [f e]
      | _ :: _ => option_map (cons e) (update_last f rest)
      end
  end.

(** The [while self.event_log] loop of [_process_events]: no event's
    [process] adds an event, so the loop runs once over the queue. *)
Fixpoint flush_events (queue : list Event) (log : list LogEntry) (w : World)
    : result (list LogEntry * World) :=
  match queue with
  | [] => Ok (log, w)
  | ev :: rest =>
      let w1 := process ev w in
      match update_last (record_event (Event_str ev)) log with
      | Some log' => flush_events rest log' w1
      | None => Raise IndexError
      end
  end.

Definition _process_events (g : GameEngine) (w : World) : result (GameEngine * World) :=
  do (log, w') <- flush_events (event_log g) (turn_log g) w ;
  Ok (set_turn_log log (set_event_log [] g), w').

Definition _log_battle_result (g : GameEngine) (w : World) : GameEngine :=
  let result_text :=
    if is_defeated (team_a g) w && is_defeated (team_b g) w then "Draw: Both teams defeated."
    else if is_defeated (team_a g) w then ("Team " ++ team_id (team_b g) ++ " wins!")%string
    else if is_defeated (team_b g) w then ("Team " ++ team_id (team_a g) ++ " wins!")%string
    else "Turn limit reached. Possibly a draw." in
  set_turn_log (turn_log g ++ [ResultRecord result_text (turn_count g) None]) g.

(** One iteration of the [while] loop of [run_battle].  The first [break]
    (no fighter left after the status phase) leaves the loop with
    [battle_over] set, before the turn record is appended; as the loop
    condition tests [battle_over], returning that state is the same. *)
Definition turn (g : GameEngine) (w : World) : result (GameEngine * World) :=
  let g1 := set_turn_count (turn_count g + 1) g in
  let (status_logs, w1) := _process_status_effects g1 w in
  let status_key := match status_logs with [] => None | _ :: _ => Some status_logs end in
  match _get_all_alive_characters g1 w1 with
  | [] => Ok (set_battle_over true g1, w1)
  | f :: fs =>
      let all_fighters := sort_fighters w1 (f :: fs) in
      do (acts, g2, w2) <- action_loop all_fighters g1 w1 ;
      let turn_details := mkTurnDetails (turn_count g1) (map snd acts) status_key None in
      _process_events (set_turn_log (turn_log g2 ++ [TurnRecord turn_details]) g2) w2
  end.

Fixpoint battle_loop (fuel : nat) (g : GameEngine) (w : World) : result (GameEngine * World) :=
  if negb (battle_over g) && (turn_count g <? max_turns) then
    match fuel with
    | O => Raise OutOfFuel
    | S fuel' => do (g', w') <- turn g w ; battle_loop fuel' g' w'
    end
  else Ok (g, w).

(** [run_battle]: the loop runs at most [max_turns - turn_count] times. *)
Definition run_battle (g : GameEngine) (w : World) : result (GameEngine * World) :=
  do (g', w') <- battle_loop (Z.to_nat (max_turns - turn_count g)) g w ;
  Ok (_log_battle_result g' w', w').

Definition get_confrontation_log (g : GameEngine) : list LogEntry := turn_log g.

(** [Team.__init__] and [Team.add_character]. *)
Definition Team_init (id : string) : Team := mkTeam id [] [].

Definition add_character (t : Team) (c : ref) (w : World) : Team :=
  mkTeam (team_id t) (characters t ++ [c]) (formation t ++ [position (chars w c)]).

(** [Item.use_item].  The item is a value here: the call returns the item
    with its new quantity along with the store. *)
Definition use_item (it : Item) (c : ref) (w : World) : Item * World :=
  let w' :=
    if (it_effect it =? "heal")%string then heal c (it_effect_value it) w
    else if (it_effect it =? "damage")%string then take_damage c (it_effect_value it) w
    else if (it_effect it =? "buff")%string then
      let ch := chars w c in set_char c (set_attack (attack ch + it_effect_value it) ch) w
    else w in
  (mkItem (it_name it) (it_effect it) (it_effect_value it) (quantity it - 1), w').

End Engine.

Arguments effects {R} w.
Arguments ability_objs {R} w.
Arguments chars {R} w.
Arguments random_state {R} w.
Arguments uuid_calls {R} w.
Arguments mkWorld {R}.
Arguments set_effect {R}.
Arguments set_ability {R}.
Arguments set_char {R}.
Arguments set_random_state {R}.
Arguments set_uuid_calls {R}.
Arguments random_random {R}.
Arguments tick {R}.
Arguments use {R}.
Arguments tick_cooldown {R}.
Arguments take_damage {R}.
Arguments heal {R}.
Arguments add_status_effect {R}.
Arguments apply_effect {R}.
Arguments apply_status_effects {R}.
Arguments process_status_effects {R}.
Arguments tick_abilities {R}.
Arguments get_alive_characters {R}.
Arguments is_defeated {R}.
Arguments rearrange_formation {R}.
Arguments new_event_id {R}.
Arguments CriticalHitEvent_init {R}.
Arguments MissEvent_init {R}.
Arguments AbilityUsedEvent_init {R}.
Arguments process {R}.
Arguments GameEngine_init {R}.
Arguments _get_all_alive_characters {R}.
Arguments status_loop {R}.
Arguments _process_status_effects {R}.
Arguments _choose_target {R}.
Arguments ability_action {R}.
Arguments basic_attack {R}.
Arguments _perform_action {R}.
Arguments sort_key {R}.
Arguments insert_fighter {R}.
Arguments sort_fighters {R}.
Arguments action_loop {R}.
Arguments flush_events {R}.
Arguments _process_events {R}.
Arguments _log_battle_result {R}.
Arguments turn {R}.
Arguments battle_loop {R}.
Arguments run_battle {R}.
Arguments choice {R A}.
Arguments add_character {R}.
Arguments use_item {R}.

(** ** A replayed generator

    An instance of [RandomSource] whose draws are read off a list: every
    [random()] and every index drawn by [choice] consumes the next number
    (an exhausted list keeps answering zero).  [script s] is the list of
    draws that follows [random.seed(s)]. *)

Definition replay_random (r : list Z) : Z * list Z :=
  match r with
  | [] => (0, [])
  | k :: r' => (k, r')
  end.

Definition replay_randbelow (n : nat) (r : list Z) : nat * list Z :=
  match r with
  | [] => (0%nat, [])
  | k :: r' => (Nat.modulo (Z.to_nat k) n, r')
  end.

Lemma replay_randbelow_lt (n : nat) (r : list Z) :
  (0 < n)%nat -> (fst (replay_randbelow n r) < n)%nat.
Proof.
  intros Hn. destruct r as [|k r']; simpl.
  - exact Hn.
  - apply Nat.mod_upper_bound. lia.
Qed.

Definition replay (script : Z -> list Z) : RandomSource :=
  mkRandomSource (list Z) script replay_random replay_randbelow replay_randbelow_lt.

(** The draw [num / den] of [random()], as a numerator over [2^53]. *)
Definition frac (num den : Z) : Z := num * 2 ^ 53 / den.


(** ** Concrete squads

    Stores are given by lists: reference [n] is the [n]-th object. *)

Definition blank_effect : StatusEffect := mkStatusEffect "" 0 0 "".
Definition blank_ability : Ability := mkAbility "" 0 0 0 None.
Definition blank_character : Character := mkCharacter "" 0 0 0 0 0 "" 0 false [] [] [].

Definition new_world (R : RandomSource) (effs : list StatusEffect) (abs : list Ability)
    (chs : list Character) (r : rng R) : World R :=
  mkWorld (fun e => nth e effs blank_effect) (fun a => nth a abs blank_ability)
    (fun c => nth c chs blank_character) r 0%nat.

(** Identifiers as [uuid.uuid4().hex] returns them, for two runs of the
    process. *)
Definition uuids_of (l : list string) (n : nat) : string :=
  nth n l "00000000000000000000000000000000".

Definition first_run_ids : nat -> string :=
  uuids_of ["6f1c0c3a8d2e4b7f9a0b1c2d3e4f5a6b"; "0d9f2b6c4e8a4c1e8b7a6d5c4b3a2f1e";
            "a3c5e7f9b1d34f6a8c0e2a4c6e8f0b2d"; "5b7d9f1a3c5e4a6c8e0b2d4f6a8c0e2f"].

Definition second_run_ids : nat -> string :=
  uuids_of ["e3b0c44298fc4c149afbf4c8996fb924"; "27ae41e4649b434ca495991b7852b855";
            "9c56cc51b3744c3a9f2d8e1a7b6c5d4e"; "41c7760c50ef4d8b8a3e2f1d0c9b8a7f"].

(** [Team.add_character] on a new team, once. *)
Definition team_of_one (id : string) (c : ref) (pos : Z) : Team := mkTeam id [c] [pos].

Module Duel.
(** Ace (no ability) against Bo (one ability without effect).  The draws:
    Ace picks its target, does not miss, does not hit critically; Bo rolls
    below 0.3, picks its ability and its target; Ace again as before. *)
Definition draws : list Z :=
  [0; frac 1 2; frac 1 2;  0; 0; 0;  0; frac 1 2; frac 1 2].
Definition source : RandomSource := replay (fun _ => draws).
Definition ace : ref := 0%nat.
Definition bo : ref := 1%nat.
Definition slam : ref := 0%nat.
Definition team_A : Team := team_of_one "Team_A" ace 0.
Definition team_B : Team := team_of_one "Team_B" bo 0.
Definition world : World source :=
  new_world source [] [Ability_init "Slam" 3 3 None]
    [Character_init "Ace" 40 20 0 20 "Team_A" 0 [] [];
     Character_init "Bo" 30 5 0 10 "Team_B" 0 [slam] []]
    ([] : list Z).
Definition start : GameEngine * World source :=
  GameEngine_init team_A team_B (Some 12345) world.
(** The states after the first and after the second turn. *)
Definition after (p : GameEngine * World source) : GameEngine * World source :=
  match turn first_run_ids (fst p) (snd p) with
  | Ok q => q
  | Raise _ => p
  end.
Definition turn1 : GameEngine * World source := after start.
Definition turn2 : GameEngine * World source := after turn1.
(** The record of the first turn. *)
Definition record1 : TurnDetails :=
  match turn_log (fst turn1) with
  | [TurnRecord td] => td
  | _ => mkTurnDetails 0 [] None None
  end.
End Duel.

Module Critical.
(** The squads of the specification's scenario: A (attack 12, defense 4,
    speed 14) against B (attack 13, defense 30, speed 11).  The draws: A
    picks its target, does not miss (0.5), hits critically (0.1); B picks
    its target, does not miss, does not hit critically. *)
Definition draws : list Z := [0; frac 1 2; frac 1 10;  0; frac 1 2; frac 1 2].
Definition source : RandomSource := replay (fun _ => draws).
Definition a : ref := 0%nat.
Definition b : ref := 1%nat.
Definition world : World source :=
  new_world source [] []
    [Character_init "A" 40 12 4 14 "Team_A" 0 [] [];
     Character_init "B" 42 13 30 11 "Team_B" 0 [] []]
    ([] : list Z).
Definition start : GameEngine * World source :=
  GameEngine_init (team_of_one "Team_A" a 0) (team_of_one "Team_B" b 0) (Some 7) world.
End Critical.

Module Venom.
(** Ann and Ben, 3 health each, each with an ability that carries the same
    poison (magnitude 5).  Every draw is zero: both use their ability in the
    first turn. *)
Definition source : RandomSource := replay (fun _ => []).
Definition ann : ref := 0%nat.
Definition ben : ref := 1%nat.
Definition world : World source :=
  new_world source
    [mkStatusEffect "Poison" 3 5 "poison"]
    [Ability_init "Fireball" 0 3 (Some 0%nat); Ability_init "Poison Dart" 0 2 (Some 0%nat)]
    [Character_init "Ann" 3 1 0 2 "Team_A" 0 [0%nat] [];
     Character_init "Ben" 3 1 0 1 "Team_B" 0 [1%nat] []]
    ([] : list Z).
Definition start : GameEngine * World source :=
  GameEngine_init (team_of_one "Team_A" ann 0) (team_of_one "Team_B" ben 0) (Some 1) world.
(** The state after one more turn. *)
Definition after (p : GameEngine * World source) : GameEngine * World source :=
  match turn first_run_ids (fst p) (snd p) with
  | Ok q => q
  | Raise _ => p
  end.
End Venom.

Module Drain.
(** Ann's ability carries a poison of magnitude -4; Ben has 10 health.
    Every draw is zero: Ann uses the ability, Ben's attacks miss. *)
Definition source : RandomSource := replay (fun _ => []).
Definition ann : ref := 0%nat.
Definition ben : ref := 1%nat.
Definition world : World source :=
  new_world source
    [mkStatusEffect "Drain" 2 (-4) "poison"]
    [Ability_init "Hex" 0 3 (Some 0%nat)]
    [Character_init "Ann" 10 1 0 2 "Team_A" 0 [0%nat] [];
     Character_init "Ben" 10 1 0 1 "Team_B" 0 [] []]
    ([] : list Z).
Definition start : GameEngine * World source :=
  GameEngine_init (team_of_one "Team_A" ann 0) (team_of_one "Team_B" ben 0) (Some 1) world.
Definition after (p : GameEngine * World source) : GameEngine * World source :=
  match turn first_run_ids (fst p) (snd p) with
  | Ok q => q
  | Raise _ => p
  end.
Definition turn1 : GameEngine * World source := after start.
Definition turn2 : GameEngine * World source := after turn1.
End Drain.

Module Poisoned.
(** A character with 5 health that holds a poison of magnitude 2 and
    duration 3. *)
Definition source : RandomSource := replay (fun _ => []).
Definition victim : ref := 0%nat.
Definition poison : ref := 0%nat.
Definition world : World source :=
  add_status_effect victim poison
    (new_world source [mkStatusEffect "Poison" 3 2 "poison"] []
       [Character_init "Vic" 5 1 0 1 "Team_A" 0 [] []] ([] : list Z)).
End Poisoned.

Module Buffed.
(** A character with attack 10 that holds a buff of magnitude 2 and
    duration 3. *)
Definition source : RandomSource := replay (fun _ => []).
Definition hero : ref := 0%nat.
Definition rage : ref := 0%nat.
Definition world : World source :=
  add_status_effect hero rage
    (new_world source [mkStatusEffect "Rage" 3 2 "buff"] []
       [Character_init "Hero" 20 10 0 1 "Team_A" 0 [] []] ([] : list Z)).
End Buffed.

Module Shared.
(** Kim and Lee hold the same ability object, which has 5 turns of
    cooldown left, so neither can use it.  The draws: each picks its
    target, does not miss and does not hit critically. *)
Definition draws : list Z := [0; frac 1 2; frac 1 2;  0; frac 1 2; frac 1 2].
Definition source : RandomSource := replay (fun _ => draws).
Definition kim : ref := 0%nat.
Definition lee : ref := 1%nat.
Definition jab : ref := 0%nat.
Definition world : World source :=
  new_world source [] [mkAbility "Jab" 2 5 5 None]
    [Character_init "Kim" 50 5 0 3 "Team_A" 0 [jab] [];
     Character_init "Lee" 50 5 0 2 "Team_B" 0 [jab] []]
    ([] : list Z).
Definition start : GameEngine * World source :=
  GameEngine_init (team_of_one "Team_A" kim 0) (team_of_one "Team_B" lee 0) (Some 3) world.
Definition turn1 : GameEngine * World source :=
  match turn first_run_ids (fst start) (snd start) with
  | Ok q => q
  | Raise _ => start
  end.
End Shared.

Module Giant.
(** Titan's attack is [2^1024], which [float] does not convert.  The
    draws: Titan picks its target, does not miss (0.5) and hits critically
    (0.1). *)
Definition draws : list Z := [0; frac 1 2; frac 1 10].
Definition source : RandomSource := replay (fun _ => draws).
Definition titan : ref := 0%nat.
Definition imp : ref := 1%nat.
Definition world : World source :=
  new_world source [] []
    [Character_init "Titan" 10 (2 ^ 1024) 0 2 "Team_A" 0 [] [];
     Character_init "Imp" 10 1 0 1 "Team_B" 0 [] []]
    ([] : list Z).
Definition start : GameEngine * World source :=
  GameEngine_init (team_of_one "Team_A" titan 0) (team_of_one "Team_B" imp 0) (Some 1) world.
End Giant.

(** * Properties *)

Section Facts.
Set Default Proof Using "Type".

Variable R : RandomSource.
Variable uuid4 : nat -> string.

Implicit Types (w : World R) (g : GameEngine) (c e a f : ref).

(** ** Stores *)

Lemma upd_same {A : Type} (h : ref -> A) (r : ref) (v : A) : upd h r v r = v.
Proof. unfold upd. now rewrite Nat.eqb_refl. Qed.

Lemma upd_other {A : Type} (h : ref -> A) (r r' : ref) (v : A) :
  r' <> r -> upd h r v r' = h r'.
Proof. intros H. unfold upd. apply Nat.eqb_neq in H. now rewrite H. Qed.

(** ** Formation *)

(** C10.  A new order whose length is not the roster size changes nothing:
    [rearrange_formation] returns the team (with its formation) and the
    whole store (with every member's position) as they were; it has no
    access to the log and raises nothing. *)
Theorem rearrange_formation_length_mismatch (t : Team) (new_order : list Z) w :
  length new_order <> length (characters t) ->
  rearrange_formation t new_order w = (t, w)
  /\ formation (fst (rearrange_formation t new_order w)) = formation t
  /\ forall c, position (chars (snd (rearrange_formation t new_order w)) c)
               = position (chars w c).
Proof.
  intros Hlen.
  assert (E : rearrange_formation t new_order w = (t, w)).
  { unfold rearrange_formation.
    apply Nat.eqb_neq in Hlen. now rewrite Hlen. }
  rewrite E. simpl. auto.
Qed.

(** ** Status effects on one character *)

Lemma chars_take_damage_same w c (v : Z) :
  chars (take_damage c v w) c =
  if current_hp (chars w c) - v <=? 0
  then set_alive false (set_current_hp 0 (chars w c))
  else set_current_hp (current_hp (chars w c) - v) (chars w c).
Proof.
  unfold take_damage. destruct (_ <=? 0); cbn [chars set_char]; apply upd_same.
Qed.

Lemma process_single_poison w c e (n : string) (d v : Z) :
  effects w e = mkStatusEffect n d v "poison" ->
  status_effects (chars w c) = [e] ->
  let w' := snd (process_status_effects c w) in
  effects w' e = mkStatusEffect n (d - 1) v "poison"
  /\ chars w' c = set_status_effects (if d - 1 <=? 0 then [] else [e])
                    (chars (take_damage c v w) c).
Proof.
  intros He Hheld. unfold process_status_effects. rewrite Hheld.
  cbn [apply_status_effects]. unfold apply_effect. rewrite He.
  cbn [effect_type effect_value String.eqb Ascii.eqb Bool.eqb].
  cbn [snd].
  assert (Hs : status_effects (chars (take_damage c v w) c) = [e]).
  { unfold take_damage. destruct (_ <=? 0); cbn; rewrite upd_same; exact Hheld. }
  assert (Hd : effects (take_damage c v w) e = mkStatusEffect n d v "poison").
  { unfold take_damage. destruct (_ <=? 0); cbn; exact He. }
  split.
  - cbn. rewrite upd_same, Hd. reflexivity.
  - cbn [chars set_char tick set_effect]. rewrite upd_same, Hs.
    cbn. rewrite upd_same, Hd. unfold is_expired. cbn.
    destruct (d - 1 <=? 0); reflexivity.
Qed.

(** C9.  A character with 5 health that holds one poison effect of
    magnitude 2 and duration 3 has health 3, then 1, then 0 after three
    successive calls of [process_status_effects]; it is alive after the
    first two and dead after the third, and the effect, still held after the
    first two, is gone from its list after the third. *)
Theorem poison_three_ticks w c e (n : string) :
  effects w e = mkStatusEffect n 3 2 "poison" ->
  current_hp (chars w c) = 5 ->
  alive (chars w c) = true ->
  status_effects (chars w c) = [e] ->
  let w1 := snd (process_status_effects c w) in
  let w2 := snd (process_status_effects c w1) in
  let w3 := snd (process_status_effects c w2) in
  (current_hp (chars w1 c) = 3 /\ alive (chars w1 c) = true
   /\ status_effects (chars w1 c) = [e])
  /\ (current_hp (chars w2 c) = 1 /\ alive (chars w2 c) = true
      /\ status_effects (chars w2 c) = [e])
  /\ (current_hp (chars w3 c) = 0 /\ alive (chars w3 c) = false
      /\ status_effects (chars w3 c) = []).
Proof.
  intros He Hhp Halive Hheld w1 w2 w3.
  destruct (process_single_poison w c e n 3 2 He Hheld) as [He1 Hc1].
  fold w1 in He1, Hc1.
  assert (H1 : current_hp (chars w1 c) = 3 /\ alive (chars w1 c) = true
               /\ status_effects (chars w1 c) = [e]).
  { rewrite Hc1, chars_take_damage_same, Hhp. cbn. auto. }
  destruct H1 as (Hhp1 & Hal1 & Hh1).
  destruct (process_single_poison w1 c e n (3 - 1) 2 He1 Hh1) as [He2 Hc2].
  fold w2 in He2, Hc2.
  assert (H2 : current_hp (chars w2 c) = 1 /\ alive (chars w2 c) = true
               /\ status_effects (chars w2 c) = [e]).
  { rewrite Hc2, chars_take_damage_same, Hhp1. cbn. auto. }
  destruct H2 as (Hhp2 & Hal2 & Hh2).
  destruct (process_single_poison w2 c e n (3 - 1 - 1) 2 He2 Hh2) as [He3 Hc3].
  fold w3 in He3, Hc3.
  repeat split; auto.
  all: rewrite Hc3, chars_take_damage_same, Hhp2; reflexivity.
Qed.

(** ** Fields no operation of the engine writes *)

Definition static (x y : Character) : Prop :=
  name y = name x /\ max_hp y = max_hp x /\ speed y = speed x
  /\ position y = position x /\ abilities y = abilities x
  /\ ch_team_id y = ch_team_id x.

Definition same_static w w' : Prop := forall c, static (chars w c) (chars w' c).

Lemma same_static_refl w : same_static w w.
Proof. intros c. unfold static. repeat split; reflexivity. Qed.

Lemma same_static_trans w1 w2 w3 :
  same_static w1 w2 -> same_static w2 w3 -> same_static w1 w3.
Proof.
  intros H12 H23 c. specialize (H12 c). specialize (H23 c).
  unfold static in *.
  destruct H12 as (? & ? & ? & ? & ? & ?), H23 as (? & ? & ? & ? & ? & ?).
  repeat split; congruence.
Qed.

(** Solves [static (chars w c') (chars w' c')] when [w'] is [w] with at
    most one character replaced by a copy with other dynamic fields. *)
Ltac solve_static :=
  cbn [chars set_char set_effect set_ability set_random_state set_uuid_calls];
  try (unfold upd;
       match goal with
       | |- context [Nat.eqb ?x ?y] =>
           destruct (Nat.eqb_spec x y); [subst|]
       end);
  unfold static; cbn; repeat split; reflexivity.

Lemma take_damage_static c (v : Z) w : same_static w (take_damage c v w).
Proof. intros c'. unfold take_damage. destruct (_ <=? 0); solve_static. Qed.

Lemma heal_static c (v : Z) w : same_static w (heal c v w).
Proof. intros c'. unfold heal. destruct (0 <? _); solve_static. Qed.

Lemma add_status_effect_static c e w : same_static w (add_status_effect c e w).
Proof. intros c'. unfold add_status_effect. solve_static. Qed.

Lemma apply_effect_static e c w : same_static w (apply_effect e c w).
Proof.
  unfold apply_effect.
  destruct (_ =? "poison")%string; [apply take_damage_static|].
  destruct (_ =? "heal")%string; [apply heal_static|].
  destruct (_ =? "buff")%string; [intros c'; solve_static|].
  destruct (_ =? "debuff")%string; [intros c'; solve_static|].
  apply same_static_refl.
Qed.

Lemma tick_static e w : same_static w (tick e w).
Proof. intros c'. unfold tick. solve_static. Qed.

Lemma apply_status_effects_static c held : forall w,
  same_static w (snd (apply_status_effects c held w)).
Proof.
  induction held as [|e rest IH]; intros w; cbn [apply_status_effects].
  - apply same_static_refl.
  - specialize (IH (tick e (apply_effect e c w))).
    destruct (apply_status_effects c rest _) as [logs w3]. cbn [snd] in *.
    eapply same_static_trans; [apply apply_effect_static|].
    eapply same_static_trans; [apply tick_static|]. exact IH.
Qed.

Lemma process_status_effects_static c w :
  same_static w (snd (process_status_effects c w)).
Proof.
  unfold process_status_effects.
  pose proof (apply_status_effects_static c (status_effects (chars w c)) w) as H.
  destruct (apply_status_effects c _ w) as [logs w1]. cbn [snd] in *.
  eapply same_static_trans; [exact H|]. intros c'. solve_static.
Qed.

Lemma status_loop_static cs : forall w, same_static w (snd (status_loop cs w)).
Proof.
  induction cs as [|c rest IH]; intros w; cbn [status_loop].
  - apply same_static_refl.
  - pose proof (process_status_effects_static c w) as H.
    destruct (process_status_effects c w) as [l1 w1]. cbn [snd] in H.
    specialize (IH w1). destruct (status_loop rest w1) as [l2 w2]. cbn [snd] in *.
    eapply same_static_trans; eauto.
Qed.

Lemma tick_cooldown_chars a w : chars (tick_cooldown a w) = chars w.
Proof. unfold tick_cooldown. destruct (0 <? _); reflexivity. Qed.

Lemma tick_abilities_chars c w : chars (tick_abilities c w) = chars w.
Proof.
  unfold tick_abilities. generalize (abilities (chars w c)) as l. intros l.
  revert w. induction l as [|a l IH]; intros w; cbn [fold_left].
  - reflexivity.
  - rewrite IH. apply tick_cooldown_chars.
Qed.

Lemma tick_abilities_static c w : same_static w (tick_abilities c w).
Proof. intros c'. rewrite tick_abilities_chars. apply same_static_refl. Qed.

Lemma random_random_chars w : chars (snd (random_random w)) = chars w.
Proof. unfold random_random. destruct (random R _). reflexivity. Qed.

Lemma choice_chars {A : Type} (d : A) (l : list A) w : chars (snd (choice d l w)) = chars w.
Proof. unfold choice. destruct (randbelow R _ _). reflexivity. Qed.

Lemma _choose_target_chars f g w : chars (snd (_choose_target f g w)) = chars w.
Proof.
  unfold _choose_target. destruct (get_alive_characters _ w) as [|c cs]; [reflexivity|].
  pose proof (choice_chars c (c :: cs) w) as H.
  destruct (choice c (c :: cs) w). exact H.
Qed.

(** ** What one action does *)

(** Steps that draw a number or an identifier leave the objects alone. *)
Definition same_objects w w' : Prop :=
  effects w' = effects w /\ ability_objs w' = ability_objs w /\ chars w' = chars w.

Lemma same_objects_refl w : same_objects w w.
Proof. unfold same_objects. auto. Qed.

Lemma same_objects_trans w1 w2 w3 :
  same_objects w1 w2 -> same_objects w2 w3 -> same_objects w1 w3.
Proof. unfold same_objects. intuition congruence. Qed.

Lemma random_random_objects w : same_objects w (snd (random_random w)).
Proof. unfold random_random. destruct (random R _). unfold same_objects. auto. Qed.

Lemma choice_objects {A : Type} (d : A) (l : list A) w : same_objects w (snd (choice d l w)).
Proof. unfold choice. destruct (randbelow R _ _). unfold same_objects. auto. Qed.

Lemma _choose_target_objects f g w : same_objects w (snd (_choose_target f g w)).
Proof.
  unfold _choose_target. destruct (get_alive_characters _ w) as [|c cs].
  - apply same_objects_refl.
  - pose proof (choice_objects c (c :: cs) w) as H.
    destruct (choice c (c :: cs) w). exact H.
Qed.

Lemma MissEvent_init_objects f t w : same_objects w (snd (MissEvent_init uuid4 f t w)).
Proof. unfold same_objects. auto. Qed.

Lemma CriticalHitEvent_init_objects f t (x : Z) w :
  same_objects w (snd (CriticalHitEvent_init uuid4 f t x w)).
Proof. unfold same_objects. auto. Qed.

Lemma AbilityUsedEvent_init_objects f a t w :
  same_objects w (snd (AbilityUsedEvent_init uuid4 f a t w)).
Proof. unfold same_objects. auto. Qed.

Lemma take_damage_objects_chars t (v : Z) w w' :
  chars w' = chars w -> chars (take_damage t v w') = chars (take_damage t v w).
Proof.
  intros E. unfold take_damage. rewrite E.
  destruct (_ <=? 0); cbn [chars set_char]; now rewrite E.
Qed.

Lemma take_damage_effects t (v : Z) w : effects (take_damage t v w) = effects w.
Proof. unfold take_damage. destruct (_ <=? 0); auto. Qed.

Lemma take_damage_abilities t (v : Z) w :
  ability_objs (take_damage t v w) = ability_objs w.
Proof. unfold take_damage. destruct (_ <=? 0); auto. Qed.

Lemma choice_In {A : Type} (x : A) (l : list A) w : In (fst (choice x (x :: l) w)) (x :: l).
Proof.
  unfold choice.
  pose proof (randbelow_lt R (length (x :: l)) (random_state w)) as Hlt.
  destruct (randbelow R _ _) as [i r]. cbn [fst] in *.
  apply nth_In. apply Hlt. cbn. lia.
Qed.

(** ** The conversion to a float *)

Lemma round_half_even_nonneg (n : Z) : 0 <= n -> 0 <= round_half_even n.
Proof.
  intros Hn. unfold round_half_even.
  destruct (Z.log2 n + 1 - 53 <=? 0); [exact Hn|].
  apply Z.shiftl_nonneg.
  assert (0 <= Z.shiftr n (Z.log2 n + 1 - 53)) by (apply Z.shiftr_nonneg; exact Hn).
  destruct (_ || _); lia.
Qed.

Lemma int_times_half_nonneg (n x : Z) : 0 <= n -> int_times_half n = Ok x -> 0 <= x.
Proof.
  intros Hn. unfold int_times_half, float_of_int.
  destruct (_ <? double_limit); [|discriminate]. intros [= <-].
  pose proof (round_half_even_nonneg (Z.abs n) (Z.abs_nonneg n)) as Hm.
  apply Z.quot_pos; [|lia]. apply Z.mul_nonneg_nonneg; [|exact Hm].
  destruct n; cbn; lia.
Qed.

(** An integer that [float] converts. *)
Definition fits (n : Z) : Prop := float_of_int n <> None.

Lemma int_times_half_returns (n : Z) : fits n -> exists x, int_times_half n = Ok x.
Proof.
  unfold fits, int_times_half. destruct (float_of_int n) as [m|]; [eauto|contradiction].
Qed.

Lemma int_times_half_raises (n : Z) (e : exn) :
  int_times_half n = Raise e -> e = OverflowError /\ ~ fits n.
Proof.
  unfold fits, int_times_half. destruct (float_of_int n) as [m|]; [discriminate|].
  intros [= <-]. split; [reflexivity|]. intros H. now apply H.
Qed.

Definition crit_extra_of (f : ref) w (ev : Event) : Prop :=
  match ev with
  | CriticalHitEvent _ _ _ _ x => int_times_half (attack (chars w f)) = Ok x
  | _ => True
  end.

(** The summary of [_perform_action]: the engine only gains events; the
    store changes by at most one [use] of an ability of the fighter and at
    most one [take_damage]. *)
Record action_effect (f : ref) g w (d : ActionDetail) g1 (w1 : World R) : Prop := {
  ae_team_a : team_a g1 = team_a g;
  ae_team_b : team_b g1 = team_b g;
  ae_turn_log : turn_log g1 = turn_log g;
  ae_battle_over : battle_over g1 = battle_over g;
  ae_turn_count : turn_count g1 = turn_count g;
  ae_events : exists evs, event_log g1 = event_log g ++ evs
                          /\ Forall (crit_extra_of f w) evs;
  ae_actor : actor d = name (chars w f);
  ae_effects : effects w1 = effects w;
  ae_abilities :
    ability_objs w1 = ability_objs w
    \/ exists a, In a (abilities (chars w f))
         /\ ability_objs w1 = ability_objs (use a w);
  ae_chars :
    chars w1 = chars w
    \/ exists t v, (0 <= attack (chars w f) -> 1 <= v)
         /\ chars w1 = chars (take_damage t v w)
}.

(** Names the components of a pair-valued call and records that it kept
    the objects. *)
Ltac name_step call lem x w' :=
  let E := fresh "E" in
  let H := fresh "Hobj" in
  pose proof lem as H;
  destruct call as [x w'] eqn:E; cbn [snd] in H;
  destruct H as (? & ? & ?).

Lemma basic_attack_effect f g w d g1 w1 :
  basic_attack uuid4 f g w = Ok (d, g1, w1) -> action_effect f g w d g1 w1.
Proof.
  unfold basic_attack.
  name_step (_choose_target f g w) (_choose_target_objects f g w) target w2.
  destruct target as [t|].
  2:{ intros [= <- <- <-]. constructor; cbn; auto.
      exists []. rewrite app_nil_r. auto. }
  name_step (random_random w2) (random_random_objects w2) k w3.
  destruct (below_tenths 1 k).
  { cbn [MissEvent_init new_event_id]. intros [= <- <- <-].
    constructor; cbn [team_a team_b turn_log battle_over turn_count log_event
                      set_event_log event_log actor effects ability_objs chars
                      set_uuid_calls]; auto; try congruence.
    - eexists [_]. split; [reflexivity|]. repeat constructor.
    - left. congruence.
    - left. congruence. }
  name_step (random_random w3) (random_random_objects w3) k' w4.
  assert (Ec : chars w4 = chars w) by congruence.
  destruct (below_tenths 2 k').
  - destruct (int_times_half (attack (chars w4 f))) as [x|] eqn:Ex; [|discriminate].
    rewrite Ec in Ex.
    cbn [bind CriticalHitEvent_init new_event_id]. intros [= <- <- <-].
    constructor; cbn [team_a team_b turn_log battle_over turn_count log_event
                      set_event_log event_log actor]; auto.
    + eexists [_]. split; [reflexivity|]. repeat constructor. cbn. exact Ex.
    + rewrite take_damage_effects. cbn. congruence.
    + left. rewrite take_damage_abilities. cbn. congruence.
    + right. eexists t, _. split; [|apply take_damage_objects_chars; cbn; congruence].
      intros Hatk. cbn [chars set_uuid_calls].
      pose proof (int_times_half_nonneg _ _ Hatk Ex). lia.
  - cbn [bind]. intros [= <- <- <-].
    constructor; cbn [team_a team_b turn_log battle_over turn_count actor]; auto.
    + exists []. rewrite app_nil_r. auto.
    + rewrite take_damage_effects. congruence.
    + left. rewrite take_damage_abilities. congruence.
    + right. eexists t, _. split; [|apply take_damage_objects_chars; congruence].
      intros _. lia.
Qed.

Lemma use_effects a w : effects (use a w) = effects w.
Proof. reflexivity. Qed.

Lemma use_chars a w : chars (use a w) = chars w.
Proof. reflexivity. Qed.

Lemma use_objects_abilities a w w' :
  ability_objs w' = ability_objs w -> ability_objs (use a w') = ability_objs (use a w).
Proof. intros E. unfold use. cbn [ability_objs set_ability]. now rewrite E. Qed.

Lemma ability_action_effect f a0 rest g w0 w d g1 w1 :
  same_objects w0 w ->
  (forall a, In a (a0 :: rest) -> In a (abilities (chars w0 f))) ->
  ability_action uuid4 f a0 (a0 :: rest) g w = (d, g1, w1) ->
  action_effect f g w0 d g1 w1.
Proof.
  intros (He0 & Ha0 & Hc0) Hsub. unfold ability_action.
  pose proof (choice_In a0 rest w) as Hin.
  name_step (choice a0 (a0 :: rest) w) (choice_objects a0 (a0 :: rest) w) ability w2.
  cbn [fst] in Hin.
  name_step (_choose_target f g w2) (_choose_target_objects f g w2) target w3.
  destruct target as [t|].
  2:{ intros [= <- <- <-]. constructor; cbn; auto; try congruence.
      - exists []. rewrite app_nil_r. auto.
      - left. congruence.
      - left. congruence. }
  cbn [AbilityUsedEvent_init new_event_id]. intros [= <- <- <-].
  constructor; cbn [team_a team_b turn_log battle_over turn_count log_event
                    set_event_log event_log actor]; auto.
  - eexists [_]. split; [reflexivity|]. repeat constructor.
  - congruence.
  - rewrite take_damage_effects. cbn. congruence.
  - right. exists ability. split; [auto|].
    rewrite take_damage_abilities. cbn [ability_objs set_uuid_calls].
    apply use_objects_abilities. congruence.
  - right. eexists t, _. split; [intros _; apply Z.le_max_l|].
    apply take_damage_objects_chars. cbn. congruence.
Qed.

Lemma _perform_action_effect f g w d g1 w1 :
  _perform_action uuid4 f g w = Ok (d, g1, w1) -> action_effect f g w d g1 w1.
Proof.
  unfold _perform_action.
  destruct (filter _ (abilities (chars w f))) as [|a0 rest] eqn:Eav.
  - apply basic_attack_effect.
  - name_step (random_random w) (random_random_objects w) k w2.
    destruct (below_tenths 3 k).
    + intros [= Hact]. revert Hact.
      apply ability_action_effect; [unfold same_objects; auto|].
      intros a Ha. rewrite <- Eav in Ha. apply filter_In in Ha. tauto.
    + intros Hb. apply basic_attack_effect in Hb.
      destruct Hb as [? ? ? ? ? Hev ? ? Hab Hch].
      assert (Ec : chars w2 = chars w) by assumption.
      constructor; auto; try congruence.
      * destruct Hev as (evs & Hevs & Hall). exists evs. split; [exact Hevs|].
        eapply Forall_impl; [|exact Hall]. intros [] ; cbn; auto. now rewrite Ec.
      * destruct Hab as [Hab|(a & Ha & Hab)]; [left; congruence|].
        right. exists a. split; [now rewrite <- Ec|].
        rewrite Hab. apply use_objects_abilities. assumption.
      * destruct Hch as [Hch|(t & v & Hv & Hch)]; [left; congruence|].
        right. exists t, v. split; [now rewrite <- Ec|].
        rewrite Hch. apply take_damage_objects_chars. assumption.
Qed.

(** ** The action loop *)

Lemma tick_cooldown_effects a w : effects (tick_cooldown a w) = effects w.
Proof. unfold tick_cooldown. destruct (0 <? _); reflexivity. Qed.

Lemma tick_abilities_effects c w : effects (tick_abilities c w) = effects w.
Proof.
  unfold tick_abilities. generalize (abilities (chars w c)) as l. intros l.
  revert w. induction l as [|a l IH]; intros w; cbn [fold_left].
  - reflexivity.
  - rewrite IH. apply tick_cooldown_effects.
Qed.

(** The fighters that act are taken, in order, from the list the loop runs
    over. *)
Lemma action_loop_actors (P : ref -> ref -> Prop) fighters : forall g w acts g' w',
  action_loop uuid4 fighters g w = Ok (acts, g', w') ->
  incl (map fst acts) fighters
  /\ (StronglySorted P fighters -> StronglySorted P (map fst acts)).
Proof.
  induction fighters as [|f rest IH]; intros g w acts g' w'; cbn [action_loop].
  - intros [= <- <- <-]. split; [apply incl_refl|]. auto.
  - destruct (negb (alive (chars w f))).
    + intros H. apply IH in H. destruct H as [Hincl Hsort]. split.
      * now apply incl_tl.
      * intros Hs. apply StronglySorted_inv in Hs. tauto.
    + destruct (_perform_action uuid4 f g (tick_abilities f w)) as [[[d g1] w2]|];
        [|discriminate]. cbn [bind].
      destruct (is_defeated (team_a g1) w2 || is_defeated (team_b g1) w2).
      * intros [= <- <- <-]. cbn. split.
        -- intros x [<-|[]]. now left.
        -- intros _. repeat constructor.
      * destruct (action_loop uuid4 rest g1 w2) as [[[acts2 g2] w3]|] eqn:E;
          [|discriminate]. cbn [bind].
        intros [= <- <- <-]. apply IH in E. destruct E as [Hincl Hsort]. cbn. split.
        -- intros x [<-|Hx]; [now left|right; auto].
        -- intros Hs. apply StronglySorted_inv in Hs. destruct Hs as [Hs Hall].
           constructor; [auto|].
           rewrite Forall_forall in *. intros x Hx. apply Hall. now apply Hincl.
Qed.

(** An invariant of the ticks and of the actions is an invariant of the
    loop, and what holds of every action holds of every record. *)
Lemma action_loop_invariant (Inv : GameEngine -> World R -> Prop)
    (Pact : ref -> ActionDetail -> Prop) :
  (forall f g w, Inv g w -> Inv g (tick_abilities f w)) ->
  (forall f g w d g1 w1, Inv g w -> _perform_action uuid4 f g w = Ok (d, g1, w1) ->
     Inv g1 w1 /\ Pact f d) ->
  (forall g w, Inv g w ->
     is_defeated (team_a g) w || is_defeated (team_b g) w = true ->
     Inv (set_battle_over true g) w) ->
  forall fighters g w acts g' w',
    Inv g w -> action_loop uuid4 fighters g w = Ok (acts, g', w') ->
    Inv g' w' /\ Forall (fun p => Pact (fst p) (snd p)) acts.
Proof.
  intros Htick Hact Hover.
  induction fighters as [|f rest IH]; intros g w acts g' w' Hinv; cbn [action_loop].
  - intros [= <- <- <-]. auto.
  - destruct (negb (alive (chars w f))); [now apply IH|].
    destruct (_perform_action uuid4 f g (tick_abilities f w)) as [[[d g1] w2]|] eqn:Ea;
      [|discriminate]. cbn [bind].
    apply Hact in Ea; [|now apply Htick]. destruct Ea as [Hinv1 Hd].
    destruct (is_defeated (team_a g1) w2 || is_defeated (team_b g1) w2) eqn:Edef.
    + intros [= <- <- <-]. split; [now apply Hover|]. repeat constructor. exact Hd.
    + destruct (action_loop uuid4 rest g1 w2) as [[[acts2 g2] w3]|] eqn:E;
        [|discriminate]. cbn [bind].
      intros [= <- <- <-]. apply (IH _ _ _ _ _ Hinv1) in E. destruct E as [Hinv2 Hall].
      split; [exact Hinv2|]. constructor; [exact Hd|exact Hall].
Qed.

Lemma action_effect_static f g w d g1 w1 :
  action_effect f g w d g1 w1 -> same_static w w1.
Proof.
  intros [_ _ _ _ _ _ _ _ _ Hch]. destruct Hch as [Hch|(t & v & _ & Hch)].
  - intros c. rewrite Hch. apply same_static_refl.
  - intros c. rewrite Hch. apply take_damage_static.
Qed.

(** The loop keeps the teams, the log and the turn count, does not write
    the fields of [static], and every record names its fighter. *)
Definition loop_frame g w g1 (w1 : World R) : Prop :=
  team_a g1 = team_a g /\ team_b g1 = team_b g /\ turn_log g1 = turn_log g
  /\ turn_count g1 = turn_count g /\ same_static w w1 /\ effects w1 = effects w.

Lemma action_loop_frame fighters g w acts g' w' :
  action_loop uuid4 fighters g w = Ok (acts, g', w') ->
  loop_frame g w g' w'
  /\ Forall (fun p => actor (snd p) = name (chars w (fst p))) acts.
Proof.
  intros H.
  refine (action_loop_invariant (loop_frame g w)
            (fun f d => actor d = name (chars w f)) _ _ _ _ _ _ _ _ _ _ H).
  - intros f g0 w0 (? & ? & ? & ? & Hs & He). unfold loop_frame.
    rewrite tick_abilities_effects.
    refine (conj _ (conj _ (conj _ (conj _ (conj _ _))))); auto.
    eapply same_static_trans; [exact Hs|apply tick_abilities_static].
  - intros f g0 w0 d g1 w1 (? & ? & ? & ? & Hs & He) Ha.
    apply _perform_action_effect in Ha.
    pose proof (action_effect_static _ _ _ _ _ _ Ha) as Hs1.
    destruct Ha as [? ? ? ? ? _ Hactor Heff _ _].
    split; [refine (conj _ (conj _ (conj _ (conj _ (conj _ _))))); try congruence|].
    + eapply same_static_trans; eauto.
    + rewrite Hactor. exact (proj1 (Hs f)).
  - intros g0 w0 (? & ? & ? & ? & ? & ?) _. unfold loop_frame. cbn. tauto.
  - unfold loop_frame.
    refine (conj _ (conj _ (conj _ (conj _ (conj _ _))))); auto.
    apply same_static_refl.
Qed.

(** ** The event flush *)

Definition keeps_turn_header (td td' : TurnDetails) : Prop :=
  turn_number td' = turn_number td /\ actions td' = actions td
  /\ td_status_effects td' = td_status_effects td.

Lemma update_last_snoc (h : LogEntry -> LogEntry) (l : list LogEntry) (x : LogEntry) :
  update_last h (l ++ [x]) = Some (l ++ [h x]).
Proof.
  induction l as [|y l IH]; [reflexivity|].
  cbn [app update_last]. rewrite IH.
  destruct (l ++ [x]) eqn:E; [destruct l; discriminate|]. reflexivity.
Qed.

(** On a log that ends with a turn record the flush never raises; it
    rewrites that record only, and only its events. *)
Lemma flush_events_turn_record queue : forall l td w,
  exists td' w',
    flush_events queue (l ++ [TurnRecord td]) w = Ok (l ++ [TurnRecord td'], w')
    /\ keeps_turn_header td td'
    /\ w' = fold_left (fun w0 ev => process ev w0) queue w.
Proof.
  induction queue as [|ev rest IH]; intros l td w; cbn [flush_events fold_left].
  - exists td, w. unfold keeps_turn_header. auto.
  - rewrite update_last_snoc. cbn [record_event].
    destruct (IH l (mkTurnDetails (turn_number td) (actions td) (td_status_effects td)
                      (setdefault_append (Event_str ev) (td_events td)))
                 (process ev w)) as (td' & w' & Hflush & Hhead & Hw).
    exists td', w'. split; [exact Hflush|]. split; [|exact Hw].
    unfold keeps_turn_header in *. cbn in Hhead. exact Hhead.
Qed.

(** Events never revive anyone and write neither abilities nor the fields
    of [static]. *)
Definition flush_frame w w' : Prop :=
  same_static w w' /\ ability_objs w' = ability_objs w /\ effects w' = effects w
  /\ forall c, alive (chars w' c) = true -> alive (chars w c) = true.

Lemma take_damage_alive t (v : Z) w c :
  alive (chars (take_damage t v w) c) = true -> alive (chars w c) = true.
Proof.
  unfold take_damage. destruct (_ <=? 0); cbn [chars set_char]; unfold upd;
    destruct (Nat.eqb_spec c t); subst; cbn; auto. discriminate.
Qed.

Lemma process_frame ev w : flush_frame w (process ev w).
Proof.
  unfold flush_frame.
  destruct ev as [i s atk t x|i s atk t|i s u a [t|]]; cbn [process].
  - split; [apply take_damage_static|]. split; [apply take_damage_abilities|].
    split; [apply take_damage_effects|]. intros c. apply take_damage_alive.
  - split; [apply same_static_refl|]. auto.
  - destruct (effect (ability_objs w a)) as [e|].
    + split; [apply add_status_effect_static|]. split; [reflexivity|].
      split; [reflexivity|]. intros c. unfold add_status_effect.
      cbn [chars set_char]. unfold upd. destruct (Nat.eqb_spec c t); subst; cbn; auto.
    + split; [apply same_static_refl|]. auto.
  - destruct (effect (ability_objs w a)); (split; [apply same_static_refl|]); auto.
Qed.

Lemma flush_frame_trans w1 w2 w3 :
  flush_frame w1 w2 -> flush_frame w2 w3 -> flush_frame w1 w3.
Proof.
  intros (Hs & Ha & He & Hl) (Hs' & Ha' & He' & Hl'). unfold flush_frame.
  split; [eapply same_static_trans; eauto|]. repeat split; try congruence. auto.
Qed.

Lemma process_all_frame queue : forall w,
  flush_frame w (fold_left (fun w0 ev => process ev w0) queue w).
Proof.
  induction queue as [|ev rest IH]; intros w; cbn [fold_left].
  - unfold flush_frame. split; [apply same_static_refl|]. auto.
  - eapply flush_frame_trans; [apply process_frame|apply IH].
Qed.

Lemma is_defeated_mono (t : Team) w w' :
  (forall c, alive (chars w' c) = true -> alive (chars w c) = true) ->
  is_defeated t w = true -> is_defeated t w' = true.
Proof.
  intros Hmono. unfold is_defeated. rewrite !forallb_forall. intros H c Hc.
  specialize (H c Hc). destruct (alive (chars w' c)) eqn:E; [|reflexivity].
  apply Hmono in E. rewrite E in H. exact H.
Qed.

(** ** One turn *)

Lemma action_effect_alive f g w d g1 w1 :
  action_effect f g w d g1 w1 ->
  forall c, alive (chars w1 c) = true -> alive (chars w c) = true.
Proof.
  intros [_ _ _ _ _ _ _ _ _ Hch] c. destruct Hch as [Hch|(t & v & _ & Hch)]; rewrite Hch.
  - auto.
  - apply take_damage_alive.
Qed.

Lemma defeated_either_mono g w w' :
  (forall c, alive (chars w' c) = true -> alive (chars w c) = true) ->
  is_defeated (team_a g) w || is_defeated (team_b g) w = true ->
  is_defeated (team_a g) w' || is_defeated (team_b g) w' = true.
Proof.
  intros Hmono H. apply orb_true_iff in H. apply orb_true_iff.
  destruct H as [H|H]; [left|right]; eapply is_defeated_mono; eauto.
Qed.

(** The loop sets [battle_over] only when a team is defeated. *)
Lemma action_loop_battle_over fighters g w acts g' w' :
  action_loop uuid4 fighters g w = Ok (acts, g', w') ->
  battle_over g' = battle_over g
  \/ is_defeated (team_a g) w' || is_defeated (team_b g) w' = true.
Proof.
  intros H.
  refine (proj2 (proj2 (proj1 (action_loop_invariant
    (fun g1 w1 => team_a g1 = team_a g /\ team_b g1 = team_b g
                  /\ (battle_over g1 = battle_over g
                      \/ is_defeated (team_a g) w1 || is_defeated (team_b g) w1 = true))
    (fun _ _ => True) _ _ _ _ _ _ _ _ _ _ H)))).
  - intros f g0 w0 (Ha & Hb & Hover). split; [exact Ha|]. split; [exact Hb|].
    unfold is_defeated. rewrite tick_abilities_chars. exact Hover.
  - intros f g0 w0 d g1 w1 (Ha & Hb & Hover) Hact.
    apply _perform_action_effect in Hact.
    pose proof (action_effect_alive _ _ _ _ _ _ Hact) as Hmono.
    destruct Hact as [Ha1 Hb1 _ Hbo _ _ _ _ _ _].
    split; [|exact I]. split; [congruence|]. split; [congruence|].
    destruct Hover as [Hover|Hover]; [left; congruence|right].
    eapply defeated_either_mono; eauto.
  - intros g0 w0 (Ha & Hb & Hover) Hdef. cbn. split; [exact Ha|]. split; [exact Hb|].
    right. now rewrite <- Ha, <- Hb.
  - auto.
Qed.

Definition status_world g w : World R := snd (_process_status_effects g w).

Definition status_key g w : option (list string) :=
  match fst (_process_status_effects g w) with
  | [] => None
  | l => Some l
  end.

(** The fighters of a turn in the order in which the action loop visits
    them, and the loop run on them. *)
Definition fighters_of_turn g w : list ref :=
  sort_fighters (status_world g w) (_get_all_alive_characters g (status_world g w)).

Definition action_phase g w : result (list (ref * ActionDetail) * GameEngine * World R) :=
  action_loop uuid4 (fighters_of_turn g w) (set_turn_count (turn_count g + 1) g)
    (status_world g w).

(** The actions of the turn, each with the fighter that made it (none when
    the loop raises). *)
Definition turn_actions g w : list (ref * ActionDetail) :=
  match action_phase g w with
  | Ok (acts, _, _) => acts
  | Raise _ => []
  end.

(** The fighters that act in the turn, in the order of their records. *)
Definition turn_actors g w : list ref := map fst (turn_actions g w).

Lemma turn_no_fighter g w :
  _get_all_alive_characters g (status_world g w) = [] ->
  turn uuid4 g w
  = Ok (set_battle_over true (set_turn_count (turn_count g + 1) g), status_world g w).
Proof.
  intros H. unfold turn, status_world in *.
  change (_process_status_effects (set_turn_count (turn_count g + 1) g) w)
    with (_process_status_effects g w).
  destruct (_process_status_effects g w) as [logs w1]. cbn [snd] in H.
  change (_get_all_alive_characters (set_turn_count (turn_count g + 1) g) w1)
    with (_get_all_alive_characters g w1).
  now rewrite H.
Qed.

Lemma turn_with_fighters g w :
  _get_all_alive_characters g (status_world g w) <> [] ->
  turn uuid4 g w
  = do (acts, g2, w2) <- action_phase g w ;
    _process_events
      (set_turn_log
         (turn_log g2 ++ [TurnRecord (mkTurnDetails (turn_count g + 1) (map snd acts)
                                        (status_key g w) None)]) g2) w2.
Proof.
  intros H. unfold turn, action_phase, fighters_of_turn, status_key, status_world in *.
  change (_process_status_effects (set_turn_count (turn_count g + 1) g) w)
    with (_process_status_effects g w).
  destruct (_process_status_effects g w) as [logs w1]. cbn [snd fst] in *.
  change (_get_all_alive_characters (set_turn_count (turn_count g + 1) g) w1)
    with (_get_all_alive_characters g w1).
  destruct (_get_all_alive_characters g w1) as [|f fs]; [contradiction|].
  destruct (action_loop uuid4 _ _ w1) as [[[acts g2] w2]|]; [|reflexivity].
  cbn [bind turn_count set_turn_count]. destruct logs; reflexivity.
Qed.

Lemma no_fighter_both_defeated g w :
  _get_all_alive_characters g w = [] ->
  is_defeated (team_a g) w = true /\ is_defeated (team_b g) w = true.
Proof.
  unfold _get_all_alive_characters, get_alive_characters, is_defeated.
  intros H. apply app_eq_nil in H. destruct H as [Ha Hb].
  split; apply forallb_forall; intros c Hc.
  - destruct (alive (chars w c)) eqn:E; [|reflexivity].
    assert (Hin : In c (filter (fun c0 => alive (chars w c0)) (characters (team_a g))))
      by (apply filter_In; auto).
    rewrite Ha in Hin. destruct Hin.
  - destruct (alive (chars w c)) eqn:E; [|reflexivity].
    assert (Hin : In c (filter (fun c0 => alive (chars w c0)) (characters (team_b g))))
      by (apply filter_In; auto).
    rewrite Hb in Hin. destruct Hin.
Qed.

(** What a turn does to the engine. *)
Record turn_effect g w g' (w' : World R) : Prop := {
  te_team_a : team_a g' = team_a g;
  te_team_b : team_b g' = team_b g;
  te_turn_count : turn_count g' = turn_count g + 1;
  te_log :
    match _get_all_alive_characters g (status_world g w) with
    | [] => turn_log g' = turn_log g
    | _ :: _ =>
        exists td, turn_log g' = turn_log g ++ [TurnRecord td]
          /\ keeps_turn_header
               (mkTurnDetails (turn_count g + 1) (map snd (turn_actions g w))
                  (status_key g w) None) td
    end;
  te_over :
    battle_over g' = true ->
    battle_over g = true
    \/ is_defeated (team_a g') w' || is_defeated (team_b g') w' = true
}.

(** The engine a turn returns. *)
Lemma turn_effect_of g w g' w' : turn uuid4 g w = Ok (g', w') -> turn_effect g w g' w'.
Proof.
  destruct (_get_all_alive_characters g (status_world g w)) as [|f0 fs] eqn:Efs.
  - rewrite (turn_no_fighter g w Efs). intros [= <- <-].
    constructor; cbn [team_a team_b turn_count turn_log set_battle_over set_turn_count];
      auto.
    + now rewrite Efs.
    + intros _. right. apply no_fighter_both_defeated in Efs. destruct Efs as [-> _].
      reflexivity.
  - rewrite turn_with_fighters by (rewrite Efs; discriminate).
    destruct (action_phase g w) as [[[acts g2] w2]|] eqn:Ephase; [|discriminate].
    cbn [bind].
    pose proof Ephase as Hloop. unfold action_phase in Hloop.
    pose proof (action_loop_battle_over _ _ _ _ _ _ Hloop) as Hover.
    apply action_loop_frame in Hloop. destruct Hloop as [(Ha & Hb & Hlog & Hcnt & _) _].
    cbn [team_a team_b turn_log turn_count set_turn_count battle_over] in *.
    unfold _process_events. cbn [event_log turn_log set_turn_log]. rewrite Hlog.
    destruct (flush_events_turn_record (event_log g2) (turn_log g)
                (mkTurnDetails (turn_count g + 1) (map snd acts) (status_key g w) None) w2)
      as (td' & w3 & Hflush & Hhead & Hw).
    rewrite Hflush. cbn [bind]. intros [= <- <-].
    constructor; cbn [team_a team_b turn_count turn_log battle_over set_turn_log
                      set_event_log]; auto.
    + rewrite Efs. exists td'. unfold turn_actions. rewrite Ephase. auto.
    + intros Hbo. destruct Hover as [Hover|Hover]; [left; congruence|right].
      rewrite Ha, Hb. eapply defeated_either_mono; [|exact Hover].
      rewrite Hw. apply (process_all_frame (event_log g2) w2).
Qed.

(** ** Attacks and the kinds of the effects

    The attack of a character changes through the buffs it holds only, and
    the kind of an effect never. *)

Definition same_attacks w w' : Prop :=
  (forall c, attack (chars w' c) = attack (chars w c))
  /\ (forall e, effect_type (effects w' e) = effect_type (effects w e)).

Lemma same_attacks_refl w : same_attacks w w.
Proof. split; reflexivity. Qed.

Lemma same_attacks_trans w1 w2 w3 :
  same_attacks w1 w2 -> same_attacks w2 w3 -> same_attacks w1 w3.
Proof.
  intros [Ha He] [Ha' He']. split; [intros c|intros e]; congruence.
Qed.

Lemma same_attacks_ext w w' :
  chars w' = chars w -> effects w' = effects w -> same_attacks w w'.
Proof. intros Hc He. split; [intros c|intros e]; congruence. Qed.

(** Solves [same_attacks] when one character was replaced by a copy with
    the same attack. *)
Ltac solve_attacks c :=
  split; [|reflexivity];
  let c' := fresh "c" in
  intros c'; cbn [chars set_char]; unfold upd;
  destruct (Nat.eqb_spec c' c); [subst c'|]; reflexivity.

Lemma take_damage_attacks c (v : Z) w : same_attacks w (take_damage c v w).
Proof. unfold take_damage. destruct (_ <=? 0); solve_attacks c. Qed.

Lemma heal_attacks c (v : Z) w : same_attacks w (heal c v w).
Proof. unfold heal. destruct (0 <? _); solve_attacks c. Qed.

Lemma add_status_effect_attacks c e w : same_attacks w (add_status_effect c e w).
Proof. unfold add_status_effect. solve_attacks c. Qed.

Lemma tick_attacks e w : same_attacks w (tick e w).
Proof.
  split; [reflexivity|]. intros e'. unfold tick. cbn [effects set_effect]. unfold upd.
  destruct (Nat.eqb_spec e' e); [subst e'|]; reflexivity.
Qed.

Definition no_buff w : Prop := forall e, effect_type (effects w e) <> "buff".

Lemma no_buff_frame w w' : same_attacks w w' -> no_buff w -> no_buff w'.
Proof. intros [_ He] H e. rewrite He. apply H. Qed.

Lemma apply_effect_attacks e c w : no_buff w -> same_attacks w (apply_effect e c w).
Proof.
  intros Hnb. unfold apply_effect.
  destruct (_ =? "poison")%string; [apply take_damage_attacks|].
  destruct (_ =? "heal")%string; [apply heal_attacks|].
  destruct (effect_type (effects w e) =? "buff")%string eqn:Eb.
  { apply String.eqb_eq in Eb. now apply Hnb in Eb. }
  destruct (_ =? "debuff")%string; [solve_attacks c|apply same_attacks_refl].
Qed.

Lemma apply_status_effects_attacks c held : forall w,
  no_buff w -> same_attacks w (snd (apply_status_effects c held w)).
Proof.
  induction held as [|e rest IH]; intros w Hnb; cbn [apply_status_effects].
  - apply same_attacks_refl.
  - assert (H1 : same_attacks w (tick e (apply_effect e c w))).
    { eapply same_attacks_trans; [now apply apply_effect_attacks|apply tick_attacks]. }
    specialize (IH (tick e (apply_effect e c w)) (no_buff_frame _ _ H1 Hnb)).
    destruct (apply_status_effects c rest _) as [logs w3]. cbn [snd] in *.
    eapply same_attacks_trans; eauto.
Qed.

Lemma process_status_effects_attacks c w :
  no_buff w -> same_attacks w (snd (process_status_effects c w)).
Proof.
  intros Hnb. unfold process_status_effects.
  pose proof (apply_status_effects_attacks c (status_effects (chars w c)) w Hnb) as H.
  destruct (apply_status_effects c _ w) as [logs w1]. cbn [snd] in *.
  eapply same_attacks_trans; [exact H|]. solve_attacks c.
Qed.

Lemma status_loop_attacks cs : forall w,
  no_buff w -> same_attacks w (snd (status_loop cs w)).
Proof.
  induction cs as [|c rest IH]; intros w Hnb; cbn [status_loop].
  - apply same_attacks_refl.
  - pose proof (process_status_effects_attacks c w Hnb) as H.
    destruct (process_status_effects c w) as [l1 w1]. cbn [snd] in H.
    specialize (IH w1 (no_buff_frame _ _ H Hnb)).
    destruct (status_loop rest w1) as [l2 w2]. cbn [snd] in *.
    eapply same_attacks_trans; eauto.
Qed.

Lemma tick_abilities_attacks c w : same_attacks w (tick_abilities c w).
Proof.
  apply same_attacks_ext; [apply tick_abilities_chars|apply tick_abilities_effects].
Qed.

Lemma action_effect_attacks f g w d g1 w1 :
  action_effect f g w d g1 w1 -> same_attacks w w1.
Proof.
  intros [_ _ _ _ _ _ _ Heff _ Hch]. destruct Hch as [Hch|(t & v & _ & Hch)].
  - now apply same_attacks_ext.
  - split; [|intros e; now rewrite Heff].
    intros c. rewrite Hch. apply take_damage_attacks.
Qed.

Lemma process_attacks ev w : same_attacks w (process ev w).
Proof.
  destruct ev as [i s atk t x|i s atk t|i s u a [t|]]; cbn [process].
  - apply take_damage_attacks.
  - apply same_attacks_refl.
  - destruct (effect (ability_objs w a)) as [e|];
      [apply add_status_effect_attacks|apply same_attacks_refl].
  - destruct (effect (ability_objs w a)); apply same_attacks_refl.
Qed.

Lemma process_all_attacks queue : forall w,
  same_attacks w (fold_left (fun w0 ev => process ev w0) queue w).
Proof.
  induction queue as [|ev rest IH]; intros w; cbn [fold_left].
  - apply same_attacks_refl.
  - eapply same_attacks_trans; [apply process_attacks|apply IH].
Qed.

Lemma action_loop_attacks fighters g w acts g' w' :
  action_loop uuid4 fighters g w = Ok (acts, g', w') -> same_attacks w w'.
Proof.
  intros H.
  refine (proj1 (action_loop_invariant (fun _ w1 => same_attacks w w1)
                   (fun _ _ => True) _ _ _ _ _ _ _ _ _ _ H)).
  - intros f g0 w0 H0. eapply same_attacks_trans; [exact H0|apply tick_abilities_attacks].
  - intros f g0 w0 d g1 w1 H0 Hact. split; [|exact I].
    apply _perform_action_effect in Hact.
    eapply same_attacks_trans; [exact H0|]. eapply action_effect_attacks; eauto.
  - auto.
  - apply same_attacks_refl.
Qed.

(** ** When an action raises *)

Definition attacks_fit w : Prop := forall c, fits (attack (chars w c)).

(** No effect is a buff and every attack can be converted to a float: the
    attacks then stay as they are, and no action raises. *)
Definition attacks_safe w : Prop := no_buff w /\ attacks_fit w.

Lemma attacks_fit_frame w w' : same_attacks w w' -> attacks_fit w -> attacks_fit w'.
Proof. intros [Ha _] H c. rewrite Ha. apply H. Qed.

Lemma attacks_safe_frame w w' : same_attacks w w' -> attacks_safe w -> attacks_safe w'.
Proof.
  intros Hs [Hnb Hfit]. split; [eapply no_buff_frame|eapply attacks_fit_frame]; eauto.
Qed.

Lemma basic_attack_raises f g w (e : exn) :
  basic_attack uuid4 f g w = Raise e ->
  e = OverflowError /\ ~ fits (attack (chars w f)).
Proof.
  unfold basic_attack.
  name_step (_choose_target f g w) (_choose_target_objects f g w) target w2.
  destruct target as [t|]; [|discriminate].
  name_step (random_random w2) (random_random_objects w2) k w3.
  destruct (below_tenths 1 k); [discriminate|].
  name_step (random_random w3) (random_random_objects w3) k' w4.
  assert (Ec : chars w4 = chars w) by congruence.
  destruct (below_tenths 2 k'); [|discriminate].
  destruct (int_times_half (attack (chars w4 f))) as [x|e'] eqn:Ex; [discriminate|].
  cbn [bind]. intros [= <-]. rewrite Ec in Ex. now apply int_times_half_raises.
Qed.

Lemma _perform_action_raises f g w (e : exn) :
  _perform_action uuid4 f g w = Raise e ->
  e = OverflowError /\ ~ fits (attack (chars w f)).
Proof.
  unfold _perform_action.
  destruct (filter _ (abilities (chars w f))) as [|a0 rest].
  - apply basic_attack_raises.
  - name_step (random_random w) (random_random_objects w) k w2.
    destruct (below_tenths 3 k); [discriminate|].
    intros Hb. apply basic_attack_raises in Hb.
    assert (Ec : chars w2 = chars w) by assumption. now rewrite Ec in Hb.
Qed.

Lemma action_loop_raises fighters : forall g w (e : exn),
  action_loop uuid4 fighters g w = Raise e -> e = OverflowError /\ ~ attacks_fit w.
Proof.
  induction fighters as [|f rest IH]; intros g w e; cbn [action_loop]; [discriminate|].
  destruct (negb (alive (chars w f))); [apply IH|].
  destruct (_perform_action uuid4 f g (tick_abilities f w)) as [[[d g1] w2]|e'] eqn:Ea.
  - cbn [bind].
    destruct (is_defeated (team_a g1) w2 || is_defeated (team_b g1) w2); [discriminate|].
    destruct (action_loop uuid4 rest g1 w2) as [[[acts2 g2] w3]|e'] eqn:E; [discriminate|].
    cbn [bind]. intros [= <-]. apply IH in E. destruct E as [He Hnot].
    split; [exact He|]. intros Hfit. apply Hnot.
    apply _perform_action_effect, action_effect_attacks in Ea.
    eapply attacks_fit_frame; [exact Ea|].
    eapply attacks_fit_frame; [apply tick_abilities_attacks|exact Hfit].
  - cbn [bind]. intros [= <-]. apply _perform_action_raises in Ea.
    destruct Ea as [He Hnot]. split; [exact He|]. intros Hfit. apply Hnot.
    rewrite tick_abilities_chars. apply Hfit.
Qed.

(** A turn raises nothing but the OverflowError of an action. *)
Lemma turn_raises g w (e : exn) :
  turn uuid4 g w = Raise e -> e = OverflowError /\ ~ attacks_safe w.
Proof.
  destruct (_get_all_alive_characters g (status_world g w)) as [|f0 fs] eqn:Efs.
  - rewrite (turn_no_fighter g w Efs). discriminate.
  - rewrite turn_with_fighters by (rewrite Efs; discriminate).
    destruct (action_phase g w) as [[[acts g2] w2]|e'] eqn:Ephase; cbn [bind].
    + unfold _process_events. cbn [event_log turn_log set_turn_log].
      destruct (flush_events_turn_record (event_log g2) (turn_log g2)
                  (mkTurnDetails (turn_count g + 1) (map snd acts) (status_key g w) None) w2)
        as (td' & w3 & Hflush & _). rewrite Hflush. discriminate.
    + intros [= <-]. unfold action_phase in Ephase. apply action_loop_raises in Ephase.
      destruct Ephase as [He Hnot]. split; [exact He|]. intros [Hnb Hfit]. apply Hnot.
      eapply attacks_fit_frame; [|exact Hfit]. now apply status_loop_attacks.
Qed.

(** Without buffs a turn leaves the attacks and the kinds of the effects. *)
Lemma turn_attacks g w g' w' :
  turn uuid4 g w = Ok (g', w') -> no_buff w -> same_attacks w w'.
Proof.
  intros Hturn Hnb.
  assert (Hst : same_attacks w (status_world g w)) by (now apply status_loop_attacks).
  destruct (_get_all_alive_characters g (status_world g w)) as [|f0 fs] eqn:Efs.
  - rewrite (turn_no_fighter g w Efs) in Hturn. injection Hturn as _ <-. exact Hst.
  - rewrite turn_with_fighters in Hturn by (rewrite Efs; discriminate).
    destruct (action_phase g w) as [[[acts g2] w2]|] eqn:Ephase; [|discriminate].
    cbn [bind] in Hturn. unfold action_phase in Ephase.
    apply action_loop_attacks in Ephase.
    unfold _process_events in Hturn. cbn [event_log turn_log set_turn_log] in Hturn.
    destruct (flush_events_turn_record (event_log g2) (turn_log g2)
                (mkTurnDetails (turn_count g + 1) (map snd acts) (status_key g w) None) w2)
      as (td' & w3 & Hflush & _ & Hw).
    rewrite Hflush in Hturn. cbn [bind] in Hturn. injection Hturn as _ <-.
    eapply same_attacks_trans; [exact Hst|].
    eapply same_attacks_trans; [exact Ephase|]. rewrite Hw. apply process_all_attacks.
Qed.

(** ** The battle loop *)

Definition is_turn_record (e : LogEntry) : Prop := exists td, e = TurnRecord td.

(** What the [while] loop of [run_battle] does to the engine. *)
Record loop_effect g g' (w' : World R) (turns : list LogEntry) : Prop := {
  le_team_a : team_a g' = team_a g;
  le_team_b : team_b g' = team_b g;
  le_log : turn_log g' = turn_log g ++ turns;
  le_turn_records : Forall is_turn_record turns;
  le_length : Z.of_nat (length turns) <= turn_count g' - turn_count g;
  le_cap : turn_count g <= max_turns -> turn_count g' <= max_turns;
  le_running : battle_over g' = false -> max_turns <= turn_count g';
  le_over :
    battle_over g' = true ->
    battle_over g = true
    \/ is_defeated (team_a g') w' || is_defeated (team_b g') w' = true
}.

(** The engine the loop returns. *)
Lemma battle_loop_effect fuel : forall g w g' w',
  battle_loop uuid4 fuel g w = Ok (g', w') -> exists turns, loop_effect g g' w' turns.
Proof.
  assert (Hstop : forall g w g' w',
             negb (battle_over g) && (turn_count g <? max_turns) = false ->
             Ok (g, w) = Ok (g', w') -> exists turns, loop_effect g g' w' turns).
  { intros g w g' w' Hcond [= <- <-]. exists [].
    constructor; auto; try (now rewrite app_nil_r); try (cbn [length]; lia).
    - intros Hbo. rewrite Hbo in Hcond. cbn in Hcond. now apply Z.ltb_ge in Hcond. }
  induction fuel as [|fuel IH]; intros g w g' w'; cbn [battle_loop];
    destruct (negb (battle_over g) && (turn_count g <? max_turns)) eqn:Hcond;
    try discriminate; try (now apply Hstop).
  apply andb_true_iff in Hcond. destruct Hcond as [Hrun Hlt].
  apply negb_true_iff in Hrun. apply Z.ltb_lt in Hlt.
  destruct (turn uuid4 g w) as [[g1 w1]|] eqn:Hturn; [|discriminate]. cbn [bind].
  intros Hloop. apply turn_effect_of in Hturn.
  destruct Hturn as [Ha Hb Hcnt Hlog Hover].
  destruct (IH g1 w1 g' w' Hloop) as (turns & Hle).
  destruct Hle as [Ha' Hb' Hlog' Hrec Hlen Hcap Hrunning Hover'].
  assert (Hturns : exists first, turn_log g1 = turn_log g ++ first
                                 /\ Forall is_turn_record first
                                 /\ Z.of_nat (length first) <= 1).
  { destruct (_get_all_alive_characters g (status_world g w)).
    - exists []. rewrite app_nil_r. repeat split; auto. cbn. lia.
    - destruct Hlog as (td & Hlog & _). exists [TurnRecord td].
      repeat split; auto; [|cbn; lia]. repeat constructor. now exists td. }
  destruct Hturns as (first & Hfirst & Hfrec & Hflen).
  exists (first ++ turns).
  constructor; try congruence.
  - rewrite Hlog', Hfirst. now rewrite app_assoc.
  - apply Forall_app. auto.
  - rewrite length_app, Nat2Z.inj_add. lia.
  - intros _. apply Hcap. lia.
  - exact Hrunning.
  - intros Hbo. right. destruct (Hover' Hbo) as [Hbo1|Hdef]; [|exact Hdef].
    destruct (Hover Hbo1) as [Hbo0|Hdef]; [congruence|].
    (* a team defeated after a turn stays so: the loop stops there *)
    revert Hloop. destruct fuel as [|fuel']; cbn [battle_loop];
      rewrite Hbo1; cbn [negb andb]; intros [= <- <-]; exact Hdef.
Qed.

(** With [max_turns - turn_count] iterations allowed the loop runs to its
    end, unless an action raises OverflowError, which needs a buff or an
    attack that does not fit a float. *)
Lemma battle_loop_raises fuel : forall g w (e : exn),
  max_turns - turn_count g <= Z.of_nat fuel ->
  battle_loop uuid4 fuel g w = Raise e -> e = OverflowError /\ ~ attacks_safe w.
Proof.
  induction fuel as [|fuel IH]; intros g w e Hfuel; cbn [battle_loop].
  - assert (Hcond : (turn_count g <? max_turns) = false) by (apply Z.ltb_ge; lia).
    rewrite Hcond, andb_false_r. discriminate.
  - destruct (negb (battle_over g) && (turn_count g <? max_turns)); [|discriminate].
    destruct (turn uuid4 g w) as [[g1 w1]|e'] eqn:Hturn; cbn [bind].
    + intros Hloop. pose proof (turn_effect_of _ _ _ _ Hturn) as [_ _ Hcnt _ _].
      apply IH in Hloop; [|lia]. destruct Hloop as [He Hnot].
      split; [exact He|]. intros Hs. apply Hnot.
      eapply attacks_safe_frame; [|exact Hs].
      eapply turn_attacks; [exact Hturn|exact (proj1 Hs)].
    + intros [= <-]. now apply turn_raises in Hturn.
Qed.

Lemma battle_loop_returns fuel g w :
  max_turns - turn_count g <= Z.of_nat fuel -> attacks_safe w ->
  exists g' w', battle_loop uuid4 fuel g w = Ok (g', w').
Proof.
  intros Hfuel Hs.
  destruct (battle_loop uuid4 fuel g w) as [[g' w']|e] eqn:E; [eauto|].
  apply battle_loop_raises in E; [|exact Hfuel]. destruct E as [_ Hnot]. contradiction.
Qed.

Lemma _log_battle_result_frame g w :
  let g' := _log_battle_result g w in
  team_a g' = team_a g /\ team_b g' = team_b g /\ turn_count g' = turn_count g
  /\ battle_over g' = battle_over g.
Proof. cbn. auto. Qed.

(** ** The whole run *)

Lemma attacks_safe_init (ta tb : Team) (random_seed : option Z) w :
  attacks_safe (snd (GameEngine_init ta tb random_seed w)) <-> attacks_safe w.
Proof. destruct random_seed; reflexivity. Qed.

(** The outcome of the run of a new engine: the loop it is made of, or the
    OverflowError of an action. *)
Lemma run_battle_outcome (ta tb : Team) (random_seed : option Z) w :
  let start := GameEngine_init ta tb random_seed w in
  match run_battle uuid4 (fst start) (snd start) with
  | Ok (g', w') =>
      exists g1, battle_loop uuid4 (Z.to_nat (max_turns - 0)) (fst start) (snd start)
                 = Ok (g1, w')
                 /\ g' = _log_battle_result g1 w'
  | Raise e => e = OverflowError /\ ~ attacks_safe w
  end.
Proof.
  cbv zeta. unfold run_battle. cbn [GameEngine_init fst turn_count].
  destruct (battle_loop uuid4 _ _ _) as [[g1 w1]|e] eqn:Hloop; cbn [bind].
  - exists g1. split; reflexivity.
  - apply battle_loop_raises in Hloop; [|cbn [turn_count]; unfold max_turns; cbn; lia].
    destruct Hloop as [He Hnot]. split; [exact He|].
    intros Hs. apply Hnot. now apply attacks_safe_init.
Qed.

(** C8 (as amended).  A run of a new engine ends: it needs no more than
    the hundred iterations it is given, and it raises nothing but the
    OverflowError of [int(fighter.attack * 0.5)], which takes a buff or an
    attack that [float] does not convert.  From a store with no buff and
    attacks that fit it returns.  The log of a run that returns is a list of
    at most 100 turn records followed by exactly one result record. *)
Theorem run_battle_terminates (ta tb : Team) (random_seed : option Z) w :
  let start := GameEngine_init ta tb random_seed w in
  (attacks_safe w ->
   exists g' w', run_battle uuid4 (fst start) (snd start) = Ok (g', w'))
  /\ match run_battle uuid4 (fst start) (snd start) with
     | Ok (g', w') =>
         exists turns text n,
           get_confrontation_log g' = turns ++ [ResultRecord text n None]
           /\ Forall is_turn_record turns
           /\ (length turns <= 100)%nat
     | Raise e => e = OverflowError /\ ~ attacks_safe w
     end.
Proof.
  cbv zeta. pose proof (run_battle_outcome ta tb random_seed w) as Hrun. cbv zeta in Hrun.
  destruct (run_battle uuid4 _ _) as [[g' w']|e].
  - split; [eauto|]. destruct Hrun as (g1 & Hloop & ->).
    apply battle_loop_effect in Hloop. destruct Hloop as (turns & Heff).
    destruct Heff as [_ _ Hlog Hrec Hlen Hcap _ _].
    exists turns. do 2 eexists.
    unfold get_confrontation_log, _log_battle_result. cbn [turn_log set_turn_log].
    rewrite Hlog. cbn [GameEngine_init fst turn_log app]. split; [reflexivity|].
    split; [exact Hrec|].
    cbn [GameEngine_init fst turn_count] in *. unfold max_turns in *. lia.
  - split; [|exact Hrun]. intros Hs. destruct Hrun as [_ Hnot]. contradiction.
Qed.

Definition wins (team : string) : string := ("Team " ++ team ++ " wins!")%string.

(** A team with no living member. *)
Definition no_living (t : Team) w : Prop :=
  forall c, In c (characters t) -> alive (chars w c) = false.

Lemma is_defeated_no_living (t : Team) w : is_defeated t w = true <-> no_living t w.
Proof.
  unfold is_defeated, no_living. rewrite forallb_forall.
  split; intros H c Hc; specialize (H c Hc).
  - now apply negb_true_iff.
  - now apply negb_true_iff.
Qed.

(** C7.  The log of a run that returns ends with the result record, which
    carries the turn count and a text that is the draw text exactly when
    neither team has a living member, announces the other team when exactly
    one has none, and is the turn-limit text exactly when both have one,
    which happens only with the turn count at 100.  (A run that does not
    return raised the OverflowError of an action.) *)
Theorem terminal_record_correct (ta tb : Team) (random_seed : option Z) w :
  match run_battle uuid4 (fst (GameEngine_init ta tb random_seed w))
          (snd (GameEngine_init ta tb random_seed w)) with
  | Ok (g', w') =>
      exists turns text,
        turn_log g' = turns ++ [ResultRecord text (turn_count g') None]
        /\ Forall is_turn_record turns
        /\ (text = "Draw: Both teams defeated."
            <-> no_living ta w' /\ no_living tb w')
        /\ (no_living ta w' /\ ~ no_living tb w' -> text = wins (team_id tb))
        /\ (~ no_living ta w' /\ no_living tb w' -> text = wins (team_id ta))
        /\ ((exists team, text = wins team)
            <-> (no_living ta w' /\ ~ no_living tb w')
                \/ (~ no_living ta w' /\ no_living tb w'))
        /\ (text = "Turn limit reached. Possibly a draw."
            <-> ~ no_living ta w' /\ ~ no_living tb w')
        /\ (~ no_living ta w' /\ ~ no_living tb w' -> turn_count g' = 100)
  | Raise e => e = OverflowError /\ ~ attacks_safe w
  end.
Proof.
  pose proof (run_battle_outcome ta tb random_seed w) as Hrun. cbv zeta in Hrun.
  destruct (run_battle uuid4 _ _) as [[g' w1]|e]; [|exact Hrun].
  destruct Hrun as (g1 & Hloop & ->).
  apply battle_loop_effect in Hloop. destruct Hloop as (turns & Heff).
  destruct Heff as [Ha Hb Hlog Hrec _ Hcap Hrunning Hover].
  cbn [GameEngine_init fst team_a team_b turn_count turn_log battle_over app] in *.
  exists turns. eexists.
  unfold _log_battle_result. cbn [turn_log turn_count set_turn_log].
  rewrite Ha, Hb, Hlog. split; [reflexivity|]. split; [exact Hrec|].
  assert (Hcount : is_defeated ta w1 = false /\ is_defeated tb w1 = false ->
                   turn_count g1 = 100).
  { intros [Hda Hdb]. destruct (battle_over g1) eqn:Hbo.
    - destruct (Hover eq_refl) as [H|H]; [discriminate|].
      rewrite Ha, Hb, Hda, Hdb in H. discriminate.
    - specialize (Hrunning eq_refl). unfold max_turns in *. lia. }
  pose proof (is_defeated_no_living ta w1) as Hta.
  pose proof (is_defeated_no_living tb w1) as Htb.
  unfold wins.
  destruct (is_defeated ta w1), (is_defeated tb w1); cbn [andb].
  - assert (Na : no_living ta w1) by now apply Hta.
    assert (Nb : no_living tb w1) by now apply Htb.
    repeat split; try tauto; try discriminate.
    all: try (intros [team Ht]; discriminate).
  - assert (Na : no_living ta w1) by now apply Hta.
    assert (Nb : ~ no_living tb w1) by (intros H; apply Htb in H; discriminate).
    repeat split; try tauto; try discriminate.
    all: try (intros _; eexists; reflexivity).
  - assert (Na : ~ no_living ta w1) by (intros H; apply Hta in H; discriminate).
    assert (Nb : no_living tb w1) by now apply Htb.
    repeat split; try tauto; try discriminate.
    all: try (intros _; eexists; reflexivity).
  - assert (Na : ~ no_living ta w1) by (intros H; apply Hta in H; discriminate).
    assert (Nb : ~ no_living tb w1) by (intros H; apply Htb in H; discriminate).
    repeat split; try tauto; try discriminate.
    all: try (intros [team Ht]; discriminate).
    all: intros _; apply Hcount; split; reflexivity.
Qed.

(** ** Turn order *)

Definition acts_before w (x y : ref) : Prop :=
  key_leb (sort_key w x) (sort_key w y) = true.

Lemma key_leb_total (k1 k2 : Z * Z) : key_leb k1 k2 = false -> key_leb k2 k1 = true.
Proof.
  unfold key_leb. destruct k1 as [a1 b1], k2 as [a2 b2]. cbn [fst snd].
  intros H. apply orb_false_iff in H. destruct H as [H1 H2].
  apply Z.ltb_ge in H1. apply orb_true_iff.
  destruct (Z.eqb_spec a1 a2) as [->|Hne].
  - right. rewrite Z.eqb_refl. cbn in *. apply Z.leb_le. apply Z.leb_gt in H2. lia.
  - left. apply Z.ltb_lt. lia.
Qed.

Lemma key_leb_trans (k1 k2 k3 : Z * Z) :
  key_leb k1 k2 = true -> key_leb k2 k3 = true -> key_leb k1 k3 = true.
Proof.
  unfold key_leb. destruct k1 as [a1 b1], k2 as [a2 b2], k3 as [a3 b3]. cbn [fst snd].
  rewrite !orb_true_iff, !andb_true_iff, !Z.ltb_lt, !Z.eqb_eq, !Z.leb_le. lia.
Qed.

Lemma insert_fighter_In w c l x : In x (insert_fighter w c l) <-> x = c \/ In x l.
Proof.
  induction l as [|d l IH]; cbn [insert_fighter].
  - cbn. split; intros [H|[]]; left; symmetry; exact H.
  - destruct (key_leb _ _); cbn [In].
    + split; (intros [H|H]; [left; symmetry; exact H|right; exact H]).
    + rewrite IH. cbn. split; intros [H|[H|H]]; auto.
Qed.

Lemma insert_fighter_sorted w c l :
  StronglySorted (acts_before w) l -> StronglySorted (acts_before w) (insert_fighter w c l).
Proof.
  induction l as [|d l IH]; intros Hs; cbn [insert_fighter].
  - repeat constructor.
  - apply StronglySorted_inv in Hs. destruct Hs as [Hs Hall].
    destruct (key_leb (sort_key w c) (sort_key w d)) eqn:E.
    + constructor; [constructor; assumption|]. constructor; [exact E|].
      eapply Forall_impl; [|exact Hall]. intros x Hx. unfold acts_before in *.
      eapply key_leb_trans; eauto.
    + constructor; [auto|]. apply Forall_forall. intros x Hx.
      apply insert_fighter_In in Hx. destruct Hx as [->|Hx].
      * now apply key_leb_total.
      * rewrite Forall_forall in Hall. auto.
Qed.

Lemma sort_fighters_sorted w l : StronglySorted (acts_before w) (sort_fighters w l).
Proof.
  induction l as [|c l IH]; cbn [sort_fighters fold_right].
  - constructor.
  - now apply insert_fighter_sorted.
Qed.

Lemma sort_fighters_In w l x : In x (sort_fighters w l) <-> In x l.
Proof.
  induction l as [|c l IH]; cbn [sort_fighters fold_right]; [reflexivity|].
  rewrite insert_fighter_In. fold (sort_fighters w l). rewrite IH. cbn.
  split; (intros [H|H]; [left; symmetry; exact H|right; exact H]).
Qed.

Lemma StronglySorted_nth_error {A : Type} (P : A -> A -> Prop) (l : list A) :
  StronglySorted P l ->
  forall i j x y, (i < j)%nat -> nth_error l i = Some x -> nth_error l j = Some y -> P x y.
Proof.
  induction 1 as [|z l Hs IH Hall]; intros i j x y Hlt Hi Hj.
  - destruct i; discriminate.
  - destruct j as [|j]; [lia|]. cbn in Hj. destruct i as [|i]; cbn in Hi.
    + injection Hi as <-. rewrite Forall_forall in Hall. apply Hall.
      eapply nth_error_In; eauto.
    + eapply IH; [|eauto|eauto]. lia.
Qed.

(** The record of a turn, when it is appended, lists the actions of
    [action_phase]. *)
Lemma flush_frame_refl w : flush_frame w w.
Proof. unfold flush_frame. split; [apply same_static_refl|]. auto. Qed.

(** A turn that returns has run its action loop to the end; the store it
    returns is the store after the loop, changed by the flushed events
    only. *)
Lemma turn_world g w g' w' :
  turn uuid4 g w = Ok (g', w') ->
  exists acts g2 w2,
    action_phase g w = Ok (acts, g2, w2) /\ flush_frame w2 w'.
Proof.
  intros Hturn.
  destruct (_get_all_alive_characters g (status_world g w)) as [|f0 fs] eqn:Efs.
  - rewrite (turn_no_fighter g w Efs) in Hturn. injection Hturn as _ <-.
    unfold action_phase, fighters_of_turn. rewrite Efs. cbn [sort_fighters fold_right action_loop].
    do 3 eexists. split; [reflexivity|]. apply flush_frame_refl.
  - rewrite turn_with_fighters in Hturn by (rewrite Efs; discriminate).
    destruct (action_phase g w) as [[[acts g2] w2]|]; [|discriminate].
    cbn [bind] in Hturn. exists acts, g2, w2. split; [reflexivity|].
    unfold _process_events in Hturn. cbn [event_log turn_log set_turn_log] in Hturn.
    destruct (flush_events_turn_record (event_log g2) (turn_log g2)
                (mkTurnDetails (turn_count g + 1) (map snd acts) (status_key g w) None) w2)
      as (td' & w3 & Hflush & _ & Hw).
    rewrite Hflush in Hturn. cbn [bind] in Hturn. injection Hturn as _ <-.
    rewrite Hw. apply process_all_frame.
Qed.

Lemma turn_record_actions g w g' w' td :
  turn uuid4 g w = Ok (g', w') ->
  turn_log g' = turn_log g ++ [TurnRecord td] ->
  keeps_turn_header
    (mkTurnDetails (turn_count g + 1) (map snd (turn_actions g w))
       (status_key g w) None) td.
Proof.
  intros Hturn Hlog. apply turn_effect_of in Hturn.
  destruct Hturn as [_ _ _ Hlog' _].
  destruct (_get_all_alive_characters g (status_world g w)).
  - rewrite Hlog' in Hlog. rewrite <- (app_nil_r (turn_log g)) in Hlog at 1.
    apply app_inv_head in Hlog. discriminate.
  - destruct Hlog' as (td' & Hlog' & Hhead). rewrite Hlog' in Hlog.
    apply app_inv_head in Hlog. injection Hlog as ->. exact Hhead.
Qed.

Lemma status_world_static g w : same_static w (status_world g w).
Proof. apply status_loop_static. Qed.

(** C6.  In the record of a turn the actions are listed fighter by fighter
    in the order in which the fighters acted, and a fighter that is faster,
    or as fast with a lower position, than another one has its action
    earlier in the list. *)
Theorem turn_order g w g' w' td :
  turn uuid4 g w = Ok (g', w') ->
  turn_log g' = turn_log g ++ [TurnRecord td] ->
  map actor (actions td) = map (fun f => name (chars w f)) (turn_actors g w)
  /\ forall i j x y,
       nth_error (turn_actors g w) i = Some x ->
       nth_error (turn_actors g w) j = Some y ->
       speed (chars w x) > speed (chars w y)
       \/ (speed (chars w x) = speed (chars w y)
           /\ position (chars w x) < position (chars w y)) ->
       (i < j)%nat.
Proof.
  intros Hturn Hlog.
  destruct (turn_record_actions g w g' w' td Hturn Hlog) as (_ & Hacts & _).
  cbn [actions] in Hacts. unfold turn_actors.
  destruct (turn_world g w g' w' Hturn) as (acts & g2 & w2 & Ephase & _).
  unfold turn_actions in *. rewrite Ephase in *.
  unfold action_phase in Ephase.
  pose proof (status_world_static g w) as Hstat.
  split.
  - rewrite Hacts, !map_map.
    apply action_loop_frame in Ephase. destruct Ephase as [_ Hall].
    clear Hacts. induction Hall as [|p l Hp Hl IH]; [reflexivity|]. cbn [map]. f_equal; [|exact IH].
    rewrite Hp. exact (proj1 (Hstat (fst p))).
  - apply (action_loop_actors (acts_before (status_world g w))) in Ephase.
    destruct Ephase as [_ Hsorted].
    specialize (Hsorted (sort_fighters_sorted _ _)).
    intros i j x y Hi Hj Hkey.
    destruct (Nat.lt_trichotomy i j) as [Hlt|[Heq|Hgt]]; [exact Hlt|exfalso..].
    + subst j. rewrite Hi in Hj. injection Hj as <-. lia.
    + pose proof (StronglySorted_nth_error _ _ Hsorted j i y x Hgt Hj Hi) as Hle.
      unfold acts_before, key_leb, sort_key in Hle. cbn [fst snd] in Hle.
      destruct (Hstat x) as (_ & _ & Hsx & Hpx & _).
      destruct (Hstat y) as (_ & _ & Hsy & Hpy & _).
      rewrite Hsx, Hsy, Hpx, Hpy in Hle.
      rewrite orb_true_iff, andb_true_iff, Z.ltb_lt, Z.eqb_eq, Z.leb_le in Hle. lia.
Qed.

(** ** Health bounds *)

Definition health_bounds w : Prop :=
  forall c, 0 <= current_hp (chars w c) <= max_hp (chars w c).

(** The amounts the engine passes to [take_damage] and [heal] come from the
    attack of the fighters and from the magnitudes of the effects. *)
Definition nonneg_amounts w : Prop :=
  (forall c, 0 <= attack (chars w c)) /\ (forall e, 0 <= effect_value (effects w e)).

Definition healthy w : Prop := health_bounds w /\ nonneg_amounts w.

Definition nonneg_extra (ev : Event) : Prop :=
  match ev with
  | CriticalHitEvent _ _ _ _ x => 0 <= x
  | _ => True
  end.

Definition events_ok g : Prop := Forall nonneg_extra (event_log g).

Lemma healthy_ext w w' :
  chars w' = chars w -> effects w' = effects w -> healthy w -> healthy w'.
Proof.
  intros Hc He [Hb [Ha Hv]]. unfold healthy, health_bounds, nonneg_amounts.
  rewrite Hc, He. auto.
Qed.

(** Solves [healthy] of a store in which one character was replaced. *)
Ltac solve_healthy Hb Ha Hv c :=
  split; [|split];
  [ intros c'; cbn [chars set_char]; unfold upd;
    destruct (Nat.eqb_spec c' c); [subst c'|]; cbn; pose proof (Hb c); auto; lia
  | intros c'; cbn [chars set_char]; unfold upd;
    destruct (Nat.eqb_spec c' c); [subst c'|]; cbn; pose proof (Ha c); auto; lia
  | exact Hv ].

Lemma take_damage_healthy c (v : Z) w : 0 <= v -> healthy w -> healthy (take_damage c v w).
Proof.
  intros Hv0 [Hb [Ha Hv]]. unfold take_damage.
  destruct (Z.leb_spec (current_hp (chars w c) - v) 0); solve_healthy Hb Ha Hv c.
Qed.

Lemma heal_healthy c (v : Z) w : 0 <= v -> healthy w -> healthy (heal c v w).
Proof.
  intros Hv0 [Hb [Ha Hv]]. unfold heal.
  destruct (0 <? _); solve_healthy Hb Ha Hv c.
Qed.

Lemma apply_effect_healthy e c w : healthy w -> healthy (apply_effect e c w).
Proof.
  intros Hh. pose proof Hh as [Hb [Ha Hv]]. unfold apply_effect.
  destruct (_ =? "poison")%string; [apply take_damage_healthy; auto|].
  destruct (_ =? "heal")%string; [apply heal_healthy; auto|].
  destruct (_ =? "buff")%string.
  { pose proof (Hv e). solve_healthy Hb Ha Hv c. }
  destruct (_ =? "debuff")%string; [|exact Hh].
  solve_healthy Hb Ha Hv c.
Qed.

Lemma tick_healthy e w : healthy w -> healthy (tick e w).
Proof.
  intros [Hb [Ha Hv]]. split; [exact Hb|]. split; [exact Ha|].
  intros e'. unfold tick. cbn [effects set_effect]. unfold upd.
  destruct (Nat.eqb_spec e' e); [subst e'|]; cbn; apply Hv.
Qed.

Lemma apply_status_effects_healthy c held : forall w,
  healthy w -> healthy (snd (apply_status_effects c held w)).
Proof.
  induction held as [|e rest IH]; intros w Hh; cbn [apply_status_effects].
  - exact Hh.
  - specialize (IH (tick e (apply_effect e c w))).
    destruct (apply_status_effects c rest _) as [logs w3]. cbn [snd] in *.
    apply IH. apply tick_healthy. now apply apply_effect_healthy.
Qed.

Lemma process_status_effects_healthy c w :
  healthy w -> healthy (snd (process_status_effects c w)).
Proof.
  intros Hh. unfold process_status_effects.
  pose proof (apply_status_effects_healthy c (status_effects (chars w c)) w Hh) as H.
  destruct (apply_status_effects c _ w) as [logs w1]. cbn [snd] in *.
  destruct H as [Hb [Ha Hv]]. solve_healthy Hb Ha Hv c.
Qed.

Lemma status_loop_healthy cs : forall w, healthy w -> healthy (snd (status_loop cs w)).
Proof.
  induction cs as [|c rest IH]; intros w Hh; cbn [status_loop].
  - exact Hh.
  - pose proof (process_status_effects_healthy c w Hh) as H.
    destruct (process_status_effects c w) as [l1 w1]. cbn [snd] in H.
    specialize (IH w1 H). destruct (status_loop rest w1) as [l2 w2]. exact IH.
Qed.

Lemma tick_abilities_healthy c w : healthy w -> healthy (tick_abilities c w).
Proof.
  apply healthy_ext; [apply tick_abilities_chars|apply tick_abilities_effects].
Qed.

Lemma action_effect_healthy f g w d g1 w1 :
  action_effect f g w d g1 w1 -> healthy w -> events_ok g -> healthy w1 /\ events_ok g1.
Proof.
  intros [_ _ _ _ _ Hev _ Heff _ Hch] Hh Hok. split.
  - destruct Hch as [Hch|(t & v & Hv & Hch)].
    + eapply healthy_ext; eauto.
    + apply (healthy_ext (take_damage t v w)).
      * exact Hch.
      * now rewrite take_damage_effects.
      * apply take_damage_healthy; [|exact Hh].
        destruct Hh as [_ [Ha _]]. specialize (Hv (Ha f)). lia.
  - destruct Hev as (evs & Hevs & Hall). unfold events_ok. rewrite Hevs.
    apply Forall_app. split; [exact Hok|].
    eapply Forall_impl; [|exact Hall]. intros [i s a t x|i s a t|i s u a t]; cbn; auto.
    intros Hx. destruct Hh as [_ [Ha _]]. eapply int_times_half_nonneg; [apply Ha|exact Hx].
Qed.

Lemma process_healthy ev w : nonneg_extra ev -> healthy w -> healthy (process ev w).
Proof.
  intros Hev Hh. destruct ev as [i s atk t x|i s atk t|i s u a [t|]]; cbn [process].
  - now apply take_damage_healthy.
  - exact Hh.
  - destruct (effect (ability_objs w a)) as [e|]; [|exact Hh].
    destruct Hh as [Hb [Ha Hv]]. unfold add_status_effect. solve_healthy Hb Ha Hv t.
  - destruct (effect (ability_objs w a)); exact Hh.
Qed.

Lemma process_all_healthy queue : forall w,
  Forall nonneg_extra queue -> healthy w ->
  healthy (fold_left (fun w0 ev => process ev w0) queue w).
Proof.
  induction queue as [|ev rest IH]; intros w Hall Hh; cbn [fold_left].
  - exact Hh.
  - apply Forall_cons_iff in Hall. destruct Hall as [Hev Hall].
    apply IH; [exact Hall|]. now apply process_healthy.
Qed.

Lemma action_loop_healthy fighters g w acts g' w' :
  action_loop uuid4 fighters g w = Ok (acts, g', w') ->
  healthy w -> events_ok g -> healthy w' /\ events_ok g'.
Proof.
  intros H Hh Hok.
  refine (proj1 (action_loop_invariant (fun g1 w1 => healthy w1 /\ events_ok g1)
                   (fun _ _ => True) _ _ _ _ _ _ _ _ _ _ H)).
  - intros f g0 w0 [Hh0 Hok0]. split; [now apply tick_abilities_healthy|exact Hok0].
  - intros f g0 w0 d g1 w1 [Hh0 Hok0] Hact. split; [|exact I].
    apply _perform_action_effect in Hact. eapply action_effect_healthy; eauto.
  - intros g0 w0 [Hh0 Hok0] _. split; [exact Hh0|exact Hok0].
  - auto.
Qed.

Lemma _process_events_healthy g w g' w' :
  _process_events g w = Ok (g', w') -> events_ok g -> healthy w ->
  healthy w' /\ events_ok g'.
Proof.
  unfold _process_events. intros H Hok Hh.
  assert (Hgen : forall queue log w0 log' w1,
             flush_events queue log w0 = Ok (log', w1) ->
             w1 = fold_left (fun w2 ev => process ev w2) queue w0).
  { induction queue as [|ev rest IH]; intros log w0 log' w1; cbn [flush_events fold_left].
    - now intros [= _ <-].
    - destruct (update_last _ log) as [log1|]; [|discriminate]. apply IH. }
  destruct (flush_events (event_log g) (turn_log g) w) as [[log w1]|] eqn:E;
    [|discriminate].
  cbn [bind] in H. injection H as <- <-. apply Hgen in E. subst w1. split.
  - now apply process_all_healthy.
  - constructor.
Qed.

Lemma turn_healthy g w g' w' :
  turn uuid4 g w = Ok (g', w') -> healthy w -> events_ok g ->
  healthy w' /\ events_ok g'.
Proof.
  intros Hturn Hh Hok.
  assert (Hs : healthy (status_world g w)) by (apply status_loop_healthy; exact Hh).
  destruct (_get_all_alive_characters g (status_world g w)) as [|f0 fs] eqn:Efs.
  - rewrite (turn_no_fighter g w Efs) in Hturn. injection Hturn as <- <-. auto.
  - rewrite turn_with_fighters in Hturn by (rewrite Efs; discriminate).
    destruct (action_phase g w) as [[[acts g2] w2]|] eqn:Ephase; [|discriminate].
    cbn [bind] in Hturn. unfold action_phase in Ephase.
    apply action_loop_healthy in Ephase; [|exact Hs|exact Hok].
    destruct Ephase as [Hh2 Hok2].
    apply _process_events_healthy in Hturn; auto.
Qed.

Lemma battle_loop_healthy fuel : forall g w g' w',
  battle_loop uuid4 fuel g w = Ok (g', w') -> healthy w -> events_ok g ->
  healthy w' /\ events_ok g'.
Proof.
  induction fuel as [|fuel IH]; intros g w g' w'; cbn [battle_loop];
    destruct (negb (battle_over g) && (turn_count g <? max_turns));
    try discriminate; try (intros [= <- <-]; auto).
  destruct (turn uuid4 g w) as [[g1 w1]|] eqn:Hturn; [|discriminate].
  cbn [bind]. intros Hloop Hh Hok.
  destruct (turn_healthy _ _ _ _ Hturn Hh Hok) as [Hh1 Hok1]. eauto.
Qed.

(** C5 (as amended).  From a store in which every character has
    [0 <= current_hp <= max_hp] and a non-negative attack, every effect a
    non-negative magnitude, and from an engine whose queued critical hits
    carry a non-negative extra damage, the same holds again (the bounds on
    health included) after each step of the run: a status pass of a
    character, the whole status phase, an action with the tick before it, the
    event flush, a turn, and the run itself.  [take_damage] and [heal] keep
    the bounds for the non-negative amounts these steps pass. *)
Theorem health_bounds_preserved g w :
  healthy w -> events_ok g ->
  (forall c v, 0 <= v ->
     health_bounds (take_damage c v w) /\ health_bounds (heal c v w))
  /\ (forall c, healthy (snd (process_status_effects c w)))
  /\ healthy (snd (_process_status_effects g w))
  /\ (forall f d g1 w1,
        _perform_action uuid4 f g (tick_abilities f w) = Ok (d, g1, w1) ->
        healthy w1 /\ events_ok g1)
  /\ (forall g1 w1, _process_events g w = Ok (g1, w1) -> healthy w1 /\ events_ok g1)
  /\ (forall g1 w1, turn uuid4 g w = Ok (g1, w1) -> healthy w1 /\ events_ok g1)
  /\ (forall g1 w1, run_battle uuid4 g w = Ok (g1, w1) -> health_bounds w1).
Proof.
  intros Hh Hok.
  refine (conj _ (conj _ (conj _ (conj _ (conj _ (conj _ _)))))).
  - intros c v Hv. split.
    + now apply take_damage_healthy.
    + now apply heal_healthy.
  - intros c. now apply process_status_effects_healthy.
  - now apply status_loop_healthy.
  - intros f d g1 w1 Hact. apply _perform_action_effect in Hact.
    eapply action_effect_healthy; eauto. now apply tick_abilities_healthy.
  - intros g1 w1 H. eapply _process_events_healthy; eauto.
  - intros g1 w1 H. eapply turn_healthy; eauto.
  - intros g1 w1. unfold run_battle.
    destruct (battle_loop uuid4 _ g w) as [[g2 w2]|] eqn:Hloop; [|discriminate].
    cbn [bind]. intros [= _ <-].
    apply (battle_loop_healthy _ _ _ _ _ Hloop Hh Hok).
Qed.

(** ** Cooldowns *)

(** The cooldown after [n] calls of [tick_cooldown]. *)
Definition ticked (n : nat) (cc : Z) : Z :=
  if cc <=? 0 then cc else Z.max 0 (cc - Z.of_nat n).

Lemma ticked_once (cc : Z) : ticked 1 cc = if 0 <? cc then cc - 1 else cc.
Proof.
  unfold ticked. change (Z.of_nat 1) with 1.
  destruct (Z.leb_spec cc 0), (Z.ltb_spec 0 cc); cbv beta iota; lia.
Qed.

Lemma ticked_S (n : nat) (cc : Z) : ticked n (ticked 1 cc) = ticked (S n) cc.
Proof.
  unfold ticked. change (Z.of_nat 1) with 1. rewrite Nat2Z.inj_succ.
  destruct (Z.leb_spec cc 0) as [H|H].
  - destruct (Z.leb_spec cc 0); cbv beta iota; lia.
  - destruct (Z.leb_spec (Z.max 0 (cc - 1)) 0); cbv beta iota; lia.
Qed.

Lemma ticked_zero (cc : Z) : ticked 0 cc = cc.
Proof.
  unfold ticked. change (Z.of_nat 0) with 0.
  destruct (Z.leb_spec cc 0); cbv beta iota; lia.
Qed.

Lemma set_current_cooldown_same (ab : Ability) :
  set_current_cooldown (current_cooldown ab) ab = ab.
Proof. destruct ab. reflexivity. Qed.

Lemma tick_cooldown_at a w :
  ability_objs (tick_cooldown a w) a
  = set_current_cooldown (ticked 1 (current_cooldown (ability_objs w a))) (ability_objs w a).
Proof.
  rewrite ticked_once. unfold tick_cooldown.
  destruct (0 <? current_cooldown (ability_objs w a)).
  - cbn [ability_objs set_ability]. apply upd_same.
  - destruct (ability_objs w a). reflexivity.
Qed.

Lemma tick_cooldown_other a a' w : a' <> a ->
  ability_objs (tick_cooldown a w) a' = ability_objs w a'.
Proof.
  intros Hne. unfold tick_cooldown. destruct (0 <? _); [|reflexivity].
  cbn [ability_objs set_ability]. now apply upd_other.
Qed.

Lemma tick_all_at (l : list ref) : forall w a,
  ability_objs (fold_left (fun w' a0 => tick_cooldown a0 w') l w) a
  = set_current_cooldown
      (ticked (count_occ Nat.eq_dec l a) (current_cooldown (ability_objs w a)))
      (ability_objs w a).
Proof.
  induction l as [|a0 l IH]; intros w a; cbn [fold_left count_occ].
  - now rewrite ticked_zero, set_current_cooldown_same.
  - rewrite IH. destruct (Nat.eq_dec a0 a) as [->|Hne].
    + rewrite tick_cooldown_at. cbn. now rewrite ticked_S.
    + rewrite tick_cooldown_other by congruence. reflexivity.
Qed.



(** The status phase and its parts do not touch the abilities. *)
Lemma heal_abilities c (v : Z) w : ability_objs (heal c v w) = ability_objs w.
Proof. unfold heal. destruct (0 <? _); reflexivity. Qed.

Lemma apply_effect_abilities e c w : ability_objs (apply_effect e c w) = ability_objs w.
Proof.
  unfold apply_effect.
  destruct (_ =? "poison")%string; [apply take_damage_abilities|].
  destruct (_ =? "heal")%string; [apply heal_abilities|].
  destruct (_ =? "buff")%string; [reflexivity|].
  destruct (_ =? "debuff")%string; reflexivity.
Qed.

Lemma apply_status_effects_abilities c held : forall w,
  ability_objs (snd (apply_status_effects c held w)) = ability_objs w.
Proof.
  induction held as [|e rest IH]; intros w; cbn [apply_status_effects]; [reflexivity|].
  specialize (IH (tick e (apply_effect e c w))).
  destruct (apply_status_effects c rest _) as [logs w3]. cbn [snd] in *.
  rewrite IH. cbn [tick ability_objs set_effect]. apply apply_effect_abilities.
Qed.

Lemma process_status_effects_abilities c w :
  ability_objs (snd (process_status_effects c w)) = ability_objs w.
Proof.
  unfold process_status_effects.
  pose proof (apply_status_effects_abilities c (status_effects (chars w c)) w) as H.
  destruct (apply_status_effects c _ w) as [logs w1]. exact H.
Qed.

Lemma status_loop_abilities cs : forall w,
  ability_objs (snd (status_loop cs w)) = ability_objs w.
Proof.
  induction cs as [|c rest IH]; intros w; cbn [status_loop]; [reflexivity|].
  pose proof (process_status_effects_abilities c w) as H.
  destruct (process_status_effects c w) as [l1 w1]. cbn [snd] in H.
  specialize (IH w1). destruct (status_loop rest w1) as [l2 w2]. cbn [snd] in *.
  congruence.
Qed.









(** ** Shared abilities *)











(** ** Cooldowns stay within their configured length *)

Definition cooldown_bounds w : Prop :=
  forall a, 0 <= current_cooldown (ability_objs w a) <= cooldown (ability_objs w a).

Lemma cooldown_bounds_ext w w' :
  ability_objs w' = ability_objs w -> cooldown_bounds w -> cooldown_bounds w'.
Proof. intros E H a. rewrite E. apply H. Qed.

Lemma tick_cooldown_bounds a w : cooldown_bounds w -> cooldown_bounds (tick_cooldown a w).
Proof.
  intros H a'. unfold tick_cooldown.
  destruct (Z.ltb_spec 0 (current_cooldown (ability_objs w a))); [|apply H].
  cbn [ability_objs set_ability]. unfold upd.
  destruct (Nat.eqb_spec a' a); [subst a'|apply H].
  cbn. pose proof (H a). lia.
Qed.

Lemma tick_abilities_bounds c w : cooldown_bounds w -> cooldown_bounds (tick_abilities c w).
Proof.
  unfold tick_abilities. generalize (abilities (chars w c)). intros l. revert w.
  induction l as [|a l IH]; intros w H; cbn [fold_left]; [exact H|].
  apply IH. now apply tick_cooldown_bounds.
Qed.

Lemma use_bounds a w : cooldown_bounds w -> cooldown_bounds (use a w).
Proof.
  intros H a'. unfold use. cbn [ability_objs set_ability]. unfold upd.
  destruct (Nat.eqb_spec a' a); [subst a'|apply H].
  cbn. pose proof (H a). lia.
Qed.

Lemma action_effect_bounds f g w d g1 w1 :
  action_effect f g w d g1 w1 -> cooldown_bounds w -> cooldown_bounds w1.
Proof.
  intros [_ _ _ _ _ _ _ _ Hab _] H.
  destruct Hab as [Hab|(a & _ & Hab)].
  - eapply cooldown_bounds_ext; eauto.
  - apply (cooldown_bounds_ext (use a w)); [exact Hab|]. now apply use_bounds.
Qed.

Lemma action_loop_bounds fighters g w acts g' w' :
  action_loop uuid4 fighters g w = Ok (acts, g', w') ->
  cooldown_bounds w -> cooldown_bounds w'.
Proof.
  intros H Hb.
  refine (proj1 (action_loop_invariant (fun _ w1 => cooldown_bounds w1)
                   (fun _ _ => True) _ _ _ _ _ _ _ _ _ _ H)).
  - intros f g0 w0 H0. now apply tick_abilities_bounds.
  - intros f g0 w0 d g1 w1 H0 Hact. split; [|exact I].
    apply _perform_action_effect in Hact. eapply action_effect_bounds; eauto.
  - auto.
  - exact Hb.
Qed.

Lemma turn_bounds g w g' w' :
  turn uuid4 g w = Ok (g', w') -> cooldown_bounds w -> cooldown_bounds w'.
Proof.
  intros Hturn Hb. apply turn_world in Hturn.
  destruct Hturn as (acts & g2 & w2 & E & _ & Hab & _).
  apply (cooldown_bounds_ext w2); [exact Hab|].
  unfold action_phase in E. eapply action_loop_bounds; [exact E|].
  eapply cooldown_bounds_ext; [|exact Hb]. apply status_loop_abilities.
Qed.

Lemma battle_loop_bounds fuel : forall g w g' w',
  battle_loop uuid4 fuel g w = Ok (g', w') -> cooldown_bounds w -> cooldown_bounds w'.
Proof.
  induction fuel as [|fuel IH]; intros g w g' w'; cbn [battle_loop];
    destruct (negb (battle_over g) && (turn_count g <? max_turns));
    try discriminate; try (intros [= <- <-]; auto).
  destruct (turn uuid4 g w) as [[g1 w1]|] eqn:Hturn; [|discriminate].
  cbn [bind]. intros Hloop Hb. eapply IH; [exact Hloop|]. eapply turn_bounds; eauto.
Qed.

(** X1.  If every ability has its remaining cooldown between 0 and its
    configured cooldown, this is still so after the ticks of a fighter,
    after an action, after a turn and after the whole run. *)
Theorem cooldown_bounds_preserved g w :
  cooldown_bounds w ->
  (forall c, cooldown_bounds (tick_abilities c w))
  /\ (forall f d g1 w1,
        _perform_action uuid4 f g w = Ok (d, g1, w1) -> cooldown_bounds w1)
  /\ (forall g1 w1, turn uuid4 g w = Ok (g1, w1) -> cooldown_bounds w1)
  /\ (forall g1 w1, run_battle uuid4 g w = Ok (g1, w1) -> cooldown_bounds w1).
Proof.
  intros Hb. refine (conj _ (conj _ (conj _ _))).
  - intros c. now apply tick_abilities_bounds.
  - intros f d g1 w1 Hact. apply _perform_action_effect in Hact.
    eapply action_effect_bounds; eauto.
  - intros g1 w1 H. eapply turn_bounds; eauto.
  - intros g1 w1. unfold run_battle.
    destruct (battle_loop uuid4 _ g w) as [[g2 w2]|] eqn:Hloop; [|discriminate].
    cbn [bind]. intros [= _ <-]. eapply battle_loop_bounds; eauto.
Qed.

(** ** An ability comes back after its cooldown *)

Lemma ticked_after (n : nat) (cc : Z) : ticked 1 (ticked n cc) = ticked (S n) cc.
Proof.
  unfold ticked. change (Z.of_nat 1) with 1. rewrite Nat2Z.inj_succ.
  destruct (Z.leb_spec cc 0) as [H|H]; cbv beta iota.
  - destruct (Z.leb_spec cc 0); cbv beta iota; lia.
  - destruct (Z.leb_spec (Z.max 0 (cc - Z.of_nat n)) 0); cbv beta iota; lia.
Qed.

Lemma tick_cooldown_iter (n : nat) a w :
  ability_objs (Nat.iter n (tick_cooldown a) w) a
  = set_current_cooldown (ticked n (current_cooldown (ability_objs w a))) (ability_objs w a).
Proof.
  induction n as [|n IH].
  - cbn [Nat.iter nat_rect]. now rewrite ticked_zero, set_current_cooldown_same.
  - rewrite Nat.iter_succ, tick_cooldown_at, IH. cbn [current_cooldown set_current_cooldown].
    rewrite ticked_after. destruct (ability_objs w a). reflexivity.
Qed.

(** X2.  After [use], an ability is available again after [n] ticks exactly
    when its configured cooldown lies between 0 and [n]; with a negative
    configured cooldown it never is. *)
Theorem available_again_after_cooldown (n : nat) a w :
  is_available (ability_objs (Nat.iter n (tick_cooldown a) (use a w)) a) = true
  <-> 0 <= cooldown (ability_objs w a) <= Z.of_nat n.
Proof.
  rewrite tick_cooldown_iter. unfold use. cbn [ability_objs set_ability].
  rewrite upd_same. unfold is_available.
  cbn [current_cooldown set_current_cooldown cooldown].
  rewrite Z.eqb_eq. unfold ticked.
  destruct (Z.leb_spec (cooldown (ability_objs w a)) 0); lia.
Qed.

(** ** A status pass *)

Lemma heal_effects c (v : Z) w : effects (heal c v w) = effects w.
Proof. unfold heal. destruct (0 <? _); reflexivity. Qed.

Lemma apply_effect_effects e c w : effects (apply_effect e c w) = effects w.
Proof.
  unfold apply_effect.
  destruct (_ =? "poison")%string; [apply take_damage_effects|].
  destruct (_ =? "heal")%string; [apply heal_effects|].
  destruct (_ =? "buff")%string; [reflexivity|].
  destruct (_ =? "debuff")%string; reflexivity.
Qed.

(** Solves goals on the character [c'] of a store in which the character
    [c] was replaced by a copy that differs in other fields. *)
Ltac solve_char_frame c' c :=
  cbn [chars set_char]; unfold upd;
  destruct (Nat.eqb_spec c' c); [subst c'|]; cbn; try reflexivity; try congruence.

Lemma take_damage_other c (v : Z) w c' :
  c' <> c -> chars (take_damage c v w) c' = chars w c'.
Proof. intros H. unfold take_damage. destruct (_ <=? 0); solve_char_frame c' c. Qed.

Lemma heal_other c (v : Z) w c' : c' <> c -> chars (heal c v w) c' = chars w c'.
Proof. intros H. unfold heal. destruct (0 <? _); solve_char_frame c' c. Qed.

Lemma apply_effect_other e c w c' :
  c' <> c -> chars (apply_effect e c w) c' = chars w c'.
Proof.
  intros H. unfold apply_effect.
  destruct (_ =? "poison")%string; [now apply take_damage_other|].
  destruct (_ =? "heal")%string; [now apply heal_other|].
  destruct (_ =? "buff")%string; [solve_char_frame c' c|].
  destruct (_ =? "debuff")%string; [solve_char_frame c' c|reflexivity].
Qed.

Lemma apply_effect_held e c w c' :
  status_effects (chars (apply_effect e c w) c') = status_effects (chars w c').
Proof.
  unfold apply_effect.
  destruct (_ =? "poison")%string.
  { unfold take_damage. destruct (_ <=? 0); solve_char_frame c' c. }
  destruct (_ =? "heal")%string.
  { unfold heal. destruct (0 <? _); solve_char_frame c' c. }
  destruct (_ =? "buff")%string; [solve_char_frame c' c|].
  destruct (_ =? "debuff")%string; [solve_char_frame c' c|reflexivity].
Qed.

(** The description line of [process_status_effects]. *)
Definition status_line w c e : string :=
  (name (chars w c) ++ " is affected by " ++ se_name (effects w e)
   ++ " (" ++ str_int (effect_value (effects w e)) ++ ")")%string.

Definition ticked_effect (n : nat) (eff : StatusEffect) : StatusEffect :=
  set_duration (duration eff - Z.of_nat n) eff.

Lemma ticked_effect_zero (eff : StatusEffect) : ticked_effect 0 eff = eff.
Proof.
  unfold ticked_effect. change (Z.of_nat 0) with 0. rewrite Z.sub_0_r.
  destruct eff. reflexivity.
Qed.

Lemma apply_status_effects_spec c held : forall w,
  let r := apply_status_effects c held w in
  fst r = map (status_line w c) held
  /\ (forall e, effects (snd r) e
                = ticked_effect (count_occ Nat.eq_dec held e) (effects w e))
  /\ (forall c', status_effects (chars (snd r) c') = status_effects (chars w c'))
  /\ (forall c', c' <> c -> chars (snd r) c' = chars w c').
Proof.
  induction held as [|e0 rest IH]; intros w; cbn [apply_status_effects].
  - cbn. repeat split; auto. intros e. now rewrite ticked_effect_zero.
  - specialize (IH (tick e0 (apply_effect e0 c w))). cbv zeta in IH.
    destruct (apply_status_effects c rest _) as [logs w3]. cbn [fst snd] in *.
    destruct IH as (Hlogs & Heff & Hheld & Hother).
    assert (Hname : forall x, name (chars (apply_effect e0 c w) x) = name (chars w x))
      by (intros x; exact (proj1 (apply_effect_static e0 c w x))).
    refine (conj _ (conj _ (conj _ _))).
    + cbn [map]. f_equal.
      * unfold status_line. rewrite Hname, apply_effect_effects. reflexivity.
      * rewrite Hlogs. apply map_ext_in. intros e _. unfold status_line.
        cbn [tick chars set_effect effects]. rewrite Hname, apply_effect_effects.
        unfold upd. destruct (Nat.eqb_spec e e0); [subst e|]; reflexivity.
    + intros e. rewrite Heff. cbn [tick effects set_effect count_occ].
      rewrite apply_effect_effects. unfold upd.
      destruct (Nat.eq_dec e0 e) as [->|Hne].
      * rewrite Nat.eqb_refl. unfold ticked_effect, set_duration.
        cbn [se_name duration effect_value effect_type]. rewrite Nat2Z.inj_succ.
        f_equal. lia.
      * destruct (Nat.eqb_spec e e0); [congruence|reflexivity].
    + intros c'. rewrite Hheld. cbn [tick chars set_effect]. apply apply_effect_held.
    + intros c' Hne. rewrite (Hother c' Hne). cbn [tick chars set_effect].
      now apply apply_effect_other.
Qed.

(** What one status pass does, in full. *)
Lemma process_status_effects_spec c w :
  let held := status_effects (chars w c) in
  let r := process_status_effects c w in
  fst r = map (status_line w c) held
  /\ (forall e, effects (snd r) e
                = ticked_effect (count_occ Nat.eq_dec held e) (effects w e))
  /\ status_effects (chars (snd r) c)
     = filter (fun e => 0 <? duration (effects (snd r) e)) held
  /\ Forall (fun e => 0 < duration (effects (snd r) e)) (status_effects (chars (snd r) c))
  /\ (forall c', c' <> c -> chars (snd r) c' = chars w c').
Proof.
  cbv zeta. unfold process_status_effects.
  pose proof (apply_status_effects_spec c (status_effects (chars w c)) w) as H.
  cbv zeta in H. destruct (apply_status_effects c _ w) as [logs w1].
  cbn [fst snd] in *. destruct H as (Hlogs & Heff & Hheld & Hother).
  assert (Hkept : status_effects
                    (chars (set_char c
                              (set_status_effects
                                 (filter (fun e => negb (is_expired (effects w1 e)))
                                    (status_effects (chars w1 c))) (chars w1 c)) w1) c)
                  = filter (fun e => 0 <? duration (effects w1 e))
                      (status_effects (chars w c))).
  { cbn [chars set_char]. rewrite upd_same. cbn [status_effects set_status_effects].
    rewrite Hheld. apply filter_ext. intros e. unfold is_expired.
    destruct (Z.leb_spec (duration (effects w1 e)) 0), (Z.ltb_spec 0 (duration (effects w1 e)));
      cbn; auto; lia. }
  refine (conj Hlogs (conj Heff (conj Hkept (conj _ _)))).
  - rewrite Hkept. apply Forall_forall. intros e He. apply filter_In in He.
    destruct He as [_ He]. now apply Z.ltb_lt in He.
  - intros c' Hne. cbn [chars set_char]. rewrite upd_other by exact Hne. now apply Hother.
Qed.

(** X3.  A status pass of a character returns one line per effect it
    holds, in the order of its list; it ticks every effect once for each
    of its occurrences in that list (whoever else holds the same effect
    object sees the shorter duration) and no other effect; it keeps of its
    list the effects whose duration is still positive, so no expired effect
    stays held; and it changes no other character. *)
Theorem status_pass_effect c w :
  let held := status_effects (chars w c) in
  let r := process_status_effects c w in
  fst r = map (status_line w c) held
  /\ (forall e, effects (snd r) e
                = ticked_effect (count_occ Nat.eq_dec held e) (effects w e))
  /\ status_effects (chars (snd r) c)
     = filter (fun e => 0 <? duration (effects (snd r) e)) held
  /\ Forall (fun e => 0 < duration (effects (snd r) e)) (status_effects (chars (snd r) c))
  /\ (forall c', c' <> c -> chars (snd r) c' = chars w c').
Proof. exact (process_status_effects_spec c w). Qed.


Lemma status_loop_other c cs : forall w,
  ~ In c cs -> chars (snd (status_loop cs w)) c = chars w c.
Proof.
  induction cs as [|c0 rest IH]; intros w Hnot; cbn [status_loop]; [reflexivity|].
  pose proof (process_status_effects_spec c0 w) as Hpass. cbv zeta in Hpass.
  destruct (process_status_effects c0 w) as [l1 w1]. cbn [snd] in Hpass.
  destruct Hpass as (_ & _ & _ & _ & Hother).
  specialize (IH w1). destruct (status_loop rest w1) as [l2 w2]. cbn [snd] in *.
  rewrite IH by (intros Hin; apply Hnot; now right).
  apply Hother. intros ->. apply Hnot. now left.
Qed.

(** X4.  The status phase of a turn passes over the living members of the
    two teams only: a character that is not alive when the phase starts,
    or that belongs to neither team, comes out of it unchanged. *)
Theorem status_phase_skips_the_dead g w c :
  alive (chars w c) = false
  \/ (~ In c (characters (team_a g)) /\ ~ In c (characters (team_b g))) ->
  chars (snd (_process_status_effects g w)) c = chars w c.
Proof.
  intros Hc. unfold _process_status_effects. apply status_loop_other.
  unfold _get_all_alive_characters, get_alive_characters. rewrite in_app_iff, !filter_In.
  destruct Hc as [Hd|[Ha Hb]].
  - rewrite Hd. intros [[_ H]|[_ H]]; discriminate.
  - intros [[H _]|[H _]]; [exact (Ha H)|exact (Hb H)].
Qed.

(** ** Targets *)

Lemma is_defeated_no_alive (t : Team) w :
  is_defeated t w = true <-> get_alive_characters t w = [].
Proof.
  unfold is_defeated, get_alive_characters.
  induction (characters t) as [|c l IH]; cbn [forallb filter]; [tauto|].
  destruct (alive (chars w c)); cbn [negb andb].
  - split; discriminate.
  - exact IH.
Qed.

(** The team [_choose_target] picks from. *)
Definition target_team_of (f : ref) g w : Team :=
  if (ch_team_id (chars w f) =? team_id (team_a g))%string then team_b g else team_a g.

(** What [_choose_target] returns. *)
Lemma _choose_target_spec f g w :
  (fst (_choose_target f g w) = None <-> is_defeated (target_team_of f g w) w = true)
  /\ (forall t, fst (_choose_target f g w) = Some t ->
        In t (characters (target_team_of f g w)) /\ alive (chars w t) = true)
  /\ same_objects w (snd (_choose_target f g w)).
Proof.
  refine (conj _ (conj _ (_choose_target_objects f g w))).
  - rewrite is_defeated_no_alive. unfold _choose_target, target_team_of.
    destruct (get_alive_characters _ w) as [|c cs].
    + cbn. split; reflexivity.
    + destruct (choice c (c :: cs) w). cbn. split; discriminate.
  - intros t. unfold _choose_target, target_team_of.
    destruct (get_alive_characters _ w) as [|c cs] eqn:E; [discriminate|].
    pose proof (choice_In c cs w) as Hin.
    destruct (choice c (c :: cs) w) as [t' w']. cbn [fst] in *. intros [= <-].
    rewrite <- E in Hin. unfold get_alive_characters in Hin.
    apply filter_In in Hin. exact Hin.
Qed.

(** X5.  [_choose_target] returns no target exactly when the team it picks
    from is defeated; a target it returns is a living member of that team.
    It changes no object. *)
Theorem _choose_target_living_enemy f g w :
  (fst (_choose_target f g w) = None <-> is_defeated (target_team_of f g w) w = true)
  /\ (forall t, fst (_choose_target f g w) = Some t ->
        In t (characters (target_team_of f g w)) /\ alive (chars w t) = true)
  /\ same_objects w (snd (_choose_target f g w)).
Proof. exact (_choose_target_spec f g w). Qed.


(** ** What an action leaves alone *)

Definition same_but_health (x y : Character) : Prop :=
  set_alive true (set_current_hp 0 y) = set_alive true (set_current_hp 0 x).

(** X6.  An action that returns changes no effect and at most one
    character, and of that character only the health and the alive flag:
    the status effect of a used ability is not attached by the action, and
    attack, defense and the lists of every character are as before.  An
    action raises nothing but OverflowError, and that only for a fighter
    whose attack [float] does not convert. *)
Theorem action_changes_health_of_one_only f g w :
  match _perform_action uuid4 f g w with
  | Ok (_, _, w1) =>
      effects w1 = effects w
      /\ exists t, (forall c, c <> t -> chars w1 c = chars w c)
                   /\ same_but_health (chars w t) (chars w1 t)
  | Raise e => e = OverflowError /\ ~ fits (attack (chars w f))
  end.
Proof.
  destruct (_perform_action uuid4 f g w) as [[[d g1] w1]|e] eqn:Hact;
    [|now apply _perform_action_raises in Hact].
  apply _perform_action_effect in Hact.
  destruct Hact as [_ _ _ _ _ _ _ Heff _ Hch]. split; [exact Heff|].
  destruct Hch as [Hch|(t & v & _ & Hch)].
  - exists f. rewrite Hch. split; [reflexivity|]. reflexivity.
  - exists t. rewrite Hch. split.
    + intros c Hne. now apply take_damage_other.
    + rewrite chars_take_damage_same. unfold same_but_health.
      destruct (_ <=? 0); reflexivity.
Qed.

(** ** The flush, in general *)

Definition entry_events (entry : LogEntry) : list string :=
  match entry with
  | TurnRecord td => match td_events td with Some l => l | None => [] end
  | ResultRecord _ _ evs => match evs with Some l => l | None => [] end
  end.

Definition record_events (queue : list Event) (entry : LogEntry) : LogEntry :=
  fold_left (fun entry0 ev => record_event (Event_str ev) entry0) queue entry.

Lemma record_event_events (s : string) (entry : LogEntry) :
  entry_events (record_event s entry) = entry_events entry ++ [s].
Proof.
  destruct entry as [td|r n evs]; cbn [record_event entry_events td_events].
  - destruct (td_events td); reflexivity.
  - destruct evs; reflexivity.
Qed.

Lemma record_events_events (queue : list Event) : forall entry : LogEntry,
  entry_events (record_events queue entry) = entry_events entry ++ map Event_str queue.
Proof.
  unfold record_events.
  induction queue as [|ev rest IH]; intros entry; cbn [fold_left map].
  - now rewrite app_nil_r.
  - rewrite IH, record_event_events, <- app_assoc. reflexivity.
Qed.

Lemma flush_events_last queue : forall l (entry : LogEntry) w,
  flush_events queue (l ++ [entry]) w
  = Ok (l ++ [record_events queue entry],
        fold_left (fun w0 ev => process ev w0) queue w).
Proof.
  unfold record_events.
  induction queue as [|ev rest IH]; intros l entry w; cbn [flush_events fold_left].
  - reflexivity.
  - rewrite update_last_snoc. apply IH.
Qed.

(** The three cases of [_process_events]. *)
Lemma _process_events_spec g w :
  (event_log g = [] -> _process_events g w = Ok (g, w))
  /\ (event_log g <> [] -> turn_log g = [] -> _process_events g w = Raise IndexError)
  /\ (forall l (entry : LogEntry), turn_log g = l ++ [entry] ->
        exists entry' : LogEntry,
          _process_events g w
          = Ok (set_turn_log (l ++ [entry']) (set_event_log [] g),
                fold_left (fun w0 ev => process ev w0) (event_log g) w)
          /\ entry_events entry' = entry_events entry ++ map Event_str (event_log g)).
Proof.
  unfold _process_events. refine (conj _ (conj _ _)).
  - intros E. rewrite E. cbn. destruct g. cbn in *. now subst.
  - intros Hq Hl. rewrite Hl. destruct (event_log g) as [|ev rest]; [contradiction|].
    reflexivity.
  - intros l entry Hl. rewrite Hl, flush_events_last. cbn [bind].
    exists (record_events (event_log g) entry). split; [reflexivity|].
    apply record_events_events.
Qed.

(** X7.  [_process_events] with an empty queue changes nothing; with
    events queued and an empty log it raises IndexError; otherwise it
    applies the events first to last, empties the queue, and adds their
    strings, first to last, after the events the last entry of the log
    already lists, leaving the entries before it as they are. *)
Theorem _process_events_behaviour g w :
  (event_log g = [] -> _process_events g w = Ok (g, w))
  /\ (event_log g <> [] -> turn_log g = [] -> _process_events g w = Raise IndexError)
  /\ (forall l (entry : LogEntry), turn_log g = l ++ [entry] ->
        exists entry' : LogEntry,
          _process_events g w
          = Ok (set_turn_log (l ++ [entry']) (set_event_log [] g),
                fold_left (fun w0 ev => process ev w0) (event_log g) w)
          /\ entry_events entry' = entry_events entry ++ map Event_str (event_log g)).
Proof. exact (_process_events_spec g w). Qed.


(** ** The events of a turn *)

(** X8.  A turn that starts with an empty queue and returns ends with an
    empty queue: the events its actions queued are all applied at its flush,
    in the order in which they were queued, and the record of the turn lists
    exactly their strings, in that order.  Such a turn raises nothing but the
    OverflowError of an action, which takes a buff or an attack that [float]
    does not convert; with neither it returns. *)
Theorem turn_flushes_its_events g w :
  event_log g = [] ->
  match turn uuid4 g w with
  | Ok (g', w') =>
      event_log g' = []
      /\ exists acts g2 w2,
           action_phase g w = Ok (acts, g2, w2)
           /\ w' = fold_left (fun w0 ev => process ev w0) (event_log g2) w2
           /\ forall td, turn_log g' = turn_log g ++ [TurnRecord td] ->
                entry_events (TurnRecord td) = map Event_str (event_log g2)
  | Raise e => e = OverflowError /\ ~ attacks_safe w
  end.
Proof.
  intros Hq.
  destruct (turn uuid4 g w) as [[g' w']|e] eqn:Hturn; [|now apply turn_raises in Hturn].
  destruct (_get_all_alive_characters g (status_world g w)) as [|f0 fs] eqn:Efs.
  - rewrite (turn_no_fighter g w Efs) in Hturn. injection Hturn as <- <-.
    cbn [event_log set_battle_over set_turn_count turn_log].
    split; [exact Hq|].
    unfold action_phase, fighters_of_turn. rewrite Efs.
    cbn [sort_fighters fold_right action_loop].
    do 3 eexists. split; [reflexivity|].
    cbn [event_log set_turn_count]. rewrite Hq. cbn [fold_left].
    split; [reflexivity|].
    intros td Htd. rewrite <- (app_nil_r (turn_log g)) in Htd at 1.
    apply app_inv_head in Htd. discriminate.
  - rewrite turn_with_fighters in Hturn by (rewrite Efs; discriminate).
    destruct (action_phase g w) as [[[acts g2] w2]|] eqn:Ephase; [|discriminate].
    cbn [bind] in Hturn.
    pose proof Ephase as Hframe. unfold action_phase in Hframe.
    apply action_loop_frame in Hframe. destruct Hframe as [(_ & _ & Hlog & _) _].
    cbn [turn_log set_turn_count] in Hlog.
    set (g3 := set_turn_log _ g2) in Hturn.
    destruct (_process_events_spec g3 w2) as (_ & _ & Hflush).
    destruct (Hflush (turn_log g2) _ eq_refl) as (entry' & Hrun & Hevents).
    rewrite Hrun in Hturn. injection Hturn as <- <-.
    cbn [event_log turn_log set_turn_log set_event_log g3]. split; [reflexivity|].
    exists acts, g2, w2. split; [reflexivity|]. split; [reflexivity|].
    intros td Htd. rewrite Hlog in Htd.
    apply app_inv_head in Htd. injection Htd as Htd. rewrite <- Htd, Hevents.
    reflexivity.
Qed.

(** ** The shape of the log *)

(** Turn records numbered [k], [k + 1], ..., each with at least one
    action. *)
Fixpoint numbered_from (k : Z) (l : list LogEntry) : Prop :=
  match l with
  | [] => True
  | entry :: l' =>
      (exists td, entry = TurnRecord td /\ turn_number td = k /\ actions td <> [])
      /\ numbered_from (k + 1) l'
  end.

Lemma numbered_from_app (l1 l2 : list LogEntry) : forall k,
  numbered_from k l1 -> numbered_from (k + Z.of_nat (length l1)) l2 ->
  numbered_from k (l1 ++ l2).
Proof.
  induction l1 as [|x l1 IH]; intros k H1 H2; cbn [app length numbered_from] in *.
  - now rewrite Z.add_0_r in H2.
  - destruct H1 as [Hx H1]. split; [exact Hx|]. apply IH; [exact H1|].
    replace (k + 1 + Z.of_nat (length l1)) with (k + Z.of_nat (S (length l1))) by lia.
    exact H2.
Qed.

Lemma insert_fighter_head w c l : exists h rest, insert_fighter w c l = h :: rest.
Proof. destruct l; cbn [insert_fighter]; [|destruct (key_leb _ _)]; eauto. Qed.

(** With a living fighter the action loop records at least one action. *)
Lemma action_phase_acts g w acts g2 w2 :
  _get_all_alive_characters g (status_world g w) <> [] ->
  action_phase g w = Ok (acts, g2, w2) -> acts <> [].
Proof.
  intros Hne. unfold action_phase.
  assert (Halive : forall f, In f (fighters_of_turn g w) ->
                             alive (chars (status_world g w) f) = true).
  { intros f Hf. unfold fighters_of_turn in Hf. apply sort_fighters_In in Hf.
    unfold _get_all_alive_characters, get_alive_characters in Hf.
    apply in_app_iff in Hf. destruct Hf as [Hf|Hf]; apply filter_In in Hf; tauto. }
  assert (Hhead : exists h rest, fighters_of_turn g w = h :: rest).
  { unfold fighters_of_turn.
    destruct (_get_all_alive_characters g (status_world g w)) as [|f0 fs];
      [contradiction|].
    cbn [sort_fighters fold_right]. apply insert_fighter_head. }
  destruct Hhead as (h & rest & Hh). rewrite Hh in *. cbn [action_loop].
  rewrite (Halive h (or_introl eq_refl)). cbn [negb].
  destruct (_perform_action uuid4 h _ _) as [[[d g1] w1]|]; [|discriminate].
  cbn [bind].
  destruct (is_defeated (team_a g1) w1 || is_defeated (team_b g1) w1);
    [intros [= <- _ _]; discriminate|].
  destruct (action_loop uuid4 rest g1 w1) as [[[acts3 g3] w3]|]; [|discriminate].
  cbn [bind]. intros [= <- _ _]. discriminate.
Qed.

(** What the loop appends, counted. *)
Lemma battle_loop_numbered fuel : forall g w g' w',
  battle_loop uuid4 fuel g w = Ok (g', w') ->
  exists turns,
    turn_log g' = turn_log g ++ turns
    /\ numbered_from (turn_count g + 1) turns
    /\ (turn_count g' = turn_count g + Z.of_nat (length turns)
        \/ (turn_count g' = turn_count g + Z.of_nat (length turns) + 1
            /\ is_defeated (team_a g') w' = true /\ is_defeated (team_b g') w' = true)).
Proof.
  assert (Hstop : forall g w g' w',
             Ok (g, w) = Ok (g', w') ->
             exists turns : list LogEntry,
               turn_log g' = turn_log g ++ turns
               /\ numbered_from (turn_count g + 1) turns
               /\ (turn_count g' = turn_count g + Z.of_nat (length turns)
                   \/ (turn_count g' = turn_count g + Z.of_nat (length turns) + 1
                       /\ is_defeated (team_a g') w' = true
                       /\ is_defeated (team_b g') w' = true))).
  { intros g w g' w' [= <- <-]. exists []. rewrite app_nil_r. cbn. split; [reflexivity|].
    split; [exact I|]. left. lia. }
  induction fuel as [|fuel IH]; intros g w g' w'; cbn [battle_loop];
    destruct (negb (battle_over g) && (turn_count g <? max_turns)) eqn:Hcond;
    try discriminate; try apply Hstop.
  destruct (turn uuid4 g w) as [[g1 w1]|] eqn:Hturn; [|discriminate]. cbn [bind].
  intros Hloop. pose proof (turn_effect_of _ _ _ _ Hturn) as Heff.
  pose proof (turn_world _ _ _ _ Hturn) as (acts0 & g20 & w20 & Ephase & _).
  destruct Heff as [Ha Hb Hcnt Hlog _].
  destruct (_get_all_alive_characters g (status_world g w)) as [|f0 fs] eqn:Efs.
  - (* no fighter: the loop stops here *)
    rewrite (turn_no_fighter g w Efs) in Hturn. injection Hturn as <- <-.
    destruct fuel; cbn [battle_loop battle_over set_battle_over negb andb] in Hloop;
      injection Hloop as <- <-.
    all: exists []; rewrite app_nil_r; cbn [length numbered_from turn_log
           set_battle_over set_turn_count turn_count team_a team_b];
         (split; [reflexivity|]); (split; [exact I|]); right;
         apply no_fighter_both_defeated in Efs; destruct Efs as [Hda Hdb];
         (split; [lia|]); split; assumption.
  - destruct Hlog as (td & Hlog & Hnum & Hacts & _).
    cbn [turn_number actions] in Hnum, Hacts.
    apply IH in Hloop. destruct Hloop as (turns & Hlog' & Hnumbered & Hcount).
    exists (TurnRecord td :: turns). split.
    + rewrite Hlog', Hlog, <- app_assoc. reflexivity.
    + split.
      * cbn [numbered_from]. split.
        -- exists td. split; [reflexivity|]. split; [exact Hnum|].
           rewrite Hacts. intros Hnil. apply map_eq_nil in Hnil.
           unfold turn_actions in Hnil. rewrite Ephase in Hnil.
           apply (action_phase_acts g w _ _ _ ltac:(rewrite Efs; discriminate) Ephase).
           exact Hnil.
        -- rewrite Hcnt in Hnumbered. exact Hnumbered.
      * cbn [length]. rewrite Nat2Z.inj_succ. destruct Hcount as [Hc|(Hc & Hd)].
        -- left. lia.
        -- right. split; [lia|exact Hd].
Qed.

(** X9.  The log of the run of a new engine, when the run returns, is a
    list of turn records numbered 1, 2, ... without a gap, each with at
    least one action, followed by the result record.  The turn number of
    the result record is the number of turn records, or one more; it is one
    more only when the last turn ended in its status phase with nobody
    alive, and the result is then the draw.  (A run that does not return
    raised the OverflowError of an action.) *)
Theorem log_is_numbered (ta tb : Team) (random_seed : option Z) w :
  match run_battle uuid4 (fst (GameEngine_init ta tb random_seed w))
          (snd (GameEngine_init ta tb random_seed w)) with
  | Ok (g', w') =>
      exists turns text,
        get_confrontation_log g' = turns ++ [ResultRecord text (turn_count g') None]
        /\ numbered_from 1 turns
        /\ (turn_count g' = Z.of_nat (length turns)
            \/ (turn_count g' = Z.of_nat (length turns) + 1
                /\ text = "Draw: Both teams defeated."))
  | Raise e => e = OverflowError /\ ~ attacks_safe w
  end.
Proof.
  pose proof (run_battle_outcome ta tb random_seed w) as Hrun. cbv zeta in Hrun.
  destruct (run_battle uuid4 _ _) as [[g' w1]|e]; [|exact Hrun].
  destruct Hrun as (g1 & Hloop & ->).
  apply battle_loop_numbered in Hloop. destruct Hloop as (turns & Hlog & Hnum & Hcount).
  cbn [GameEngine_init fst turn_log turn_count app] in *.
  exists turns. eexists.
  unfold get_confrontation_log, _log_battle_result. cbn [turn_log turn_count set_turn_log].
  rewrite Hlog. split; [reflexivity|]. split; [exact Hnum|].
  destruct Hcount as [Hc|(Hc & Hda & Hdb)]; [left; lia|right].
  split; [lia|]. now rewrite Hda, Hdb.
Qed.

(** X10.  Calling [run_battle] again on the engine a run has returned does
    not run any turn: it returns the same store and appends one more result
    record, equal to the one the log already ends with.  (A first run that
    does not return raised the OverflowError of an action.) *)
Theorem second_run_repeats_the_result (ta tb : Team) (random_seed : option Z) w :
  match run_battle uuid4 (fst (GameEngine_init ta tb random_seed w))
          (snd (GameEngine_init ta tb random_seed w)) with
  | Ok (g1, w1) =>
      exists l last,
        turn_log g1 = l ++ [last]
        /\ exists g2, run_battle uuid4 g1 w1 = Ok (g2, w1)
                      /\ turn_log g2 = l ++ [last; last]
                      /\ set_turn_log [] g2 = set_turn_log [] g1
  | Raise e => e = OverflowError /\ ~ attacks_safe w
  end.
Proof.
  pose proof (run_battle_outcome ta tb random_seed w) as Hrun. cbv zeta in Hrun.
  destruct (run_battle uuid4 _ _) as [[g' w1]|e]; [|exact Hrun].
  destruct Hrun as (g1 & Hloop & ->).
  apply battle_loop_effect in Hloop. destruct Hloop as (turns & Heff).
  destruct Heff as [_ _ _ _ _ _ Hrunning _].
  exists (turn_log g1). eexists. split; [reflexivity|].
  assert (Hcond : negb (battle_over g1) && (turn_count g1 <? max_turns) = false).
  { destruct (battle_over g1); [reflexivity|]. cbn [negb andb].
    apply Z.ltb_ge. now apply Hrunning. }
  unfold run_battle, _log_battle_result.
  cbn [turn_count set_turn_log battle_over team_a team_b turn_log].
  assert (Hstay : forall fuel log,
             battle_loop uuid4 fuel (set_turn_log log g1) w1
             = Ok (set_turn_log log g1, w1)).
  { intros fuel log. destruct fuel; cbn [battle_loop battle_over turn_count set_turn_log];
      rewrite Hcond; reflexivity. }
  rewrite Hstay. cbn [bind]. eexists. split; [reflexivity|].
  cbn [turn_log set_turn_log team_a team_b turn_count event_log battle_over].
  split; [|reflexivity]. rewrite <- app_assoc. reflexivity.
Qed.

(** ** Rearranging a formation *)

Definition assign_position w (p : ref * Z) : World R :=
  set_char (fst p) (set_position (snd p) (chars w (fst p))) w.

Lemma assign_positions_spec (cs : list ref) : forall (ns : list Z) w,
  NoDup cs -> length ns = length cs ->
  let w' := fold_left assign_position (combine cs ns) w in
  map (fun c => position (chars w' c)) cs = ns
  /\ (forall c, ~ In c cs -> chars w' c = chars w c)
  /\ (forall c, set_position 0 (chars w' c) = set_position 0 (chars w c))
  /\ effects w' = effects w /\ ability_objs w' = ability_objs w.
Proof.
  induction cs as [|c0 cs IH]; intros ns w Hnd Hlen; destruct ns as [|n0 ns];
    try discriminate; cbn [combine fold_left map].
  - cbn. auto.
  - apply NoDup_cons_iff in Hnd. destruct Hnd as [Hnotin Hnd].
    injection Hlen as Hlen.
    specialize (IH ns (assign_position w (c0, n0)) Hnd Hlen). cbv zeta in IH.
    destruct IH as (Hmap & Hother & Hsame & He & Ha).
    refine (conj _ (conj _ (conj _ (conj _ _)))).
    + f_equal; [|exact Hmap]. rewrite (Hother c0 Hnotin).
      unfold assign_position. cbn [fst snd chars set_char]. now rewrite upd_same.
    + intros c Hc. rewrite Hother by (intros Hin; apply Hc; now right).
      unfold assign_position. cbn [fst snd chars set_char]. apply upd_other.
      intros ->. apply Hc. now left.
    + intros c. rewrite Hsame. unfold assign_position. cbn [fst snd chars set_char].
      unfold upd. destruct (Nat.eqb_spec c c0); [subst c|]; reflexivity.
    + rewrite He. reflexivity.
    + rewrite Ha. reflexivity.
Qed.

(** X11.  With a new order as long as the roster, and no character listed
    twice in the roster, [rearrange_formation] makes the formation the new
    order and gives the i-th member the i-th position: formation and
    positions agree afterwards.  Nothing else changes: the roster, the
    other fields of the members, the other characters, effects and
    abilities. *)
Theorem rearrange_formation_assigns (t : Team) (new_order : list Z) w :
  NoDup (characters t) ->
  length new_order = length (characters t) ->
  let r := rearrange_formation t new_order w in
  formation (fst r) = new_order
  /\ map (fun c => position (chars (snd r) c)) (characters (fst r)) = new_order
  /\ characters (fst r) = characters t /\ team_id (fst r) = team_id t
  /\ (forall c, ~ In c (characters t) -> chars (snd r) c = chars w c)
  /\ (forall c, set_position 0 (chars (snd r) c) = set_position 0 (chars w c))
  /\ effects (snd r) = effects w /\ ability_objs (snd r) = ability_objs w.
Proof.
  intros Hnd Hlen. cbv zeta. unfold rearrange_formation.
  rewrite Hlen, Nat.eqb_refl. cbn [negb fst snd formation set_formation characters team_id].
  destruct (assign_positions_spec (characters t) new_order w Hnd Hlen)
    as (Hmap & Hother & Hsame & He & Ha).
  refine (conj eq_refl (conj Hmap (conj eq_refl (conj eq_refl
           (conj Hother (conj Hsame (conj He Ha))))))).
Qed.

(** ** Nobody comes back *)

Definition no_revival w w' : Prop :=
  forall c, alive (chars w' c) = true -> alive (chars w c) = true.

Lemma no_revival_refl w : no_revival w w.
Proof. intros c H. exact H. Qed.

Lemma no_revival_trans w1 w2 w3 :
  no_revival w1 w2 -> no_revival w2 w3 -> no_revival w1 w3.
Proof. intros H12 H23 c H. auto. Qed.

Lemma status_phase_no_revival g w : no_revival w (snd (_process_status_effects g w)).
Proof.
  intros c Hc.
  destruct (in_dec Nat.eq_dec c (_get_all_alive_characters g w)) as [Hin|Hnot].
  - unfold _get_all_alive_characters, get_alive_characters in Hin.
    apply in_app_iff in Hin. destruct Hin as [Hin|Hin]; apply filter_In in Hin; exact (proj2 Hin).
  - unfold _process_status_effects in Hc. now rewrite status_loop_other in Hc.
Qed.

Lemma action_loop_no_revival fighters g w acts g' w' :
  action_loop uuid4 fighters g w = Ok (acts, g', w') -> no_revival w w'.
Proof.
  intros H.
  refine (proj1 (action_loop_invariant (fun _ w1 => no_revival w w1)
                   (fun _ _ => True) _ _ _ _ _ _ _ _ _ _ H)).
  - intros f g0 w0 H0 c. rewrite tick_abilities_chars. apply H0.
  - intros f g0 w0 d g1 w1 H0 Hact. split; [|exact I].
    apply _perform_action_effect in Hact.
    eapply no_revival_trans; [exact H0|]. intros c. eapply action_effect_alive; eauto.
  - auto.
  - apply no_revival_refl.
Qed.

Lemma turn_no_revival g w g' w' : turn uuid4 g w = Ok (g', w') -> no_revival w w'.
Proof.
  intros Hturn. apply turn_world in Hturn.
  destruct Hturn as (acts & g2 & w2 & E & _ & _ & _ & Hflush).
  eapply no_revival_trans; [|exact Hflush].
  unfold action_phase in E. apply action_loop_no_revival in E.
  eapply no_revival_trans; [|exact E]. apply status_phase_no_revival.
Qed.

Lemma battle_loop_no_revival fuel : forall g w g' w',
  battle_loop uuid4 fuel g w = Ok (g', w') -> no_revival w w'.
Proof.
  induction fuel as [|fuel IH]; intros g w g' w'; cbn [battle_loop];
    destruct (negb (battle_over g) && (turn_count g <? max_turns));
    try discriminate; try (intros [= <- <-]; apply no_revival_refl).
  destruct (turn uuid4 g w) as [[g1 w1]|] eqn:Hturn; [|discriminate].
  cbn [bind]. intros Hloop. eapply no_revival_trans; [eapply turn_no_revival|]; eauto.
Qed.

(** X12.  The engine never revives anybody: a character that is not alive
    when the status phase, a turn or the run starts is not alive when it
    ends (although [heal] by itself does set the flag of a dead character
    whose health it makes positive). *)
Theorem run_never_revives g w :
  no_revival w (snd (_process_status_effects g w))
  /\ match turn uuid4 g w with
     | Ok (_, w') => no_revival w w'
     | Raise _ => True
     end
  /\ match run_battle uuid4 g w with
     | Ok (_, w') => no_revival w w'
     | Raise _ => True
     end.
Proof.
  split; [apply status_phase_no_revival|]. split.
  - destruct (turn uuid4 g w) as [[g1 w1]|] eqn:E; [|exact I].
    eapply turn_no_revival; eauto.
  - unfold run_battle.
    destruct (battle_loop uuid4 _ g w) as [[g1 w1]|] eqn:E; [|exact I].
    cbn [bind]. eapply battle_loop_no_revival; eauto.
Qed.

(** ** Empty squads *)

(** X13.  When neither team has a member, the run of a new engine executes
    no action: the first turn finds nobody alive, and the log is the draw
    record alone, with turn number 1; the store is as the constructor left
    it. *)
Theorem empty_squads_draw (ida idb : string) (fa fb : list Z) (random_seed : option Z) w :
  let start := GameEngine_init (mkTeam ida [] fa) (mkTeam idb [] fb) random_seed w in
  exists g',
    run_battle uuid4 (fst start) (snd start) = Ok (g', snd start)
    /\ get_confrontation_log g' = [ResultRecord "Draw: Both teams defeated." 1 None]
    /\ battle_over g' = true.
Proof.
  cbv zeta. unfold run_battle. cbn [GameEngine_init fst snd turn_count].
  change (Z.to_nat (max_turns - 0)) with (S 99). cbn [battle_loop battle_over turn_count].
  change (negb false && (0 <? max_turns)) with true. cbv iota.
  rewrite turn_no_fighter by reflexivity.
  cbn [bind battle_loop battle_over set_battle_over negb andb].
  eexists. split; [reflexivity|]. split; reflexivity.
Qed.

(** ** The alive flag and the health *)

(** Alive exactly with positive health, on top of [healthy]. *)
Definition alive_iff_health w : Prop :=
  forall c, alive (chars w c) = (0 <? current_hp (chars w c)).

Definition sound w : Prop := healthy w /\ alive_iff_health w.

Lemma sound_ext w w' :
  chars w' = chars w -> effects w' = effects w -> sound w -> sound w'.
Proof.
  intros Hc He [Hh Ha]. split; [eapply healthy_ext; eauto|].
  intros c. rewrite Hc. apply Ha.
Qed.

Lemma take_damage_sound c (v : Z) w : 0 <= v -> sound w -> sound (take_damage c v w).
Proof.
  intros Hv [Hh Ha]. split; [now apply take_damage_healthy|].
  intros c'. specialize (Ha c'). destruct Hh as [Hb _]. specialize (Hb c').
  destruct (Nat.eq_dec c' c) as [->|Hne].
  - rewrite chars_take_damage_same.
    destruct (Z.leb_spec (current_hp (chars w c) - v) 0); cbn.
    + reflexivity.
    + rewrite Ha. destruct (Z.ltb_spec 0 (current_hp (chars w c)));
        destruct (Z.ltb_spec 0 (current_hp (chars w c) - v)); auto; lia.
  - now rewrite take_damage_other.
Qed.

Lemma chars_heal_same c (v : Z) w :
  chars (heal c v w) c =
  let hp := Z.min (current_hp (chars w c) + v) (max_hp (chars w c)) in
  if 0 <? hp then set_alive true (set_current_hp hp (chars w c))
  else set_current_hp hp (chars w c).
Proof.
  cbv zeta. unfold heal. destruct (0 <? _); cbn [chars set_char]; apply upd_same.
Qed.

Lemma heal_sound c (v : Z) w : 0 <= v -> sound w -> sound (heal c v w).
Proof.
  intros Hv [Hh Ha]. split; [now apply heal_healthy|].
  intros c'. specialize (Ha c'). destruct Hh as [Hb _]. specialize (Hb c').
  destruct (Nat.eq_dec c' c) as [->|Hne].
  - rewrite chars_heal_same. cbv zeta.
    destruct (Z.ltb_spec 0 (Z.min (current_hp (chars w c) + v) (max_hp (chars w c))))
      as [Hpos|Hneg]; cbn.
    + symmetry. now apply Z.ltb_lt.
    + rewrite Ha.
      destruct (Z.ltb_spec 0 (current_hp (chars w c)));
        destruct (Z.ltb_spec 0 (Z.min (current_hp (chars w c) + v) (max_hp (chars w c))));
        auto; lia.
  - now rewrite heal_other.
Qed.

(** Solves [sound] of a store in which a character was replaced by a copy
    with the same health and flag. *)
Ltac solve_sound c :=
  match goal with
  | H : sound _ |- _ =>
      let Hh := fresh "Hh" in let Ha := fresh "Ha" in
      destruct H as [Hh Ha]; split;
      [ destruct Hh as [Hb [Hatk Hval]]; solve_healthy Hb Hatk Hval c
      | intros c'; specialize (Ha c'); cbn [chars set_char]; unfold upd;
        destruct (Nat.eqb_spec c' c); [subst c'|]; cbn; exact Ha ]
  end.

Lemma apply_effect_sound e c w : sound w -> sound (apply_effect e c w).
Proof.
  intros Hs. pose proof Hs as [[_ [_ Hv]] _]. pose proof (Hv e) as Hve.
  unfold apply_effect.
  destruct (_ =? "poison")%string; [now apply take_damage_sound|].
  destruct (_ =? "heal")%string; [now apply heal_sound|].
  destruct (_ =? "buff")%string; [solve_sound c|].
  destruct (_ =? "debuff")%string; [solve_sound c|exact Hs].
Qed.

Lemma tick_sound e w : sound w -> sound (tick e w).
Proof. intros [Hh Ha]. split; [now apply tick_healthy|exact Ha]. Qed.

Lemma apply_status_effects_sound c held : forall w,
  sound w -> sound (snd (apply_status_effects c held w)).
Proof.
  induction held as [|e rest IH]; intros w Hs; cbn [apply_status_effects]; [exact Hs|].
  specialize (IH (tick e (apply_effect e c w))).
  destruct (apply_status_effects c rest _) as [logs w3]. cbn [snd] in *.
  apply IH. apply tick_sound. now apply apply_effect_sound.
Qed.

Lemma process_status_effects_sound c w : sound w -> sound (snd (process_status_effects c w)).
Proof.
  intros Hs. unfold process_status_effects.
  pose proof (apply_status_effects_sound c (status_effects (chars w c)) w Hs) as H.
  destruct (apply_status_effects c _ w) as [logs w1]. cbn [snd] in *.
  solve_sound c.
Qed.

Lemma status_loop_sound cs : forall w, sound w -> sound (snd (status_loop cs w)).
Proof.
  induction cs as [|c rest IH]; intros w Hs; cbn [status_loop]; [exact Hs|].
  pose proof (process_status_effects_sound c w Hs) as H.
  destruct (process_status_effects c w) as [l1 w1]. cbn [snd] in H.
  specialize (IH w1 H). destruct (status_loop rest w1) as [l2 w2]. exact IH.
Qed.

Lemma action_effect_sound f g w d g1 w1 :
  action_effect f g w d g1 w1 -> sound w -> events_ok g -> sound w1 /\ events_ok g1.
Proof.
  intros Hact Hs Hok. pose proof Hs as [Hh _].
  split; [|exact (proj2 (action_effect_healthy _ _ _ _ _ _ Hact Hh Hok))].
  destruct Hact as [_ _ _ _ _ _ _ Heff _ Hch].
  destruct Hch as [Hch|(t & v & Hv & Hch)].
  - eapply sound_ext; eauto.
  - apply (sound_ext (take_damage t v w)).
    + exact Hch.
    + now rewrite take_damage_effects.
    + apply take_damage_sound; [|exact Hs].
      destruct Hh as [_ [Ha _]]. specialize (Hv (Ha f)). lia.
Qed.

Lemma process_sound ev w : nonneg_extra ev -> sound w -> sound (process ev w).
Proof.
  intros Hev Hs. destruct ev as [i s atk t x|i s atk t|i s u a [t|]]; cbn [process].
  - now apply take_damage_sound.
  - exact Hs.
  - destruct (effect (ability_objs w a)) as [e|]; [|exact Hs].
    unfold add_status_effect. solve_sound t.
  - destruct (effect (ability_objs w a)); exact Hs.
Qed.

Lemma process_all_sound queue : forall w,
  Forall nonneg_extra queue -> sound w ->
  sound (fold_left (fun w0 ev => process ev w0) queue w).
Proof.
  induction queue as [|ev rest IH]; intros w Hall Hs; cbn [fold_left]; [exact Hs|].
  apply Forall_cons_iff in Hall. destruct Hall as [Hev Hall].
  apply IH; [exact Hall|]. now apply process_sound.
Qed.

Lemma action_loop_sound fighters g w acts g' w' :
  action_loop uuid4 fighters g w = Ok (acts, g', w') ->
  sound w -> events_ok g -> sound w' /\ events_ok g'.
Proof.
  intros H Hs Hok.
  refine (proj1 (action_loop_invariant (fun g1 w1 => sound w1 /\ events_ok g1)
                   (fun _ _ => True) _ _ _ _ _ _ _ _ _ _ H)).
  - intros f g0 w0 [Hs0 Hok0]. split; [|exact Hok0].
    eapply sound_ext; [apply tick_abilities_chars|apply tick_abilities_effects|exact Hs0].
  - intros f g0 w0 d g1 w1 [Hs0 Hok0] Hact. split; [|exact I].
    apply _perform_action_effect in Hact. eapply action_effect_sound; eauto.
  - intros g0 w0 [Hs0 Hok0] _. split; [exact Hs0|exact Hok0].
  - auto.
Qed.

Lemma turn_sound g w g' w' :
  turn uuid4 g w = Ok (g', w') -> sound w -> events_ok g -> sound w' /\ events_ok g'.
Proof.
  intros Hturn Hs Hok.
  assert (Hok' : events_ok g')
    by exact (proj2 (turn_healthy _ _ _ _ Hturn (proj1 Hs) Hok)).
  split; [|exact Hok'].
  assert (Hst : sound (status_world g w)) by (apply status_loop_sound; exact Hs).
  destruct (_get_all_alive_characters g (status_world g w)) as [|f0 fs] eqn:Efs.
  - rewrite (turn_no_fighter g w Efs) in Hturn. injection Hturn as _ <-. exact Hst.
  - rewrite turn_with_fighters in Hturn by (rewrite Efs; discriminate).
    destruct (action_phase g w) as [[[acts g2] w2]|] eqn:Ephase; [|discriminate].
    cbn [bind] in Hturn. unfold action_phase in Ephase.
    apply action_loop_sound in Ephase; [|exact Hst|exact Hok].
    destruct Ephase as [Hs2 Hok2].
    destruct (_process_events_spec
                (set_turn_log
                   (turn_log g2 ++ [TurnRecord (mkTurnDetails (turn_count g + 1)
                                                  (map snd acts) (status_key g w) None)]) g2)
                w2) as (_ & _ & Hflush).
    destruct (Hflush (turn_log g2) _ eq_refl) as (entry' & Hrun & _).
    rewrite Hrun in Hturn. injection Hturn as _ <-.
    apply process_all_sound; assumption.
Qed.

Lemma battle_loop_sound fuel : forall g w g' w',
  battle_loop uuid4 fuel g w = Ok (g', w') -> sound w -> events_ok g ->
  sound w' /\ events_ok g'.
Proof.
  induction fuel as [|fuel IH]; intros g w g' w'; cbn [battle_loop];
    destruct (negb (battle_over g) && (turn_count g <? max_turns));
    try discriminate; try (intros [= <- <-]; auto).
  destruct (turn uuid4 g w) as [[g1 w1]|] eqn:Hturn; [|discriminate].
  cbn [bind]. intros Hloop Hs Hok.
  destruct (turn_sound _ _ _ _ Hturn Hs Hok) as [Hs1 Hok1]. eauto.
Qed.

(** X14.  From a store in which, besides the conditions of [healthy],
    every character is alive exactly when its health is positive, and with
    no negative extra damage queued, this is so again after the status phase,
    after a turn and after the run: the dead are the characters with health
    0, and a team is defeated exactly when all its members have health 0. *)
Theorem alive_means_positive_health g w :
  sound w -> events_ok g ->
  alive_iff_health (snd (_process_status_effects g w))
  /\ (forall g1 w1, turn uuid4 g w = Ok (g1, w1) -> alive_iff_health w1)
  /\ (forall g1 w1, run_battle uuid4 g w = Ok (g1, w1) ->
        alive_iff_health w1
        /\ forall t : Team,
             is_defeated t w1 = true
             <-> forall c, In c (characters t) -> current_hp (chars w1 c) = 0).
Proof.
  intros Hs Hok. refine (conj _ (conj _ _)).
  - apply status_loop_sound. exact Hs.
  - intros g1 w1 H. exact (proj2 (proj1 (turn_sound _ _ _ _ H Hs Hok))).
  - intros g1 w1. unfold run_battle.
    destruct (battle_loop uuid4 _ g w) as [[g2 w2]|] eqn:Hloop; [|discriminate].
    cbn [bind]. intros [= _ <-].
    destruct (battle_loop_sound _ _ _ _ _ Hloop Hs Hok) as [[[Hb _] Ha] _].
    split; [exact Ha|]. intros t. unfold is_defeated. rewrite forallb_forall.
    split; intros H c Hc; specialize (H c Hc); specialize (Ha c); specialize (Hb c).
    + rewrite Ha in H. apply negb_true_iff, Z.ltb_ge in H. lia.
    + rewrite Ha, H. reflexivity.
Qed.

(** ** The action records *)

(** The four forms of an action record. *)
Definition action_shape (d : ActionDetail) : Prop :=
  (action d = Some "idle" /\ ad_target d = None /\ damage d = 0 /\ extra d = [])
  \/ exists t, ad_target d = Some t
       /\ ((action d = Some "attack (missed)" /\ damage d = 0 /\ extra d = [])
           \/ (action d = Some "attack" /\ extra d = [])
           \/ (exists n, action d = Some ("use ability " ++ n)%string
                 /\ 1 <= damage d /\ extra d = ["ability event logged"])).

Lemma basic_attack_shape f g w d g1 w1 :
  basic_attack uuid4 f g w = Ok (d, g1, w1) ->
  action_shape d
  /\ (action d = Some "idle" <-> is_defeated (target_team_of f g w) w = true).
Proof.
  unfold basic_attack.
  destruct (_choose_target_spec f g w) as (Hnone & _ & _).
  destruct (_choose_target f g w) as [[t|] w2]; cbn [fst] in Hnone.
  - assert (Hnot : is_defeated (target_team_of f g w) w <> true)
      by (intros H; apply Hnone in H; discriminate).
    destruct (random_random w2) as [k w3]. destruct (below_tenths 1 k).
    + cbn [MissEvent_init new_event_id]. intros [= <- _ _]. cbn.
      split; [right; eexists; split; [reflexivity|]; left; auto|].
      split; [discriminate|contradiction].
    + destruct (random_random w3) as [k' w4]. destruct (below_tenths 2 k').
      * destruct (int_times_half _) as [x|]; [|discriminate].
        cbn [bind CriticalHitEvent_init new_event_id]. intros [= <- _ _]. cbn.
        split; [right; eexists; split; [reflexivity|]; right; left; auto|].
        split; [discriminate|contradiction].
      * cbn [bind]. intros [= <- _ _]. cbn.
        split; [right; eexists; split; [reflexivity|]; right; left; auto|].
        split; [discriminate|contradiction].
  - intros [= <- _ _]. cbn.
    split; [left; auto|]. split; [intros _; now apply Hnone|reflexivity].
Qed.

Lemma ability_action_shape f a0 available g w0 w :
  same_objects w0 w ->
  let d := fst (fst (ability_action uuid4 f a0 available g w)) in
  action_shape d
  /\ (action d = Some "idle" <-> is_defeated (target_team_of f g w0) w0 = true).
Proof.
  intros (_ & _ & Hc0). cbv zeta. unfold ability_action.
  pose proof (choice_objects a0 available w) as Hobj1.
  destruct (choice a0 available w) as [ability w1]. cbn [snd] in Hobj1.
  destruct Hobj1 as (_ & _ & Hc1).
  destruct (_choose_target_spec f g w1) as (Hnone & _ & _).
  assert (Hteam : is_defeated (target_team_of f g w1) w1
                  = is_defeated (target_team_of f g w0) w0).
  { unfold target_team_of, is_defeated. now rewrite Hc1, Hc0. }
  rewrite Hteam in Hnone.
  destruct (_choose_target f g w1) as [[t|] w2]; cbn [fst] in Hnone.
  - assert (Hnot : is_defeated (target_team_of f g w0) w0 <> true)
      by (intros H; apply Hnone in H; discriminate).
    cbn [AbilityUsedEvent_init new_event_id fst action ad_target damage extra].
    split.
    + right. eexists. split; [reflexivity|]. right. right. eexists.
      split; [reflexivity|]. split; [apply Z.le_max_l|reflexivity].
    + split; [discriminate|contradiction].
  - cbn. split; [left; auto|]. split; [intros _; now apply Hnone|reflexivity].
Qed.

(** The record of one action.  It has an action text, never
    none: it is "idle", with no target and damage 0, exactly when the team
    the fighter aims at is defeated; otherwise it has a target and is a
    missed attack with damage 0, an attack, or the use of an ability with a
    damage of at least 1. *)
Lemma _perform_action_shape f g w d g1 w1 :
  _perform_action uuid4 f g w = Ok (d, g1, w1) ->
  action_shape d
  /\ (action d = Some "idle" <-> is_defeated (target_team_of f g w) w = true).
Proof.
  unfold _perform_action.
  destruct (filter _ (abilities (chars w f))) as [|a0 rest].
  - apply basic_attack_shape.
  - pose proof (random_random_objects w) as Hobj.
    destruct (random_random w) as [k w2]. cbn [snd] in Hobj.
    destruct (below_tenths 3 k).
    + intros [= Hact].
      pose proof (ability_action_shape f a0 (a0 :: rest) g w w2 Hobj) as H.
      cbv zeta in H. now rewrite Hact in H.
    + destruct Hobj as (_ & _ & Hc). intros Hb.
      apply basic_attack_shape in Hb.
      assert (Hteam : is_defeated (target_team_of f g w2) w2
                      = is_defeated (target_team_of f g w) w).
      { unfold target_team_of, is_defeated. now rewrite Hc. }
      now rewrite Hteam in Hb.
Qed.

(** An action raises only with a living enemy to hit. *)
Lemma _perform_action_raises_enemy f g w (e : exn) :
  _perform_action uuid4 f g w = Raise e ->
  get_alive_characters (target_team_of f g w) w <> [].
Proof.
  assert (Hbasic : forall w0, chars w0 = chars w ->
             basic_attack uuid4 f g w0 = Raise e ->
             get_alive_characters (target_team_of f g w) w <> []).
  { intros w0 Hc. unfold basic_attack.
    destruct (_choose_target_spec f g w0) as (Hnone & _ & _).
    destruct (_choose_target f g w0) as [[t|] w2]; cbn [fst] in Hnone; [|discriminate].
    intros _ Hnil. apply is_defeated_no_alive in Hnil.
    assert (Hteam : is_defeated (target_team_of f g w0) w0
                    = is_defeated (target_team_of f g w) w).
    { unfold target_team_of, is_defeated. now rewrite Hc. }
    rewrite <- Hteam in Hnil. apply Hnone in Hnil. discriminate. }
  unfold _perform_action.
  destruct (filter _ (abilities (chars w f))) as [|a0 rest].
  - now apply Hbasic.
  - pose proof (random_random_objects w) as Hobj.
    destruct (random_random w) as [k w2]. cbn [snd] in Hobj.
    destruct (below_tenths 3 k); [discriminate|].
    apply Hbasic. exact (proj2 (proj2 Hobj)).
Qed.

Definition shaped_record (entry : LogEntry) : Prop :=
  exists td, entry = TurnRecord td /\ Forall action_shape (actions td).

Lemma turn_record_shaped g w g' w' td :
  turn uuid4 g w = Ok (g', w') ->
  turn_log g' = turn_log g ++ [TurnRecord td] ->
  Forall action_shape (actions td).
Proof.
  intros Hturn Hlog.
  destruct (turn_record_actions g w g' w' td Hturn Hlog) as (_ & Hacts & _).
  cbn [actions] in Hacts. rewrite Hacts.
  destruct (turn_world g w g' w' Hturn) as (acts & g2 & w2 & Ephase & _).
  unfold turn_actions. rewrite Ephase.
  unfold action_phase in Ephase.
  assert (Hall : Forall (fun p : ref * ActionDetail => action_shape (snd p)) acts).
  { refine (proj2 (action_loop_invariant (fun _ _ => True)
                     (fun _ d => action_shape d) _ _ _ _ _ _ _ _ _ I Ephase)); auto.
    intros f g0 w0 d g1 w1 _ Hact. split; [exact I|].
    exact (proj1 (_perform_action_shape f g0 w0 d g1 w1 Hact)). }
  apply Forall_map. exact Hall.
Qed.

Lemma battle_loop_shaped fuel : forall g w g' w',
  battle_loop uuid4 fuel g w = Ok (g', w') ->
  exists turns, turn_log g' = turn_log g ++ turns /\ Forall shaped_record turns.
Proof.
  induction fuel as [|fuel IH]; intros g w g' w'; cbn [battle_loop];
    destruct (negb (battle_over g) && (turn_count g <? max_turns));
    try discriminate;
    try (intros [= <- <-]; exists []; rewrite app_nil_r; split; [reflexivity|constructor]).
  destruct (turn uuid4 g w) as [[g1 w1]|] eqn:Hturn; [|discriminate]. cbn [bind].
  intros Hloop. apply IH in Hloop. destruct Hloop as (turns & Hlog' & Hall).
  pose proof (turn_effect_of _ _ _ _ Hturn) as [_ _ _ Hlog _].
  destruct (_get_all_alive_characters g (status_world g w)).
  - exists turns. rewrite Hlog', Hlog. split; [reflexivity|exact Hall].
  - destruct Hlog as (td & Hlog & _). exists (TurnRecord td :: turns). split.
    + rewrite Hlog', Hlog, <- app_assoc. reflexivity.
    + constructor; [|exact Hall]. exists td. split; [reflexivity|].
      eapply turn_record_shaped; eauto.
Qed.

(** X15.  In the log of the run of a new engine, when the run returns,
    every action record of every turn record has one of the four forms of
    [action_shape]: an action text is always there; without a target it is
    "idle" with damage 0; a missed attack has damage 0 and the use of an
    ability a damage of at least 1.  (A run that does not return raised the
    OverflowError of an action.) *)
Theorem log_actions_are_shaped (ta tb : Team) (random_seed : option Z) w :
  match run_battle uuid4 (fst (GameEngine_init ta tb random_seed w))
          (snd (GameEngine_init ta tb random_seed w)) with
  | Ok (g', w') =>
      exists turns last,
        get_confrontation_log g' = turns ++ [last] /\ Forall shaped_record turns
  | Raise e => e = OverflowError /\ ~ attacks_safe w
  end.
Proof.
  pose proof (run_battle_outcome ta tb random_seed w) as Hrun. cbv zeta in Hrun.
  destruct (run_battle uuid4 _ _) as [[g' w1]|e]; [|exact Hrun].
  destruct Hrun as (g1 & Hloop & ->).
  apply battle_loop_shaped in Hloop. destruct Hloop as (turns & Hlog & Hall).
  cbn [GameEngine_init fst turn_log app] in Hlog.
  exists turns. eexists.
  unfold get_confrontation_log, _log_battle_result. cbn [turn_log set_turn_log].
  rewrite Hlog. split; [reflexivity|exact Hall].
Qed.

(** X16.  An action that returns is "idle" exactly when the team the
    fighter aims at (team B for a fighter with team A's id, team A for any
    other) has no living member when the action starts.  An action that
    raises had a living enemy to hit, and raises OverflowError. *)
Theorem idle_iff_no_living_enemy f g w :
  match _perform_action uuid4 f g w with
  | Ok (d, _, _) =>
      action d = Some "idle" <-> get_alive_characters (target_team_of f g w) w = []
  | Raise e =>
      e = OverflowError /\ get_alive_characters (target_team_of f g w) w <> []
  end.
Proof.
  destruct (_perform_action uuid4 f g w) as [[[d g1] w1]|e] eqn:Hact.
  - rewrite <- is_defeated_no_alive. exact (proj2 (_perform_action_shape _ _ _ _ _ _ Hact)).
  - split; [exact (proj1 (_perform_action_raises _ _ _ _ Hact))|].
    eapply _perform_action_raises_enemy; eauto.
Qed.

(** ** Items *)

(** X17.  [use_item] takes one unit off the quantity whatever the effect
    is and whatever the quantity was (it does not test that a unit is left,
    and an effect other than heal, damage and buff uses the unit up without
    changing anything else); it changes no other character, no effect and no
    ability; and with a non-negative value it keeps a [sound] store sound. *)
Theorem use_item_consumes (it : Item) c w :
  let r := use_item it c w in
  quantity (fst r) = quantity it - 1
  /\ (it_name (fst r), it_effect (fst r), it_effect_value (fst r))
     = (it_name it, it_effect it, it_effect_value it)
  /\ ((it_effect it =? "heal")%string = false ->
      (it_effect it =? "damage")%string = false ->
      (it_effect it =? "buff")%string = false -> snd r = w)
  /\ (forall c', c' <> c -> chars (snd r) c' = chars w c')
  /\ effects (snd r) = effects w /\ ability_objs (snd r) = ability_objs w
  /\ (0 <= it_effect_value it -> sound w -> sound (snd r)).
Proof.
  cbv zeta. unfold use_item. cbn [fst snd quantity it_name it_effect it_effect_value].
  split; [reflexivity|]. split; [reflexivity|].
  destruct (it_effect it =? "heal")%string.
  { split; [discriminate|]. split; [intros c' H; now apply heal_other|].
    split; [apply heal_effects|]. split; [apply heal_abilities|].
    intros Hv Hs. now apply heal_sound. }
  destruct (it_effect it =? "damage")%string.
  { split; [discriminate|]. split; [intros c' H; now apply take_damage_other|].
    split; [apply take_damage_effects|]. split; [apply take_damage_abilities|].
    intros Hv Hs. now apply take_damage_sound. }
  destruct (it_effect it =? "buff")%string.
  { split; [discriminate|]. split; [intros c' H; solve_char_frame c' c|].
    split; [reflexivity|]. split; [reflexivity|].
    intros Hv Hs. solve_sound c. }
  split; [reflexivity|]. split; [reflexivity|]. split; [reflexivity|].
  split; [reflexivity|]. auto.
Qed.

(** ** Ticks of a shared ability *)

(** X18.  [tick_abilities] ticks an ability once for every occurrence of
    it in the character's list: a positive cooldown goes down by that
    number, not below zero, and a cooldown that is not positive stays.  It
    changes no character and no effect. *)
Theorem tick_abilities_per_occurrence c w a :
  let n := count_occ Nat.eq_dec (abilities (chars w c)) a in
  let cc := current_cooldown (ability_objs w a) in
  ability_objs (tick_abilities c w) a
  = set_current_cooldown (if cc <=? 0 then cc else Z.max 0 (cc - Z.of_nat n))
      (ability_objs w a)
  /\ chars (tick_abilities c w) = chars w
  /\ effects (tick_abilities c w) = effects w.
Proof.
  cbv zeta. split; [apply tick_all_at|].
  split; [apply tick_abilities_chars|apply tick_abilities_effects].
Qed.

(** ** How long an effect lasts *)

Lemma process_single_effect w c e :
  status_effects (chars w c) = [e] ->
  let w' := snd (process_status_effects c w) in
  effects w' e = ticked_effect 1 (effects w e)
  /\ chars w' c = set_status_effects (if duration (effects w e) - 1 <=? 0 then [] else [e])
                    (chars (apply_effect e c w) c).
Proof.
  intros Hheld. cbv zeta. unfold process_status_effects. rewrite Hheld.
  cbn [apply_status_effects snd]. split.
  - cbn [effects set_char tick set_effect]. rewrite upd_same, apply_effect_effects.
    unfold ticked_effect. change (Z.of_nat 1) with 1. reflexivity.
  - cbn [chars set_char tick set_effect]. rewrite upd_same, apply_effect_held, Hheld.
    cbn [filter effects set_char tick set_effect]. rewrite upd_same, apply_effect_effects.
    unfold is_expired.
    cbn [duration set_duration]. destruct (_ <=? 0); reflexivity.
Qed.

Lemma process_no_effect w c :
  status_effects (chars w c) = [] ->
  chars (snd (process_status_effects c w)) c = chars w c
  /\ effects (snd (process_status_effects c w)) = effects w.
Proof.
  intros Hheld. unfold process_status_effects. rewrite Hheld.
  cbn [apply_status_effects snd chars set_char effects]. rewrite upd_same, Hheld.
  cbn [filter]. split; [|reflexivity]. destruct (chars w c). cbn in *. now subst.
Qed.

(** The state of a buff held alone, after [n] passes. *)
Definition buff_after (n : nat) (d v : Z) w0 c e w : Prop :=
  effects w e = ticked_effect (Nat.min n (Z.to_nat (Z.max 1 d))) (effects w0 e)
  /\ attack (chars w c)
     = attack (chars w0 c) + Z.min (Z.of_nat n) (Z.max 1 d) * v
  /\ status_effects (chars w c) = (if Z.of_nat n <? Z.max 1 d then [e] else []).

(** X19.  A buff that a character holds alone is applied at every status
    pass of the character until it is dropped, [max(1, d)] times for a
    duration [d] (once even when the duration is 0 or less), and the attack
    it has added stays after the effect is gone: after [n] passes the attack
    is up by [min(n, max(1, d))] times the magnitude. *)
Theorem buff_stacks_and_stays w c e (nm : string) (d v : Z) (n : nat) :
  effects w e = mkStatusEffect nm d v "buff" ->
  status_effects (chars w c) = [e] ->
  let w' := Nat.iter n (fun w0 => snd (process_status_effects c w0)) w in
  attack (chars w' c) = attack (chars w c) + Z.min (Z.of_nat n) (Z.max 1 d) * v
  /\ status_effects (chars w' c) = (if Z.of_nat n <? Z.max 1 d then [e] else []).
Proof.
  intros He Hheld. cbv zeta.
  assert (H : buff_after n d v w c e
                (Nat.iter n (fun w0 => snd (process_status_effects c w0)) w)).
  { induction n as [|n IH].
    - cbn [Nat.iter nat_rect]. unfold buff_after. cbn [Nat.min].
      rewrite ticked_effect_zero. change (Z.of_nat 0) with 0.
      replace (Z.min 0 (Z.max 1 d)) with 0 by lia.
      destruct (Z.ltb_spec 0 (Z.max 1 d)); [|lia]. split; [reflexivity|].
      split; [lia|exact Hheld].
    - rewrite Nat.iter_succ.
      set (wn := Nat.iter n (fun w0 => snd (process_status_effects c w0)) w) in *.
      destruct IH as (Heff & Hatk & Hh). unfold buff_after.
      destruct (Z.ltb_spec (Z.of_nat n) (Z.max 1 d)) as [Hlt|Hge].
      + (* still held: one more application *)
        destruct (process_single_effect wn c e Hh) as [Heff' Hc']. cbv zeta in Hc'.
        assert (Hmin : Nat.min n (Z.to_nat (Z.max 1 d)) = n) by lia.
        assert (Hmin' : Nat.min (S n) (Z.to_nat (Z.max 1 d)) = S n) by lia.
        rewrite Hmin in Heff. rewrite Hmin'.
        assert (Hty : effects wn e = mkStatusEffect nm (d - Z.of_nat n) v "buff").
        { rewrite Heff, He. reflexivity. }
        refine (conj _ (conj _ _)).
        * rewrite Heff', Heff, He. unfold ticked_effect, set_duration.
          cbn [se_name duration effect_value effect_type]. f_equal. lia.
        * rewrite Hc'. cbn [attack set_status_effects]. unfold apply_effect.
          rewrite Hty. cbn [effect_type effect_value String.eqb Ascii.eqb Bool.eqb].
          cbn [chars set_char]. rewrite upd_same. cbn [attack set_attack].
          rewrite Hatk. lia.
        * rewrite Hc'. cbn [status_effects set_status_effects]. rewrite Hty.
          cbn [duration].
          destruct (Z.leb_spec (d - Z.of_nat n - 1) 0);
            destruct (Z.ltb_spec (Z.of_nat (S n)) (Z.max 1 d)); auto; lia.
      + (* dropped: nothing more happens *)
        destruct (process_no_effect wn c Hh) as [Hc' Heff'].
        assert (Hmin : Nat.min n (Z.to_nat (Z.max 1 d)) = Z.to_nat (Z.max 1 d)) by lia.
        assert (Hmin' : Nat.min (S n) (Z.to_nat (Z.max 1 d)) = Z.to_nat (Z.max 1 d)) by lia.
        rewrite Hmin in Heff. rewrite Hmin', Hc', Heff'.
        refine (conj Heff (conj _ _)).
        * rewrite Hatk. f_equal. f_equal. lia.
        * rewrite Hh. destruct (Z.ltb_spec (Z.of_nat (S n)) (Z.max 1 d)); [lia|reflexivity]. }
  destruct H as (_ & Hatk & Hh). split; assumption.
Qed.


(** ** Building a team *)

Lemma add_character_fold (t : Team) (cs : list ref) w :
  let t' := fold_left (fun t0 c => add_character t0 c w) cs t in
  characters t' = characters t ++ cs
  /\ formation t' = formation t ++ map (fun c => position (chars w c)) cs
  /\ team_id t' = team_id t.
Proof.
  revert t. induction cs as [|c cs IH]; intros t; cbn [fold_left map].
  - rewrite !app_nil_r. auto.
  - destruct (IH (add_character t c w)) as (Hc & Hf & Hi).
    cbv zeta. rewrite Hc, Hf, Hi. cbn [add_character characters formation team_id].
    rewrite <- !app_assoc. auto.
Qed.

(** X20.  A team filled by [add_character] from an empty [Team] lists its
    members in the order they were added, and its formation is the list of
    the positions they had when they were added, so the two lists have the
    same length. *)
Theorem add_character_builds_roster (id : string) (cs : list ref) w :
  let t := fold_left (fun t0 c => add_character t0 c w) cs (Team_init id) in
  characters t = cs
  /\ formation t = map (fun c => position (chars w c)) cs
  /\ length (formation t) = length (characters t)
  /\ team_id t = id.
Proof.
  destruct (add_character_fold (Team_init id) cs w) as (Hc & Hf & Hi).
  cbv zeta. rewrite Hc, Hf, Hi. cbn [Team_init characters formation team_id app].
  rewrite length_map. auto.
Qed.


(** ** Attacks without buffs *)

Lemma battle_loop_attacks fuel : forall g w g' w',
  battle_loop uuid4 fuel g w = Ok (g', w') -> no_buff w -> same_attacks w w'.
Proof.
  induction fuel as [|fuel IH]; intros g w g' w'; cbn [battle_loop];
    destruct (negb (battle_over g) && (turn_count g <? max_turns));
    try discriminate; try (intros [= <- <-] _; apply same_attacks_refl).
  destruct (turn uuid4 g w) as [[g1 w1]|] eqn:Hturn; [|discriminate].
  cbn [bind]. intros Hloop Hnb.
  pose proof (turn_attacks _ _ _ _ Hturn Hnb) as H1.
  eapply same_attacks_trans; [exact H1|].
  eapply IH; [exact Hloop|]. eapply no_buff_frame; eauto.
Qed.

(** X21.  The engine changes an attack through a buff only: from a store
    in which no effect is a buff, the status phase, a turn that returns and
    a run that returns leave the attack of every character and the kind of
    every effect as they were. *)
Theorem attacks_change_by_buffs_only g w :
  no_buff w ->
  same_attacks w (snd (_process_status_effects g w))
  /\ (forall g1 w1, turn uuid4 g w = Ok (g1, w1) -> same_attacks w w1)
  /\ (forall g1 w1, run_battle uuid4 g w = Ok (g1, w1) -> same_attacks w w1).
Proof.
  intros Hnb. refine (conj _ (conj _ _)).
  - now apply status_loop_attacks.
  - intros g1 w1 H. eapply turn_attacks; eauto.
  - intros g1 w1. unfold run_battle.
    destruct (battle_loop uuid4 _ g w) as [[g2 w2]|] eqn:Hloop; [|discriminate].
    cbn [bind]. intros [= _ <-]. eapply battle_loop_attacks; eauto.
Qed.

(** ** The extra damage of a critical hit *)

Lemma round_half_even_small (n : Z) : 0 <= n < 2 ^ 53 -> round_half_even n = n.
Proof.
  intros H. unfold round_half_even.
  destruct (Z.leb_spec (Z.log2 n + 1 - 53) 0) as [_|Hs]; [reflexivity|].
  exfalso. destruct (Z.eq_dec n 0) as [->|Hn].
  - change (Z.log2 0) with 0 in Hs. lia.
  - assert (Z.log2 n < 53) by (apply Z.log2_lt_pow2; lia). lia.
Qed.

Lemma int_times_half_exact (n : Z) :
  Z.abs n < 2 ^ 53 -> int_times_half n = Ok (Z.quot n 2).
Proof.
  intros H. unfold int_times_half, float_of_int.
  rewrite round_half_even_small by (split; [apply Z.abs_nonneg|exact H]).
  assert (Hlim : 2 ^ 53 < double_limit).
  { unfold double_limit. apply Z.pow_lt_mono_r; lia. }
  destruct (Z.ltb_spec (Z.abs n) double_limit) as [_|Hge]; [|lia].
  replace (Z.sgn n * Z.abs n) with n by (destruct n; cbn; lia). reflexivity.
Qed.

Definition half_extra (f : ref) w (ev : Event) : Prop :=
  match ev with
  | CriticalHitEvent _ _ _ _ x => x = Z.quot (attack (chars w f)) 2
  | _ => True
  end.

(** X22.  The action of a fighter whose attack is below [2^53] in absolute
    value returns, and a critical hit it queues carries as extra damage half
    the attack, truncated towards zero: the conversion to a float is exact
    there. *)
Theorem critical_extra_is_half_attack f g w :
  Z.abs (attack (chars w f)) < 2 ^ 53 ->
  exists d g1 w1 evs,
    _perform_action uuid4 f g w = Ok (d, g1, w1)
    /\ event_log g1 = event_log g ++ evs
    /\ Forall (half_extra f w) evs.
Proof.
  intros Hsmall. pose proof (int_times_half_exact _ Hsmall) as Hexact.
  destruct (_perform_action uuid4 f g w) as [[[d g1] w1]|e] eqn:Hact.
  - exists d, g1, w1. apply _perform_action_effect in Hact.
    destruct Hact as [_ _ _ _ _ (evs & Hevs & Hall) _ _ _ _].
    exists evs. split; [reflexivity|]. split; [exact Hevs|].
    eapply Forall_impl; [|exact Hall].
    intros [i s a t x|i s a t|i s u a t]; cbn; [|auto..].
    intros Hx. rewrite Hexact in Hx. now injection Hx as ->.
  - exfalso. apply _perform_action_raises in Hact. destruct Hact as [_ Hnot].
    apply Hnot. unfold fits. unfold int_times_half in Hexact.
    destruct (float_of_int _); discriminate.
Qed.

End Facts.

(** * The properties on concrete squads *)

Lemma rearrange_formation_length_mismatch_witness :
  length [1; 0] <> length (characters Duel.team_A)
  /\ rearrange_formation Duel.team_A [1; 0] Duel.world = (Duel.team_A, Duel.world).
Proof.
  split; [cbn; discriminate|].
  apply (rearrange_formation_length_mismatch Duel.source Duel.team_A [1; 0] Duel.world).
  cbn. discriminate.
Defined.

Lemma poison_three_ticks_witness :
  let w := Poisoned.world in
  let w1 := snd (process_status_effects Poisoned.victim w) in
  let w2 := snd (process_status_effects Poisoned.victim w1) in
  let w3 := snd (process_status_effects Poisoned.victim w2) in
  (effects w Poisoned.poison = mkStatusEffect "Poison" 3 2 "poison"
   /\ current_hp (chars w Poisoned.victim) = 5
   /\ status_effects (chars w Poisoned.victim) = [Poisoned.poison])
  /\ (current_hp (chars w1 Poisoned.victim) = 3 /\ alive (chars w1 Poisoned.victim) = true
      /\ status_effects (chars w1 Poisoned.victim) = [Poisoned.poison])
  /\ (current_hp (chars w2 Poisoned.victim) = 1 /\ alive (chars w2 Poisoned.victim) = true
      /\ status_effects (chars w2 Poisoned.victim) = [Poisoned.poison])
  /\ (current_hp (chars w3 Poisoned.victim) = 0 /\ alive (chars w3 Poisoned.victim) = false
      /\ status_effects (chars w3 Poisoned.victim) = []).
Proof.
  split; [repeat split|].
  exact (poison_three_ticks Poisoned.source Poisoned.world Poisoned.victim Poisoned.poison
           "Poison" eq_refl eq_refl eq_refl eq_refl).
Defined.

Lemma duel_first_turn :
  turn first_run_ids (fst Duel.start) (snd Duel.start)
  = Ok (fst Duel.turn1, snd Duel.turn1).
Proof. vm_compute. reflexivity. Qed.

Lemma duel_first_turn_log :
  turn_log (fst Duel.turn1) = turn_log (fst Duel.start) ++ [TurnRecord Duel.record1].
Proof. vm_compute. reflexivity. Qed.

Lemma duel_first_turn_actors :
  turn_actors Duel.source first_run_ids (fst Duel.start) (snd Duel.start)
  = [Duel.ace; Duel.bo].
Proof. vm_compute. reflexivity. Qed.

Lemma turn_order_witness :
  turn first_run_ids (fst Duel.start) (snd Duel.start)
  = Ok (fst Duel.turn1, snd Duel.turn1)
  /\ turn_log (fst Duel.turn1) = turn_log (fst Duel.start) ++ [TurnRecord Duel.record1]
  /\ map actor (actions Duel.record1) = ["Ace"; "Bo"]
  /\ (forall i j,
        nth_error [Duel.ace; Duel.bo] i = Some Duel.ace ->
        nth_error [Duel.ace; Duel.bo] j = Some Duel.bo -> (i < j)%nat).
Proof.
  split; [exact duel_first_turn|]. split; [exact duel_first_turn_log|].
  split; [vm_compute; reflexivity|].
  pose proof (turn_order Duel.source first_run_ids _ _ _ _ _
                duel_first_turn duel_first_turn_log) as [_ Horder].
  rewrite duel_first_turn_actors in Horder.
  intros i j Hi Hj. apply (Horder i j Duel.ace Duel.bo Hi Hj). left.
  vm_compute. reflexivity.
Defined.

Lemma duel_world_healthy : healthy Duel.source (snd Duel.start).
Proof.
  split; [|split].
  - intros [|[|[|c]]]; cbn; lia.
  - intros [|[|[|c]]]; cbn; lia.
  - intros [|e]; cbn; lia.
Qed.

Lemma health_bounds_preserved_witness :
  healthy Duel.source (snd Duel.start)
  /\ events_ok (fst Duel.start)
  /\ (forall g1 w1,
        run_battle first_run_ids (fst Duel.start) (snd Duel.start) = Ok (g1, w1) ->
        health_bounds Duel.source w1).
Proof.
  split; [exact duel_world_healthy|]. split; [constructor|].
  apply (health_bounds_preserved Duel.source first_run_ids (fst Duel.start) (snd Duel.start)
           duel_world_healthy (Forall_nil _)).
Defined.







(** C5, as stated, fails.  [take_damage] has no upper clamp and [heal] no
    lower one.  In a run: Ben (10 of 10 health) is hit for 1 by Ann's
    ability in the first turn and receives its poison of magnitude -4 at the
    flush; the status phase of the second turn "damages" Ben by -4 and
    leaves it with 13 health. *)
Lemma negative_amount_breaks_health_bounds :
  turn first_run_ids (fst Drain.start) (snd Drain.start)
  = Ok (fst Drain.turn1, snd Drain.turn1)
  /\ turn first_run_ids (fst Drain.turn1) (snd Drain.turn1)
     = Ok (fst Drain.turn2, snd Drain.turn2)
  /\ max_hp (chars (snd Drain.turn2) Drain.ben) = 10
  /\ current_hp (chars (snd Drain.turn2) Drain.ben) = 13
  /\ current_hp (chars (take_damage Drain.ben (-1) (snd Drain.start)) Drain.ben) = 11
  /\ current_hp (chars (heal Drain.ben (-11) (snd Drain.start)) Drain.ben) = -1.
Proof.
  split; [vm_compute; reflexivity|]. split; [vm_compute; reflexivity|].
  split; [vm_compute; reflexivity|]. split; [vm_compute; reflexivity|].
  split; vm_compute; reflexivity.
Qed.

(** C1 fails on the code (the claim stands).  Two runs of the duel with the
    same squads and the same seed: [uuid4] is not seeded, each run gets
    other identifiers, and the identifier of each event is part of its
    entry in the [events] list of the log. *)
Theorem event_ids_differ_between_runs :
  exists g1 w1 g2 w2 td1 rest1 td2 rest2,
    run_battle first_run_ids (fst Duel.start) (snd Duel.start) = Ok (g1, w1)
    /\ run_battle second_run_ids (fst Duel.start) (snd Duel.start) = Ok (g2, w2)
    /\ get_confrontation_log g1 = TurnRecord td1 :: rest1
    /\ get_confrontation_log g2 = TurnRecord td2 :: rest2
    /\ td_events td1
       = Some ["<Event 6f1c0c3a8d2e4b7f9a0b1c2d3e4f5a6b: Bo used ability Slam on Ace>"]
    /\ td_events td2
       = Some ["<Event e3b0c44298fc4c149afbf4c8996fb924: Bo used ability Slam on Ace>"]
    /\ get_confrontation_log g1 <> get_confrontation_log g2.
Proof.
  destruct (run_battle first_run_ids (fst Duel.start) (snd Duel.start))
    as [[g1 w1]|] eqn:E1; [|vm_compute in E1; discriminate].
  destruct (run_battle second_run_ids (fst Duel.start) (snd Duel.start))
    as [[g2 w2]|] eqn:E2; [|vm_compute in E2; discriminate].
  assert (L1 : get_confrontation_log g1
               = get_confrontation_log
                   (match run_battle first_run_ids (fst Duel.start) (snd Duel.start) with
                    | Ok (g, _) => g | Raise _ => fst Duel.start end))
    by (now rewrite E1).
  assert (L2 : get_confrontation_log g2
               = get_confrontation_log
                   (match run_battle second_run_ids (fst Duel.start) (snd Duel.start) with
                    | Ok (g, _) => g | Raise _ => fst Duel.start end))
    by (now rewrite E2).
  exists g1, w1, g2, w2.
  set (l1 := get_confrontation_log g1) in *. set (l2 := get_confrontation_log g2) in *.
  clearbody l1 l2. vm_compute in L1, L2. rewrite L1, L2. do 4 eexists.
  split; [reflexivity|]. split; [reflexivity|]. split; [reflexivity|].
  split; [reflexivity|]. split; [reflexivity|]. split; [reflexivity|].
  intros H. injection H as H. discriminate H.
Qed.

(** C2 fails on the code (the claim stands).  A attacks B (42 health) with
    a critical hit: the base damage is [max(1, 12 - 30) = 1], the extra
    damage 6 and the recorded damage 7.  The action itself takes 7 from B,
    not 1, and the flush takes the extra 6 once more: B has 35 health after
    the action and, with no other hit on it, 29 after the turn. *)
Theorem critical_extra_applied_at_once_and_again :
  exists d g1 w1,
    _perform_action first_run_ids Critical.a (fst Critical.start) (snd Critical.start)
    = Ok (d, g1, w1)
    /\ current_hp (chars (snd Critical.start) Critical.b) = 42
    /\ Z.max 1 (attack (chars (snd Critical.start) Critical.a)
                - defense (chars (snd Critical.start) Critical.b)) = 1
    /\ damage d = 7
    /\ event_log g1
       = [CriticalHitEvent "6f1c0c3a8d2e4b7f9a0b1c2d3e4f5a6b"
            "Critical hit by A on B for extra 6" Critical.a Critical.b 6]
    /\ current_hp (chars w1 Critical.b) = 35
    /\ exists g2 w2 td,
         turn first_run_ids (fst Critical.start) (snd Critical.start) = Ok (g2, w2)
         /\ turn_log g2 = [TurnRecord td]
         /\ map ad_target (actions td) = [Some "B"; Some "A"]
         /\ current_hp (chars w2 Critical.b) = 29.
Proof.
  destruct (_perform_action first_run_ids Critical.a (fst Critical.start)
              (snd Critical.start)) as [[[d g1] w1]|] eqn:E;
    [|vm_compute in E; discriminate].
  assert (Ed : damage d
               = damage (match _perform_action first_run_ids Critical.a
                                 (fst Critical.start) (snd Critical.start) with
                         | Ok (d0, _, _) => d0 | Raise _ => idle_detail "" end))
    by (now rewrite E).
  assert (Eg : event_log g1
               = event_log (match _perform_action first_run_ids Critical.a
                                    (fst Critical.start) (snd Critical.start) with
                            | Ok (_, g0, _) => g0 | Raise _ => fst Critical.start end))
    by (now rewrite E).
  assert (Ew : current_hp (chars w1 Critical.b)
               = current_hp (chars (match _perform_action first_run_ids Critical.a
                                            (fst Critical.start) (snd Critical.start) with
                                    | Ok (_, _, w0) => w0 | Raise _ => snd Critical.start end)
                               Critical.b))
    by (now rewrite E).
  exists d, g1, w1. split; [reflexivity|].
  set (x := damage d) in *. set (q := event_log g1) in *.
  set (h1 := current_hp (chars w1 Critical.b)) in *.
  clearbody x q h1. vm_compute in Ed, Eg, Ew.
  split; [vm_compute; reflexivity|]. split; [vm_compute; reflexivity|].
  split; [exact Ed|]. split; [exact Eg|]. split; [exact Ew|].
  destruct (turn first_run_ids (fst Critical.start) (snd Critical.start))
    as [[g2 w2]|] eqn:E2; [|vm_compute in E2; discriminate].
  assert (Et : turn_log g2
               = turn_log (match turn first_run_ids (fst Critical.start)
                                   (snd Critical.start) with
                           | Ok (g, _) => g | Raise _ => fst Critical.start end))
    by (now rewrite E2).
  assert (Eh : current_hp (chars w2 Critical.b)
               = current_hp (chars (match turn first_run_ids (fst Critical.start)
                                            (snd Critical.start) with
                                    | Ok (_, w) => w | Raise _ => snd Critical.start end)
                               Critical.b))
    by (now rewrite E2).
  exists g2, w2.
  set (l := turn_log g2) in *. set (h := current_hp (chars w2 Critical.b)) in *.
  clearbody l h. vm_compute in Et, Eh. rewrite Et, Eh.
  eexists. split; [reflexivity|]. split; [reflexivity|].
  split; reflexivity.
Qed.

(** C4 fails on the code (the claim stands).  Ann and Ben poison each other
    in the first turn; the status phase of the second turn kills both.  The
    loop is left before the record of the second turn is appended: the log
    holds the record of turn 1 and the result record, whose turn number is 2;
    the two status lines of the second turn are nowhere in it. *)
Theorem turn_record_lost_when_status_effects_kill_all :
  exists g w td,
    run_battle first_run_ids (fst Venom.start) (snd Venom.start) = Ok (g, w)
    /\ get_confrontation_log g
       = [TurnRecord td; ResultRecord "Draw: Both teams defeated." 2 None]
    /\ turn_number td = 1
    /\ td_status_effects td = None
    /\ turn_count g = 2
    /\ fst (_process_status_effects (fst (Venom.after Venom.start))
              (snd (Venom.after Venom.start)))
       = ["Ann is affected by Poison (5)"; "Ben is affected by Poison (5)"].
Proof.
  destruct (run_battle first_run_ids (fst Venom.start) (snd Venom.start))
    as [[g w]|] eqn:E; [|vm_compute in E; discriminate].
  assert (L : get_confrontation_log g
              = get_confrontation_log
                  (match run_battle first_run_ids (fst Venom.start) (snd Venom.start) with
                   | Ok (g0, _) => g0 | Raise _ => fst Venom.start end))
    by (now rewrite E).
  assert (C : turn_count g
              = turn_count
                  (match run_battle first_run_ids (fst Venom.start) (snd Venom.start) with
                   | Ok (g0, _) => g0 | Raise _ => fst Venom.start end))
    by (now rewrite E).
  exists g, w.
  set (l := get_confrontation_log g) in *. set (n := turn_count g) in *.
  clearbody l n. vm_compute in L, C. rewrite L, C.
  eexists. split; [reflexivity|]. split; [reflexivity|].
  split; [reflexivity|]. split; [reflexivity|]. split; [reflexivity|].
  vm_compute. reflexivity.
Qed.

(** C8, as stated, fails.  Titan's attack is [2^1024]: on its critical hit
    [int(fighter.attack * 0.5)] raises OverflowError, [run_battle] is left by
    the exception and no result record is appended. *)
Lemma run_raises_overflow :
  attack (chars (snd Giant.start) Giant.titan) = 2 ^ 1024
  /\ _perform_action first_run_ids Giant.titan (fst Giant.start) (snd Giant.start)
     = Raise OverflowError
  /\ run_battle first_run_ids (fst Giant.start) (snd Giant.start) = Raise OverflowError.
Proof. split; [|split]; vm_compute; reflexivity. Qed.

Lemma duel_attacks_safe : attacks_safe Duel.source Duel.world.
Proof.
  split.
  - intros e. destruct e; cbn; discriminate.
  - intros [|[|[|c]]]; unfold fits; vm_compute; discriminate.
Qed.

Lemma run_battle_terminates_witness :
  attacks_safe Duel.source Duel.world
  /\ exists g' w',
       run_battle first_run_ids
         (fst (GameEngine_init Duel.team_A Duel.team_B (Some 12345) Duel.world))
         (snd (GameEngine_init Duel.team_A Duel.team_B (Some 12345) Duel.world))
       = Ok (g', w').
Proof.
  split; [exact duel_attacks_safe|].
  pose proof (run_battle_terminates Duel.source first_run_ids Duel.team_A Duel.team_B
                (Some 12345) Duel.world) as H.
  cbv zeta in H. destruct H as [Hreturns _]. exact (Hreturns duel_attacks_safe).
Defined.

(** * Witnesses of the further properties *)

Lemma duel_cooldown_bounds : cooldown_bounds Duel.source (snd Duel.start).
Proof. intros [|[|a]]; cbn; lia. Qed.

Lemma cooldown_bounds_preserved_witness :
  cooldown_bounds Duel.source (snd Duel.start)
  /\ (forall g1 w1,
        run_battle first_run_ids (fst Duel.start) (snd Duel.start) = Ok (g1, w1) ->
        cooldown_bounds Duel.source w1).
Proof.
  split; [exact duel_cooldown_bounds|].
  apply (cooldown_bounds_preserved Duel.source first_run_ids (fst Duel.start)
           (snd Duel.start) duel_cooldown_bounds).
Defined.

Lemma duel_bo_dead : alive (chars (snd Duel.turn2) Duel.bo) = false.
Proof. vm_compute. reflexivity. Qed.

Lemma status_phase_skips_the_dead_witness :
  alive (chars (snd Duel.turn2) Duel.bo) = false
  /\ chars (snd (_process_status_effects (fst Duel.turn2) (snd Duel.turn2))) Duel.bo
     = chars (snd Duel.turn2) Duel.bo.
Proof.
  split; [exact duel_bo_dead|].
  apply (status_phase_skips_the_dead Duel.source (fst Duel.turn2) (snd Duel.turn2) Duel.bo).
  left. exact duel_bo_dead.
Defined.

Lemma turn_flushes_its_events_witness :
  event_log (fst Duel.start) = [] /\ event_log (fst Duel.turn1) = [].
Proof.
  split; [reflexivity|].
  pose proof (turn_flushes_its_events Duel.source first_run_ids (fst Duel.start)
                (snd Duel.start) eq_refl) as H.
  rewrite duel_first_turn in H. exact (proj1 H).
Defined.

Lemma duel_team_nodup : NoDup (characters Duel.team_A).
Proof. cbn. constructor; [intros []|constructor]. Qed.

Lemma rearrange_formation_assigns_witness :
  NoDup (characters Duel.team_A)
  /\ length [5] = length (characters Duel.team_A)
  /\ formation (fst (rearrange_formation Duel.team_A [5] Duel.world)) = [5]
  /\ map (fun c => position (chars (snd (rearrange_formation Duel.team_A [5] Duel.world)) c))
       (characters (fst (rearrange_formation Duel.team_A [5] Duel.world))) = [5].
Proof.
  split; [exact duel_team_nodup|]. split; [reflexivity|].
  destruct (rearrange_formation_assigns Duel.source Duel.team_A [5] Duel.world
              duel_team_nodup eq_refl) as (Hf & Hp & _).
  split; [exact Hf|exact Hp].
Defined.

Lemma duel_world_sound : sound Duel.source (snd Duel.start).
Proof.
  split; [exact duel_world_healthy|]. intros [|[|[|c]]]; reflexivity.
Qed.

Lemma alive_means_positive_health_witness :
  sound Duel.source (snd Duel.start)
  /\ events_ok (fst Duel.start)
  /\ alive_iff_health Duel.source
       (snd (_process_status_effects (fst Duel.start) (snd Duel.start))).
Proof.
  split; [exact duel_world_sound|]. split; [constructor|].
  exact (proj1 (alive_means_positive_health Duel.source first_run_ids (fst Duel.start)
                  (snd Duel.start) duel_world_sound (Forall_nil _))).
Defined.

Lemma buff_stacks_and_stays_witness :
  let w := Buffed.world in
  let w' := Nat.iter 5 (fun w0 => snd (process_status_effects Buffed.hero w0)) w in
  effects w Buffed.rage = mkStatusEffect "Rage" 3 2 "buff"
  /\ status_effects (chars w Buffed.hero) = [Buffed.rage]
  /\ attack (chars w' Buffed.hero)
     = attack (chars w Buffed.hero) + Z.min (Z.of_nat 5) (Z.max 1 3) * 2
  /\ status_effects (chars w' Buffed.hero)
     = (if Z.of_nat 5 <? Z.max 1 3 then [Buffed.rage] else []).
Proof.
  split; [reflexivity|]. split; [reflexivity|].
  exact (buff_stacks_and_stays Buffed.source Buffed.world Buffed.hero Buffed.rage
           "Rage" 3 2 5 eq_refl eq_refl).
Defined.

Lemma attacks_change_by_buffs_only_witness :
  no_buff Duel.source Duel.world
  /\ same_attacks Duel.source Duel.world
       (snd (_process_status_effects (fst Duel.start) Duel.world)).
Proof.
  split; [exact (proj1 duel_attacks_safe)|].
  exact (proj1 (attacks_change_by_buffs_only Duel.source first_run_ids (fst Duel.start)
                  Duel.world (proj1 duel_attacks_safe))).
Defined.

Lemma critical_attack_small :
  Z.abs (attack (chars (snd Critical.start) Critical.a)) < 2 ^ 53.
Proof. vm_compute. reflexivity. Qed.

Lemma critical_extra_is_half_attack_witness :
  Z.abs (attack (chars (snd Critical.start) Critical.a)) < 2 ^ 53
  /\ exists d g1 w1 evs,
       _perform_action first_run_ids Critical.a (fst Critical.start) (snd Critical.start)
       = Ok (d, g1, w1)
       /\ event_log g1 = event_log (fst Critical.start) ++ evs
       /\ Forall (half_extra Critical.source Critical.a (snd Critical.start)) evs.
Proof.
  split; [exact critical_attack_small|].
  exact (critical_extra_is_half_attack Critical.source first_run_ids Critical.a
           (fst Critical.start) (snd Critical.start) critical_attack_small).
Defined.
